(** * Prepared-statement binding layer of [mysql+++.h]

    A shallow embedding of the typed binders ([stmt_bind_detail]), of the
    bind set ([prepared_stmt::mysql_bind_set]) and of [prepared_stmt]
    itself, together with the properties of the binding protocol.

    Conventions of the embedding.
    - [size_t], [unsigned long] and [unsigned int] quantities are only
      stored, compared and handed on by this code, never computed with, so
      they are natural numbers.
    - A scalar of any of the supported C++ number types is its raw value as
      an integer; the binders only copy scalars.
    - A [std::string] is its sequence of bytes; [resize] pads with NUL.
    - Pointers are symbolic: an application variable is named by its
      address, and a descriptor's [buffer] says which storage it aliases.
    - Dereferencing a null [unique_ptr] and indexing a vector out of range
      are undefined behaviour, recorded as the outcome [Undefined].
    - Memory allocation is assumed to succeed wherever the source does not
      test for it. *)

From Stdlib Require Import ZArith String.
From Stdlib.Strings Require Import Byte.
From stdpp Require Import prelude functions.

Local Open Scope Z_scope.
Local Open Scope nat_scope.

(** ** Outcomes of a C++ call *)

Inductive exception : Type :=
  | out_of_range (what : string)
  | runtime_error (what : string)
  | bad_alloc
  | bad_optional_access.

Inductive outcome (A : Type) : Type :=
  | Returns (a : A)
  | Throws (e : exception)
  | Undefined.

Arguments Returns {A} a.
Arguments Throws {A} e.
Arguments Undefined {A}.

#[global] Instance outcome_ret : MRet outcome := fun A a => Returns a.
#[global] Instance outcome_bind : MBind outcome := fun A B k c =>
  match c with
  | Returns a => k a
  | Throws e => Throws e
  | Undefined => Undefined
  end.

(** ** Application memory

    The variables the caller binds by reference, by address and by type. *)

Definition addr := nat.

Record memory : Type := {
  mem_number : addr → Z;
  mem_optional_number : addr → option Z;
  mem_string : addr → list byte;
  mem_optional_string : addr → option (list byte)
}.

Definition store_number (p : addr) (v : Z) (m : memory) : memory :=
  {| mem_number := <[p := v]> (mem_number m);
     mem_optional_number := mem_optional_number m;
     mem_string := mem_string m;
     mem_optional_string := mem_optional_string m |}.

Definition store_optional_number (p : addr) (v : option Z) (m : memory) : memory :=
  {| mem_number := mem_number m;
     mem_optional_number := <[p := v]> (mem_optional_number m);
     mem_string := mem_string m;
     mem_optional_string := mem_optional_string m |}.

Definition store_string (p : addr) (v : list byte) (m : memory) : memory :=
  {| mem_number := mem_number m;
     mem_optional_number := mem_optional_number m;
     mem_string := <[p := v]> (mem_string m);
     mem_optional_string := mem_optional_string m |}.

Definition store_optional_string (p : addr) (v : option (list byte)) (m : memory) : memory :=
  {| mem_number := mem_number m;
     mem_optional_number := mem_optional_number m;
     mem_string := mem_string m;
     mem_optional_string := <[p := v]> (mem_optional_string m) |}.

(** [std::string::resize(n)]: keep the first [n] bytes, pad with NUL. *)
Definition string_resize (n : nat) (s : list byte) : list byte := resize n x00 s.

(** ** The wire descriptor [MYSQL_BIND] *)

(** Modelled from the spec: the field-type tags of [mysql.h], which is not
    part of the sources; only the tags this code names, and the tag with
    value zero that [memset] leaves behind. *)
Inductive enum_field_types : Type :=
  | MYSQL_TYPE_DECIMAL
  | MYSQL_TYPE_TINY
  | MYSQL_TYPE_SHORT
  | MYSQL_TYPE_LONG
  | MYSQL_TYPE_FLOAT
  | MYSQL_TYPE_DOUBLE
  | MYSQL_TYPE_NULL
  | MYSQL_TYPE_LONGLONG
  | MYSQL_TYPE_STRING.

(** What a descriptor's [buffer] aliases. *)
Inductive buffer_ptr : Type :=
  | null_buffer
  | number_buffer (data : addr)            (* [T* data], the bound number *)
  | pdata_buffer                           (* [&pdata] of the owning binder *)
  | string_buffer (data : addr)            (* [data->data()] *)
  | optional_string_buffer (data : addr).  (* [data->value().data()] *)

(** The [length] and [is_null] pointers are either null or point at the
    descriptor's own [length_value] / [is_null_value]. *)
Inductive own_ptr : Type :=
  | nullptr
  | own_field.

(** Modelled from the spec: the bind descriptor of [mysql.h] (buffer
    pointer, buffer length, null flag, data-length-out, type tag), which is
    not part of the sources; the fields this code writes or reads.  The
    field [length] is called [length_ptr] here. *)
Record MYSQL_BIND : Type := {
  length_ptr : own_ptr;
  is_null : own_ptr;
  buffer : buffer_ptr;
  buffer_length : nat;
  length_value : nat;
  buffer_type : enum_field_types;
  is_unsigned : bool;
  is_null_value : bool
}.

(** [memset(bind, 0x00, sizeof(MYSQL_BIND))], also the value-initialised
    descriptor of [_binds_mysql.resize(size)]. *)
Definition zero_bind : MYSQL_BIND :=
  {| length_ptr := nullptr; is_null := nullptr; buffer := null_buffer;
     buffer_length := 0; length_value := 0; buffer_type := MYSQL_TYPE_DECIMAL;
     is_unsigned := false; is_null_value := false |}.

Definition set_length_ptr (v : own_ptr) (b : MYSQL_BIND) : MYSQL_BIND :=
  {| length_ptr := v; is_null := is_null b; buffer := buffer b;
     buffer_length := buffer_length b; length_value := length_value b;
     buffer_type := buffer_type b; is_unsigned := is_unsigned b;
     is_null_value := is_null_value b |}.

Definition set_is_null (v : own_ptr) (b : MYSQL_BIND) : MYSQL_BIND :=
  {| length_ptr := length_ptr b; is_null := v; buffer := buffer b;
     buffer_length := buffer_length b; length_value := length_value b;
     buffer_type := buffer_type b; is_unsigned := is_unsigned b;
     is_null_value := is_null_value b |}.

Definition set_buffer (v : buffer_ptr) (b : MYSQL_BIND) : MYSQL_BIND :=
  {| length_ptr := length_ptr b; is_null := is_null b; buffer := v;
     buffer_length := buffer_length b; length_value := length_value b;
     buffer_type := buffer_type b; is_unsigned := is_unsigned b;
     is_null_value := is_null_value b |}.

Definition set_buffer_length (v : nat) (b : MYSQL_BIND) : MYSQL_BIND :=
  {| length_ptr := length_ptr b; is_null := is_null b; buffer := buffer b;
     buffer_length := v; length_value := length_value b;
     buffer_type := buffer_type b; is_unsigned := is_unsigned b;
     is_null_value := is_null_value b |}.

Definition set_length_value (v : nat) (b : MYSQL_BIND) : MYSQL_BIND :=
  {| length_ptr := length_ptr b; is_null := is_null b; buffer := buffer b;
     buffer_length := buffer_length b; length_value := v;
     buffer_type := buffer_type b; is_unsigned := is_unsigned b;
     is_null_value := is_null_value b |}.

Definition set_buffer_type (v : enum_field_types) (b : MYSQL_BIND) : MYSQL_BIND :=
  {| length_ptr := length_ptr b; is_null := is_null b; buffer := buffer b;
     buffer_length := buffer_length b; length_value := length_value b;
     buffer_type := v; is_unsigned := is_unsigned b;
     is_null_value := is_null_value b |}.

Definition set_is_unsigned (v : bool) (b : MYSQL_BIND) : MYSQL_BIND :=
  {| length_ptr := length_ptr b; is_null := is_null b; buffer := buffer b;
     buffer_length := buffer_length b; length_value := length_value b;
     buffer_type := buffer_type b; is_unsigned := v;
     is_null_value := is_null_value b |}.

Definition set_is_null_value (v : bool) (b : MYSQL_BIND) : MYSQL_BIND :=
  {| length_ptr := length_ptr b; is_null := is_null b; buffer := buffer b;
     buffer_length := buffer_length b; length_value := length_value b;
     buffer_type := buffer_type b; is_unsigned := is_unsigned b;
     is_null_value := v |}.

(** ** The C++ number types that have a [my_bind] specialisation *)

Inductive number_type : Type :=
  | uint8_t | int8_t | uint16_t | int16_t | uint32_t | int32_t
  | uint64_t | int64_t | float | double | bool_t.

(** The first template argument of [my_number_bind] and
    [my_optional_number_bind] in the specialisations of [my_bind]. *)
Definition mysql_type (T : number_type) : enum_field_types :=
  match T with
  | uint8_t | int8_t | bool_t => MYSQL_TYPE_TINY
  | uint16_t | int16_t => MYSQL_TYPE_SHORT
  | uint32_t | int32_t => MYSQL_TYPE_LONG
  | uint64_t | int64_t => MYSQL_TYPE_LONGLONG
  | float => MYSQL_TYPE_FLOAT
  | double => MYSQL_TYPE_DOUBLE
  end.

(** [std::is_unsigned<T>::value]. *)
Definition std_is_unsigned (T : number_type) : bool :=
  match T with
  | uint8_t | uint16_t | uint32_t | uint64_t | bool_t => true
  | int8_t | int16_t | int32_t | int64_t | float | double => false
  end.

(** ** Typed binders

    One constructor per family of [my_bind<T>]; [bind] is the index of the
    descriptor the binder points at, [data] the address of the bound
    variable.  [set_variable] always stores the address of a reference in
    [data], so [data] is never null and the [MYSQL_TYPE_NULL] branch of
    [my_bind<std::string>::pre_execute] is not reachable. *)

Inductive my_bind_base : Type :=
  | NumberBind (T : number_type) (bind : nat) (data : addr)
  | OptionalNumberBind (T : number_type) (bind : nat) (data : addr) (pdata : Z)
  | StringBind (bind : nat) (data : addr)
  | OptionalStringBind (bind : nat) (data : addr).

Definition bind (w : my_bind_base) : nat :=
  match w with
  | NumberBind _ b _ | OptionalNumberBind _ b _ _
  | StringBind b _ | OptionalStringBind b _ => b
  end.

Definition data (w : my_bind_base) : addr :=
  match w with
  | NumberBind _ _ d | OptionalNumberBind _ _ d _
  | StringBind _ d | OptionalStringBind _ d => d
  end.

Module my_number_bind.

Definition update (T : number_type) (data : addr) : MYSQL_BIND :=
  let bind := zero_bind in
  let bind := set_buffer (number_buffer data) bind in
  let bind := set_buffer_type (mysql_type T) bind in
  let bind := set_is_null_value false bind in
  let bind := set_is_unsigned (std_is_unsigned T) bind in
  bind.

Definition pre_execute := update.
Definition pre_fetch := update.

End my_number_bind.

Module my_optional_number_bind.

(** Returns the descriptor and the staging scalar [pdata]. *)
Definition pre_execute (T : number_type) (data : addr) (pdata : Z)
    (m : memory) : MYSQL_BIND * Z :=
  let bind := zero_bind in
  let pdata :=
    match mem_optional_number m data with
    | Some v => v
    | None => pdata
    end in
  let bind := set_buffer pdata_buffer bind in
  let bind := set_buffer_type (mysql_type T) bind in
  let bind := set_is_null_value (bool_decide (is_Some (mem_optional_number m data))) bind in
  let bind := set_is_unsigned (std_is_unsigned T) bind in
  (bind, pdata).

Definition pre_fetch (T : number_type) : MYSQL_BIND :=
  let bind := zero_bind in
  let bind := set_buffer pdata_buffer bind in
  let bind := set_buffer_type (mysql_type T) bind in
  let bind := set_is_unsigned (std_is_unsigned T) bind in
  let bind := set_is_null own_field bind in
  bind.

Definition post_fetch (data : addr) (pdata : Z) (bind : MYSQL_BIND)
    (m : memory) : bool * memory :=
  if is_null_value bind
  then (false, store_optional_number data None m)
  else (false, store_optional_number data (Some pdata) m).

End my_optional_number_bind.

Module my_bind_string.

Definition pre_execute (data : addr) (m : memory) : MYSQL_BIND :=
  let bind := zero_bind in
  let bind := set_buffer (string_buffer data) bind in
  let bind := set_buffer_length (length (mem_string m data)) bind in
  let bind := set_buffer_type MYSQL_TYPE_STRING bind in
  let bind := set_is_null_value false bind in
  let bind := set_length_value (length (mem_string m data)) bind in
  let bind := set_length_ptr own_field bind in
  let bind := set_is_null own_field bind in
  bind.

Definition pre_fetch (data : addr) (m : memory) : MYSQL_BIND * memory :=
  let bind := zero_bind in
  let bind := set_buffer_type MYSQL_TYPE_STRING bind in
  let m := store_string data (string_resize 1 (mem_string m data)) m in
  let bind := set_buffer (string_buffer data) bind in
  let bind := set_buffer_length (length (mem_string m data)) bind in
  let bind := set_is_null_value false bind in
  let bind := set_length_ptr own_field bind in
  let bind := set_is_null own_field bind in
  (bind, m).

Definition post_fetch (data : addr) (bind : MYSQL_BIND) (m : memory)
    : bool * MYSQL_BIND * memory :=
  if bool_decide (0 < length_value bind) then
    let m := store_string data (string_resize (length_value bind) (mem_string m data)) m in
    let bind := set_buffer (string_buffer data) bind in
    let bind := set_buffer_length (length (mem_string m data)) bind in
    (true, bind, m)
  else
    let m := store_string data [] m in
    (false, bind, m).

End my_bind_string.

Module my_bind_optional_string.

Definition pre_execute (data : addr) (m : memory) : MYSQL_BIND :=
  let bind := zero_bind in
  let bind :=
    match mem_optional_string m data with
    | Some value =>
        let bind := set_buffer (optional_string_buffer data) bind in
        let bind := set_buffer_length (length value) bind in
        let bind := set_buffer_type MYSQL_TYPE_STRING bind in
        let bind := set_is_null_value false bind in
        let bind := set_length_value (buffer_length bind) bind in
        bind
    | None =>
        set_is_null_value true bind
    end in
  let bind := set_length_ptr own_field bind in
  let bind := set_is_null own_field bind in
  bind.

Definition pre_fetch (data : addr) (m : memory) : MYSQL_BIND * memory :=
  let bind := zero_bind in
  let bind := set_buffer_type MYSQL_TYPE_STRING bind in
  let pdata := string_resize 1 [] in
  let m := store_optional_string data (Some pdata) m in
  let bind := set_buffer (optional_string_buffer data) bind in
  let bind := set_buffer_length (length pdata) bind in
  let bind := set_is_null_value false bind in
  let bind := set_length_ptr own_field bind in
  let bind := set_is_null own_field bind in
  (bind, m).

(** [data->value()] throws [bad_optional_access] on an empty optional. *)
Definition post_fetch (data : addr) (bind : MYSQL_BIND) (m : memory)
    : outcome (bool * MYSQL_BIND * memory) :=
  if is_null_value bind then
    Returns (false, bind, store_optional_string data None m)
  else
    match mem_optional_string m data with
    | None => Throws bad_optional_access
    | Some pdata =>
        if bool_decide (0 < length_value bind) then
          let pdata := string_resize (length_value bind) pdata in
          let bind := set_buffer (optional_string_buffer data) bind in
          let bind := set_buffer_length (length pdata) bind in
          Returns (true, bind, store_optional_string data (Some pdata) m)
        else
          Returns (false, bind, store_optional_string data (Some []) m)
    end.

End my_bind_optional_string.

(** ** Virtual dispatch

    The five hooks of [my_bind_base] as the dynamic type of the binder
    resolves them.  A hook receives the binder, the descriptor its [bind]
    points at and the application memory, and returns what it leaves of
    them.  [post_execute] and [post_refetch] are overridden nowhere;
    [post_fetch] is the base version for [my_number_bind]. *)

Module virtual.

Definition pre_execute (w : my_bind_base) (b : MYSQL_BIND) (m : memory)
    : outcome (unit * my_bind_base * MYSQL_BIND * memory) :=
  match w with
  | NumberBind T _ data =>
      Returns ((), w, my_number_bind.pre_execute T data, m)
  | OptionalNumberBind T i data pdata =>
      let '(b, pdata) := my_optional_number_bind.pre_execute T data pdata m in
      Returns ((), OptionalNumberBind T i data pdata, b, m)
  | StringBind _ data =>
      Returns ((), w, my_bind_string.pre_execute data m, m)
  | OptionalStringBind _ data =>
      Returns ((), w, my_bind_optional_string.pre_execute data m, m)
  end.

Definition post_execute (w : my_bind_base) (b : MYSQL_BIND) (m : memory)
    : outcome (unit * my_bind_base * MYSQL_BIND * memory) :=
  Returns ((), w, b, m).

Definition pre_fetch (w : my_bind_base) (b : MYSQL_BIND) (m : memory)
    : outcome (unit * my_bind_base * MYSQL_BIND * memory) :=
  match w with
  | NumberBind T _ data =>
      Returns ((), w, my_number_bind.pre_fetch T data, m)
  | OptionalNumberBind T _ _ _ =>
      Returns ((), w, my_optional_number_bind.pre_fetch T, m)
  | StringBind _ data =>
      let '(b, m) := my_bind_string.pre_fetch data m in
      Returns ((), w, b, m)
  | OptionalStringBind _ data =>
      let '(b, m) := my_bind_optional_string.pre_fetch data m in
      Returns ((), w, b, m)
  end.

Definition post_fetch (w : my_bind_base) (b : MYSQL_BIND) (m : memory)
    : outcome (bool * my_bind_base * MYSQL_BIND * memory) :=
  match w with
  | NumberBind _ _ _ =>
      Returns (false, w, b, m)
  | OptionalNumberBind _ _ data pdata =>
      let '(r, m) := my_optional_number_bind.post_fetch data pdata b m in
      Returns (r, w, b, m)
  | StringBind _ data =>
      let '(r, b, m) := my_bind_string.post_fetch data b m in
      Returns (r, w, b, m)
  | OptionalStringBind _ data =>
      '(r, b, m) ← my_bind_optional_string.post_fetch data b m;
      Returns (r, w, b, m)
  end.

Definition post_refetch (w : my_bind_base) (b : MYSQL_BIND) (m : memory)
    : outcome (unit * my_bind_base * MYSQL_BIND * memory) :=
  Returns ((), w, b, m).

End virtual.

(** A reference [T& arg] handed to [set_variable]: the static type [T]
    selects the specialisation of [my_bind]. *)
Inductive reference : Type :=
  | number_ref (T : number_type) (arg : addr)
  | optional_number_ref (T : number_type) (arg : addr)
  | string_ref (arg : addr)
  | optional_string_ref (arg : addr).

(** ** The bind set *)

Module mysql_bind_set.

Record t : Type := {
  _binds_mysql : list MYSQL_BIND;
  _wrappers : list (option my_bind_base)
}.

Definition mysql_bind_set (size : nat) : t :=
  {| _binds_mysql := replicate size zero_bind;
     _wrappers := replicate size None |}.


Definition size (bs : t) : nat := length (_wrappers bs).

(** [_wrappers[i]->hook()]: the call through slot [i], on the descriptor
    the binder's [bind] points at. *)
Definition call {R : Type}
    (hook : my_bind_base → MYSQL_BIND → memory →
            outcome (R * my_bind_base * MYSQL_BIND * memory))
    (i : nat) (bs : t) (m : memory) : outcome (R * t * memory) :=
  match _wrappers bs !! i with
  | None => Undefined
  | Some None => Undefined
  | Some (Some w) =>
      match _binds_mysql bs !! bind w with
      | None => Undefined
      | Some b =>
          '(r, w', b', m) ← hook w b m;
          Returns (r,
                   {| _binds_mysql := <[bind w := b']> (_binds_mysql bs);
                      _wrappers := <[i := Some w']> (_wrappers bs) |},
                   m)
      end
  end.

(** A loop over slot indices that ignores the hooks' results. *)
Fixpoint for_each
    (hook : my_bind_base → MYSQL_BIND → memory →
            outcome (unit * my_bind_base * MYSQL_BIND * memory))
    (items : list nat) (bs : t) (m : memory) : outcome (t * memory) :=
  match items with
  | [] => Returns (bs, m)
  | i :: items =>
      '(_, bs, m) ← call hook i bs m;
      for_each hook items bs m
  end.

Definition pre_execute (bs : t) (m : memory) : outcome (t * memory) :=
  for_each virtual.pre_execute (seq 0 (size bs)) bs m.

Definition post_execute (bs : t) (m : memory) : outcome (t * memory) :=
  for_each virtual.post_execute (seq 0 (size bs)) bs m.

Definition pre_fetch (bs : t) (m : memory) : outcome (t * memory) :=
  for_each virtual.pre_fetch (seq 0 (size bs)) bs m.

(** The loop of [post_fetch] from index [i] on, [res] being the indices
    pushed so far. *)
Fixpoint post_fetch_loop (items : list nat) (res : list nat) (bs : t)
    (m : memory) : outcome (list nat * t * memory) :=
  match items with
  | [] => Returns (res, bs, m)
  | i :: items =>
      '(r, bs, m) ← call virtual.post_fetch i bs m;
      post_fetch_loop items (if r : bool then res ++ [i] else res) bs m
  end.

Definition post_fetch (bs : t) (m : memory) : outcome (list nat * t * memory) :=
  post_fetch_loop (seq 0 (size bs)) [] bs m.

Definition post_refetch (items : list nat) (bs : t) (m : memory)
    : outcome (t * memory) :=
  for_each virtual.post_refetch items bs m.

(** [make_unique<my_bind<T>>()] followed by the two assignments of
    [set_variable]; [new T()] zero-initialises [pdata]. *)
Definition make_wrap (idx : nat) (arg : reference) : my_bind_base :=
  match arg with
  | number_ref T p => NumberBind T idx p
  | optional_number_ref T p => OptionalNumberBind T idx p 0%Z
  | string_ref p => StringBind idx p
  | optional_string_ref p => OptionalStringBind idx p
  end.

(** The bind set is returned in every case, so that what a failed call
    leaves behind can be stated. *)
Definition set_variable (idx : nat) (arg : reference) (bs : t)
    : outcome unit * t :=
  if bool_decide (size bs ≤ idx) then
    (Throws (out_of_range "Invalid binding index"), bs)
  else if bool_decide (length (_binds_mysql bs) ≤ idx) then
    (Undefined, bs)
  else
    (Returns (),
     {| _binds_mysql := _binds_mysql bs;
        _wrappers := <[idx := Some (make_wrap idx arg)]> (_wrappers bs) |}).

(** [bind_variables_impl(idx, arg1, args...)]; the pack is never empty in
    the source, an empty list binds nothing. *)
Fixpoint bind_variables_impl (idx : nat) (args : list reference) (bs : t)
    : outcome unit * t :=
  match args with
  | [] => (Returns (), bs)
  | arg :: args =>
      match set_variable idx arg bs with
      | (Returns _, bs) =>
          match args with
          | [] => (Returns (), bs)
          | _ :: _ => bind_variables_impl (idx + 1) args bs
          end
      | failed => failed
      end
  end.

Definition bind_variables (args : list reference) (bs : t) : outcome unit * t :=
  bind_variables_impl 0 args bs.

End mysql_bind_set.

(** ** The engine

    The client library is outside the sources; it is a parameter of the
    model.  [E] is whatever state the engine keeps (connection, statement,
    cursor).  A call that reads the bound buffers is given the bind set and
    the application memory; a call that writes through the descriptors
    returns them.  The staging scalars live in the binders, hence the whole
    bind set rather than the descriptor array alone. *)

Definition MYSQL_ptr := option nat.
Definition MYSQL_STMT_ptr := option nat.
Definition MYSQL_RES_ptr := option nat.

(** Modelled from the spec: the two row-fetch return codes of [mysql.h]
    other than success, "no more rows" and "truncated".  The source names
    the second only; of their values it uses that they are not zero. *)
Definition MYSQL_NO_DATA : Z := 100.
Definition MYSQL_DATA_TRUNCATED : Z := 101.

Record mysql_api (E : Type) : Type := {
  mysql_stmt_init : MYSQL_ptr → E → MYSQL_STMT_ptr * E;
  mysql_stmt_prepare : MYSQL_STMT_ptr → string → nat → E → Z * E;
  mysql_stmt_error : MYSQL_STMT_ptr → E → string;
  mysql_stmt_param_count : MYSQL_STMT_ptr → E → nat;
  mysql_stmt_result_metadata : MYSQL_STMT_ptr → E → MYSQL_RES_ptr * E;
  mysql_num_fields : MYSQL_RES_ptr → E → nat;
  mysql_free_result : MYSQL_RES_ptr → E → E;
  mysql_stmt_close : MYSQL_STMT_ptr → E → E;
  mysql_stmt_bind_param :
    MYSQL_STMT_ptr → mysql_bind_set.t → memory → E → bool * E;
  mysql_stmt_execute :
    MYSQL_STMT_ptr → mysql_bind_set.t → memory → E → Z * E;
  mysql_stmt_bind_result :
    MYSQL_STMT_ptr → mysql_bind_set.t → memory → E → bool * E;
  mysql_stmt_fetch :
    MYSQL_STMT_ptr → mysql_bind_set.t → memory → E →
    Z * mysql_bind_set.t * memory * E;
  (* statement, index of the descriptor in the array, column, offset *)
  mysql_stmt_fetch_column :
    MYSQL_STMT_ptr → nat → nat → nat → mysql_bind_set.t → memory → E →
    Z * mysql_bind_set.t * memory * E
}.

Arguments mysql_stmt_init {E} _.
Arguments mysql_stmt_prepare {E} _.
Arguments mysql_stmt_error {E} _.
Arguments mysql_stmt_param_count {E} _.
Arguments mysql_stmt_result_metadata {E} _.
Arguments mysql_num_fields {E} _.
Arguments mysql_free_result {E} _.
Arguments mysql_stmt_close {E} _.
Arguments mysql_stmt_bind_param {E} _.
Arguments mysql_stmt_execute {E} _.
Arguments mysql_stmt_bind_result {E} _.
Arguments mysql_stmt_fetch {E} _.
Arguments mysql_stmt_fetch_column {E} _.

(** The part of [connection] a statement uses.  The mutex is not a field
    here: where the operations of [prepared_stmt] acquire and release it
    is recorded by the operations of [locked]. *)
Record connection : Type := {
  my_conn : MYSQL_ptr
}.

(** [(unsigned int)i]. *)
Definition to_unsigned_int (i : nat) : nat :=
  Z.to_nat (Z.of_nat i mod 2 ^ 32)%Z.

(** ** The prepared statement *)

Module prepared_stmt.

Record t : Type := {
  con : connection;
  stmt : MYSQL_STMT_ptr;
  param_binds : mysql_bind_set.t;
  result_binds : mysql_bind_set.t
}.

Definition set_param_binds (v : mysql_bind_set.t) (s : t) : t :=
  {| con := con s; stmt := stmt s; param_binds := v;
     result_binds := result_binds s |}.

Definition set_result_binds (v : mysql_bind_set.t) (s : t) : t :=
  {| con := con s; stmt := stmt s; param_binds := param_binds s;
     result_binds := v |}.

Section with_engine.

Context {E : Type} (api : mysql_api E).

(** The constructor.  When it throws after [stmt] was initialised, the
    member [stmt] is destroyed and its deleter closes the handle. *)
Definition prepared_stmt (pcon : connection) (query : string) (e : E)
    : outcome t * E :=
  let '(stmt, e) := mysql_stmt_init api (my_conn pcon) e in
  match stmt with
  | None => (Throws bad_alloc, e)
  | Some _ =>
      let '(rc, e) := mysql_stmt_prepare api stmt query (String.length query) e in
      if bool_decide (rc ≠ 0%Z) then
        let what := ("Failed to prepare stmt: " ++ mysql_stmt_error api stmt e)%string in
        (Throws (runtime_error what), mysql_stmt_close api stmt e)
      else
        let param_count := mysql_stmt_param_count api stmt e in
        let param_binds := mysql_bind_set.mysql_bind_set param_count in
        let '(meta, e) := mysql_stmt_result_metadata api stmt e in
        match meta with
        | Some _ =>
            let result_count := mysql_num_fields api meta e in
            let result_binds := mysql_bind_set.mysql_bind_set result_count in
            (Returns {| con := pcon; stmt := stmt; param_binds := param_binds;
                        result_binds := result_binds |},
             mysql_free_result api meta e)
        | None =>
            (Returns {| con := pcon; stmt := stmt; param_binds := param_binds;
                        result_binds := mysql_bind_set.mysql_bind_set 0 |},
             e)
        end
  end.

Definition execute (s : t) (m : memory) (e : E)
    : outcome (bool * t * memory * E) :=
  '(pb, m) ← mysql_bind_set.pre_execute (param_binds s) m;
  let s := set_param_binds pb s in
  let '(failed, e) := mysql_stmt_bind_param api (stmt s) (param_binds s) m e in
  if failed : bool then Returns (false, s, m, e) else
  let '(rc, e) := mysql_stmt_execute api (stmt s) (param_binds s) m e in
  if bool_decide (rc ≠ 0%Z) then Returns (false, s, m, e) else
  '(pb, m) ← mysql_bind_set.post_execute (param_binds s) m;
  Returns (true, set_param_binds pb s, m, e).

Definition bind_param (args : list reference) (s : t) : outcome unit * t :=
  let '(r, pb) := mysql_bind_set.bind_variables args (param_binds s) in
  (r, set_param_binds pb s).

Definition bind_result (args : list reference) (s : t) : outcome unit * t :=
  let '(r, rb) := mysql_bind_set.bind_variables args (result_binds s) in
  (r, set_result_binds rb s).

(** The loop of [fetch] over the refetch indices: it stops at the first
    call that fails, and says whether it ran to the end. *)
Fixpoint fetch_columns (stmt : MYSQL_STMT_ptr) (refetch : list nat)
    (rb : mysql_bind_set.t) (m : memory) (e : E)
    : bool * mysql_bind_set.t * memory * E :=
  match refetch with
  | [] => (true, rb, m, e)
  | i :: refetch =>
      let '(rc, rb, m, e) :=
        mysql_stmt_fetch_column api stmt i (to_unsigned_int i) 0 rb m e in
      if bool_decide (rc ≠ 0%Z) then (false, rb, m, e)
      else fetch_columns stmt refetch rb m e
  end.

Definition fetch (s : t) (m : memory) (e : E)
    : outcome (bool * t * memory * E) :=
  '(rb, m) ← mysql_bind_set.pre_fetch (result_binds s) m;
  let s := set_result_binds rb s in
  let '(failed, e) := mysql_stmt_bind_result api (stmt s) (result_binds s) m e in
  if failed : bool then Returns (false, s, m, e) else
  let '(rc, rb, m, e) := mysql_stmt_fetch api (stmt s) (result_binds s) m e in
  let s := set_result_binds rb s in
  if bool_decide (rc = MYSQL_DATA_TRUNCATED) || bool_decide (rc = 0%Z) then
    '(refetch, rb, m) ← mysql_bind_set.post_fetch (result_binds s) m;
    let s := set_result_binds rb s in
    let '(ok, rb, m, e) := fetch_columns (stmt s) refetch (result_binds s) m e in
    let s := set_result_binds rb s in
    if ok : bool then
      '(rb, m) ← mysql_bind_set.post_refetch refetch (result_binds s) m;
      Returns (true, set_result_binds rb s, m, e)
    else Returns (false, s, m, e)
  else Returns (false, s, m, e).

End with_engine.

End prepared_stmt.

(** ** Invariants of a bind set *)

(** The two vectors have one length, and the binder in slot [i] points at
    descriptor [i], as [set_variable] installs it. *)
Definition bind_set_wf (bs : mysql_bind_set.t) : Prop :=
  length (mysql_bind_set._binds_mysql bs) = mysql_bind_set.size bs ∧
  ∀ i w, mysql_bind_set._wrappers bs !! i = Some (Some w) → bind w = i.

(** Every slot holds a binder. *)
Definition all_bound (bs : mysql_bind_set.t) : Prop :=
  Forall is_Some (mysql_bind_set._wrappers bs).

#[global] Instance all_bound_dec bs : Decision (all_bound bs).
Proof. unfold all_bound. apply _. Defined.

(** Slot [i] exists and was never bound: its [unique_ptr] is null. *)
Definition unbound (i : nat) (bs : mysql_bind_set.t) : Prop :=
  mysql_bind_set._wrappers bs !! i = Some None.

(** A hook that always returns, and a hook that leaves [bind] alone. *)
Definition hook_total {R : Type}
    (hook : my_bind_base → MYSQL_BIND → memory →
            outcome (R * my_bind_base * MYSQL_BIND * memory)) : Prop :=
  ∀ w b m, ∃ r w' b' m', hook w b m = Returns (r, w', b', m').

Definition hook_keeps_bind {R : Type}
    (hook : my_bind_base → MYSQL_BIND → memory →
            outcome (R * my_bind_base * MYSQL_BIND * memory)) : Prop :=
  ∀ w b m r w' b' m', hook w b m = Returns (r, w', b', m') → bind w' = bind w.


(** ** Concrete inputs used by the examples *)

Definition empty_memory : memory :=
  {| mem_number := λ _, 0%Z;
     mem_optional_number := λ _, None;
     mem_string := λ _, [];
     mem_optional_string := λ _, None |}.

(** An [optional<int32_t>] holding 42 at address 0. *)
Definition memory_with_42 : memory :=
  store_optional_number 0 (Some 42%Z) empty_memory.

(** The descriptor of a string slot after [pre_fetch], on which the engine
    has reported a value of one byte. *)
Definition one_byte_report : MYSQL_BIND :=
  set_length_value 1 (my_bind_string.pre_fetch 0 empty_memory).1.

Definition memory_after_pre_fetch : memory :=
  (my_bind_string.pre_fetch 0 empty_memory).2.

(** A scripted engine: every call that can fail takes its return code from
    the head of [codes] (success once the script is used up); a row fetch
    reports [lengths] as the lengths of the columns, through the [length]
    pointer of each descriptor that has one. *)
Module script.

Record t : Type := {
  codes : list Z;
  message : string;
  params : nat;
  columns : option nat;
  lengths : list nat
}.

Definition next (e : t) : Z * t :=
  (hd 0%Z (codes e),
   {| codes := tl (codes e); message := message e; params := params e;
      columns := columns e; lengths := lengths e |}).

Definition report (lens : list nat) (bs : mysql_bind_set.t) : mysql_bind_set.t :=
  {| mysql_bind_set._binds_mysql :=
       imap (λ i b,
               match length_ptr b with
               | own_field => set_length_value (nth i lens 0) b
               | nullptr => b
               end) (mysql_bind_set._binds_mysql bs);
     mysql_bind_set._wrappers := mysql_bind_set._wrappers bs |}.

Definition api : mysql_api t :=
  {| mysql_stmt_init := λ _ e,
       let '(c, e) := next e in (if bool_decide (c = 0%Z) then Some 1 else None, e);
     mysql_stmt_prepare := λ _ _ _ e, next e;
     mysql_stmt_error := λ _ e, message e;
     mysql_stmt_param_count := λ _ e, params e;
     mysql_stmt_result_metadata := λ _ e, (columns e ≫= λ _, Some 2, e);
     mysql_num_fields := λ _ e, default 0 (columns e);
     mysql_free_result := λ _ e, e;
     mysql_stmt_close := λ _ e, e;
     mysql_stmt_bind_param := λ _ _ _ e,
       let '(c, e) := next e in (bool_decide (c ≠ 0%Z), e);
     mysql_stmt_execute := λ _ _ _ e, next e;
     mysql_stmt_bind_result := λ _ _ _ e,
       let '(c, e) := next e in (bool_decide (c ≠ 0%Z), e);
     mysql_stmt_fetch := λ _ bs m e,
       let '(c, e) := next e in (c, report (lengths e) bs, m, e);
     mysql_stmt_fetch_column := λ _ _ _ _ bs m e,
       let '(c, e) := next e in (c, bs, m, e) |}.

End script.

Definition demo_connection : connection := {| my_conn := Some 0 |}.

(** One parameter and two result columns; every call succeeds, except that
    the row fetch reports truncation; the first column is five bytes long. *)
Definition demo_script : script.t :=
  {| script.codes := [0; 0; 0; 0; 0; MYSQL_DATA_TRUNCATED]%Z;
     script.message := "";
     script.params := 1;
     script.columns := Some 2;
     script.lengths := [5; 0] |}.

(** An engine that rejects the statement text. *)
Definition rejecting_script : script.t :=
  {| script.codes := [0; 1]%Z;
     script.message := "You have an error in your SQL syntax";
     script.params := 0;
     script.columns := None;
     script.lengths := [] |}.

(** The statement [demo_script] prepares, with an [optional<int32_t>]
    parameter at address 0 and, as results, a string at address 0 and an
    [optional<int32_t>] at address 1. *)
Definition demo_stmt : prepared_stmt.t :=
  match (prepared_stmt.prepared_stmt script.api demo_connection "SELECT" demo_script).1 with
  | Returns s =>
      let s := (prepared_stmt.bind_param [optional_number_ref int32_t 0] s).2 in
      (prepared_stmt.bind_result [string_ref 0; optional_number_ref int32_t 1] s).2
  | _ =>
      {| prepared_stmt.con := demo_connection; prepared_stmt.stmt := None;
         prepared_stmt.param_binds := mysql_bind_set.mysql_bind_set 0;
         prepared_stmt.result_binds := mysql_bind_set.mysql_bind_set 0 |}
  end.

(** The engine state after [demo_script] has prepared [demo_stmt]. *)
Definition demo_engine : script.t :=
  (prepared_stmt.prepared_stmt script.api demo_connection "SELECT" demo_script).2.

(** The result set of [demo_stmt] and the memory after [pre_fetch]. *)
Definition demo_after_pre_fetch : mysql_bind_set.t * memory :=
  match mysql_bind_set.pre_fetch (prepared_stmt.result_binds demo_stmt) empty_memory with
  | Returns r => r
  | _ => (mysql_bind_set.mysql_bind_set 0, empty_memory)
  end.


(** The engine past the last row. *)
Definition end_of_rows_script : script.t :=
  {| script.codes := [0; MYSQL_NO_DATA]%Z;
     script.message := "";
     script.params := 1;
     script.columns := Some 2;
     script.lengths := [] |}.

(** ** Predicates on slots *)

(** What [post_fetch] of a slot answers, read off the descriptor the engine
    has filled: only a string slot, or a nullable string slot that is not
    null, with a positive reported length asks for a refetch. *)
Definition reports_data (w : my_bind_base) (b : MYSQL_BIND) : bool :=
  match w with
  | NumberBind _ _ _ | OptionalNumberBind _ _ _ _ => false
  | StringBind _ _ => bool_decide (0 < length_value b)
  | OptionalStringBind _ _ =>
      negb (is_null_value b) && bool_decide (0 < length_value b)
  end.

(** Slot [i] of a bind set asks for a refetch. *)
Definition flagged (bs : mysql_bind_set.t) (i : nat) : bool :=
  match mysql_bind_set._wrappers bs !! i, mysql_bind_set._binds_mysql bs !! i with
  | Some (Some w), Some b => reports_data w b
  | _, _ => false
  end.

(** The descriptor points at the storage of the bound variable, and for a
    string its buffer length is the size of that string: the engine is
    never told of more room than the string has. *)
Definition buffer_fits (w : my_bind_base) (b : MYSQL_BIND) (m : memory) : Prop :=
  match w with
  | NumberBind _ _ p => buffer b = number_buffer p
  | OptionalNumberBind _ _ _ _ => buffer b = pdata_buffer
  | StringBind _ p =>
      buffer b = string_buffer p ∧ buffer_length b = length (mem_string m p)
  | OptionalStringBind _ p =>
      buffer b = optional_string_buffer p ∧
      ∃ s, mem_optional_string m p = Some s ∧ buffer_length b = length s
  end.

(** The state of a slot between [pre_fetch] and the engine's row fetch:
    the buffer fits, and a string slot offers the engine one byte. *)
Definition provisional (w : my_bind_base) (b : MYSQL_BIND) (m : memory) : Prop :=
  buffer_fits w b m ∧
  match w with
  | StringBind _ _ | OptionalStringBind _ _ => buffer_length b = 1
  | NumberBind _ _ _ | OptionalNumberBind _ _ _ _ => buffer_length b = 0
  end.

(** Two binders write the same string: both are string binders, or both
    nullable string binders, of one variable. *)
Definition same_storage (w1 w2 : my_bind_base) : Prop :=
  match w1, w2 with
  | StringBind _ p, StringBind _ q => p = q
  | OptionalStringBind _ p, OptionalStringBind _ q => p = q
  | _, _ => False
  end.

(** No string variable is bound to two slots of the set. *)
Definition unaliased (bs : mysql_bind_set.t) : Prop :=
  ∀ i j wi wj,
    i ≠ j →
    mysql_bind_set._wrappers bs !! i = Some (Some wi) →
    mysql_bind_set._wrappers bs !! j = Some (Some wj) →
    ¬ same_storage wi wj.

(** One string bound to both result columns, on which the engine has
    reported five bytes for the first column and two for the second. *)
Definition aliased_set : mysql_bind_set.t :=
  {| mysql_bind_set._binds_mysql :=
       [set_length_value 5 (my_bind_string.pre_fetch 0 empty_memory).1;
        set_length_value 2 (my_bind_string.pre_fetch 0 empty_memory).1];
     mysql_bind_set._wrappers := [Some (StringBind 0 0); Some (StringBind 1 0)] |}.

(** The result set of [demo_stmt] after [pre_fetch], on which the engine
    has reported five bytes for the string column. *)
Definition reported_set : mysql_bind_set.t :=
  script.report [5; 0] demo_after_pre_fetch.1.

(** The statement [demo_script] prepares, before anything is bound. *)
Definition demo_stmt_unbound : prepared_stmt.t :=
  match (prepared_stmt.prepared_stmt script.api demo_connection "SELECT" demo_script).1 with
  | Returns s => s
  | _ => demo_stmt
  end.

(** ** [format_string_vargs]

    [vsnprintf] belongs to the C library and is a parameter: the call
    numbered [k], made with a buffer of [size] bytes, returns an [int] and
    leaves a C string in the buffer.  The source hands the same [va_list]
    to every call; what a later call then formats is left to the
    parameter.  The loop has no bound of its own, so the model takes
    fuel. *)

Definition INT_MAX : Z := 2 ^ 31 - 1.

(** [(int)size] of a [size_t]. *)
Definition size_to_int (size : Z) : Z := ((size + 2 ^ 31) mod 2 ^ 32 - 2 ^ 31)%Z.

Module format.

Section with_vsnprintf.

Variable vsnprintf : nat → Z → Z * list byte.

(** [None] when the fuel runs out.  [needed + 1] overflows an [int] when
    [needed] is [INT_MAX]; [size * 2] wraps as a [size_t]. *)
Fixpoint format_string_vargs_loop (fuel call : nat) (size : Z)
    : option (outcome (list byte)) :=
  match fuel with
  | 0 => None
  | S fuel =>
      let '(needed, buf) := vsnprintf call size in
      if bool_decide (needed ≤ size_to_int size)%Z && bool_decide (0 ≤ needed)%Z
      then Some (Returns buf)
      else if bool_decide (0 < needed)%Z then
        if bool_decide (needed = INT_MAX) then Some Undefined
        else format_string_vargs_loop fuel (S call) (needed + 1)%Z
      else format_string_vargs_loop fuel (S call) ((size * 2) mod 2 ^ 64)%Z
  end.

Definition format_string_vargs (fuel : nat) : option (outcome (list byte)) :=
  format_string_vargs_loop fuel 0 256%Z.

End with_vsnprintf.

End format.

(** A [vsnprintf] that formats [text] at every call, as C99 has it: it
    returns the length of the whole text and leaves as much of it as the
    buffer holds beside the terminating NUL. *)
Definition c99_vsnprintf (text : list byte) (call : nat) (size : Z) : Z * list byte :=
  (Z.of_nat (length text), take (Z.to_nat size - 1) text).

(** ** The text protocol

    The calls of the client library that [connection], [results] and the
    row iterator make, again as a parameter over an engine state [E]. *)

(** A fetched row, [MYSQL_ROW]: null, or an array with one C string or
    null per field. *)
Definition MYSQL_ROW := option (list (option (list byte))).

Inductive mysql_option : Type :=
  | MYSQL_OPT_RECONNECT (b : bool)
  | MYSQL_SET_CHARSET_NAME (name : string)
  | MYSQL_INIT_COMMAND (command : string)
  | MYSQL_OPT_CONNECT_TIMEOUT (timeout : Z).

Module text.

Record api (E : Type) : Type := {
  mysql_init : E → MYSQL_ptr * E;
  mysql_options : MYSQL_ptr → mysql_option → E → E;
  mysql_real_connect :
    MYSQL_ptr → string → string → string → string → Z → E → MYSQL_ptr * E;
  mysql_close : MYSQL_ptr → E → E;
  mysql_ping : MYSQL_ptr → E → Z * E;
  mysql_real_query : MYSQL_ptr → string → nat → E → Z * E;
  mysql_store_result : MYSQL_ptr → E → MYSQL_RES_ptr * E;
  mysql_errno : MYSQL_ptr → E → nat;
  mysql_error : MYSQL_ptr → E → string;
  mysql_num_rows : MYSQL_RES_ptr → E → Z;
  mysql_num_fields : MYSQL_RES_ptr → E → nat;
  mysql_data_seek : MYSQL_RES_ptr → Z → E → E;
  mysql_fetch_row : MYSQL_RES_ptr → E → MYSQL_ROW * E;
  mysql_free_result : MYSQL_RES_ptr → E → E
}.

Arguments mysql_init {E} _.
Arguments mysql_options {E} _.
Arguments mysql_real_connect {E} _.
Arguments mysql_close {E} _.
Arguments mysql_ping {E} _.
Arguments mysql_real_query {E} _.
Arguments mysql_store_result {E} _.
Arguments mysql_errno {E} _.
Arguments mysql_error {E} _.
Arguments mysql_num_rows {E} _.
Arguments mysql_num_fields {E} _.
Arguments mysql_data_seek {E} _.
Arguments mysql_fetch_row {E} _.
Arguments mysql_free_result {E} _.

End text.

(** The conversions of the C++ library that [get_value] calls.  Each
    returns [None] where the function throws ([std::invalid_argument],
    [std::out_of_range]); [get_value] catches whatever they throw. *)
Record std_conversions : Type := {
  stoi : list byte → option Z;
  stol : list byte → option Z;
  stoll : list byte → option Z;
  stoul : list byte → option Z;
  stoull : list byte → option Z
}.

(** A data member that a constructor may leave without a value; reading an
    indeterminate pointer is undefined. *)
Inductive member (A : Type) : Type :=
  | initialised (a : A)
  | indeterminate.

Arguments initialised {A} a.
Arguments indeterminate {A}.

Definition read {A : Type} (x : member A) : outcome A :=
  match x with
  | initialised a => Returns a
  | indeterminate => Undefined
  end.

(** ** [results] *)

Module results.

Record t : Type := {
  my_conn : member MYSQL_ptr;
  res : member MYSQL_RES_ptr;
  error_no : nat;
  error_msg : string;
  row : MYSQL_ROW;
  started : bool
}.

Definition set_cursor (r : MYSQL_ROW) (b : bool) (st : t) : t :=
  {| my_conn := my_conn st; res := res st; error_no := error_no st;
     error_msg := error_msg st; row := r; started := b |}.

(** The constructor of [results] from a connection handle and a result
    set. *)
Definition of_result (c : MYSQL_ptr) (r : MYSQL_RES_ptr) : t :=
  {| my_conn := initialised c; res := initialised r; error_no := 0;
     error_msg := ""; row := None; started := false |}.

(** The constructor of [results] from an error number and an error
    message: its initialiser list names
    [error_no] and [error_msg] only, and [my_conn] and [res] have no
    default member initialiser. *)
Definition of_error (n : nat) (msg : string) : t :=
  {| my_conn := indeterminate; res := indeterminate; error_no := n;
     error_msg := msg; row := None; started := false |}.

(** The variables [get_value] is overloaded for, with their content; the
    floating-point and [datetime] overloads are left out. *)
Inductive scalar : Type :=
  | var_bool (v : bool)
  | var_int (v : Z)
  | var_unsigned_int (v : Z)
  | var_long (v : Z)
  | var_unsigned_long (v : Z)
  | var_long_long (v : Z)
  | var_unsigned_long_long (v : Z)
  | var_string (v : list byte).

(** A plain variable, or an [optional<Value>]; [fresh] is the local
    [Value v] of the optional overload before the inner call. *)
Inductive variable : Type :=
  | plain (v : scalar)
  | optional (fresh : scalar) (v : option scalar).

Section with_engine.

Context {E : Type} (api : text.api E) (std : std_conversions).

Definition error_code (st : t) : nat := error_no st.

Definition error_message (st : t) : string := error_msg st.

Definition operator_bool (st : t) : outcome bool :=
  c ← read (my_conn st);
  Returns (bool_decide (c ≠ None)).

Definition count (st : t) (e : E) : outcome Z :=
  r ← read (res st);
  Returns (match r with None => 0%Z | Some _ => text.mysql_num_rows api r e end).

Definition fields (st : t) (e : E) : outcome nat :=
  r ← read (res st);
  Returns (match r with None => 0 | Some _ => text.mysql_num_fields api r e end).

Definition is_empty (st : t) (e : E) : outcome bool :=
  n ← count st e;
  Returns (bool_decide (n = 0%Z)).

(** The destructor. *)
Definition destroy (st : t) (e : E) : outcome E :=
  r ← read (res st);
  Returns (match r with None => e | Some _ => text.mysql_free_result api r e end).

Definition seek (n : Z) (st : t) (e : E) : outcome (bool * t * E) :=
  r ← read (res st);
  match r with
  | None => Returns (false, st, e)
  | Some _ =>
      let e := text.mysql_data_seek api r n e in
      let '(fetched, e) := text.mysql_fetch_row api r e in
      Returns (bool_decide (fetched ≠ None), set_cursor fetched true st, e)
  end.

Definition reset (st : t) (e : E) : outcome (bool * t * E) := seek 0 st e.

(** [if (!started) reset();] *)
Definition start (st : t) (e : E) : outcome (t * E) :=
  if started st then Returns (st, e)
  else ('(_, st, e) ← reset st e; Returns (st, e)).

Definition eof (st : t) (e : E) : outcome (bool * t * E) :=
  r ← read (res st);
  match r with
  | None => Returns (true, st, e)
  | Some _ =>
      '(st, e) ← start st e;
      Returns (bool_decide (row st = None), st, e)
  end.

Definition next (st : t) (e : E) : outcome (bool * t * E) :=
  r ← read (res st);
  let '(fetched, e) := text.mysql_fetch_row api r e in
  Returns (bool_decide (fetched ≠ None), set_cursor fetched (started st) st, e).

(** The conversion in the [try] block of the overload for each variable;
    [None] is the [catch]. *)
Definition convert (v : scalar) (field : list byte) : option scalar :=
  match v with
  | var_bool _ => n ← stoi std field; Some (var_bool (bool_decide (n ≠ 0%Z)))
  | var_int _ => n ← stoi std field; Some (var_int n)
  | var_unsigned_int _ => n ← stoul std field; Some (var_unsigned_int (n mod 2 ^ 32))
  | var_long _ => n ← stol std field; Some (var_long n)
  | var_unsigned_long _ => n ← stoul std field; Some (var_unsigned_long n)
  | var_long_long _ => n ← stoll std field; Some (var_long_long n)
  | var_unsigned_long_long _ => n ← stoull std field; Some (var_unsigned_long_long n)
  | var_string _ => Some (var_string field)
  end.

(** [bool get_value(int i, T& value)]; [row[i]] has no bounds check. *)
Definition get_value (i : Z) (value : scalar) (st : t) (e : E)
    : outcome (bool * scalar * t * E) :=
  '(st, e) ← start st e;
  match row st with
  | None => Returns (false, value, st, e)
  | Some fields =>
      if bool_decide (i < 0)%Z then Undefined else
      match fields !! Z.to_nat i with
      | None => Undefined
      | Some None => Returns (false, value, st, e)
      | Some (Some field) =>
          match convert value field with
          | Some v => Returns (true, v, st, e)
          | None => Returns (false, value, st, e)
          end
      end
  end.

(** [void get_value(int i, optional<Value>& value)]. *)
Definition get_value_optional (i : Z) (fresh : scalar) (value : option scalar)
    (st : t) (e : E) : outcome (option scalar * t * E) :=
  '(ok, v, st, e) ← get_value i fresh st e;
  Returns (if ok : bool then Some v else value, st, e).

(** [fetch_impl(i, value, values...)]. *)
Fixpoint fetch_impl (i : Z) (values : list variable) (st : t) (e : E)
    : outcome (list variable * t * E) :=
  match values with
  | [] => Returns ([], st, e)
  | plain v :: values =>
      '(_, v, st, e) ← get_value i v st e;
      '(values, st, e) ← fetch_impl (i + 1) values st e;
      Returns (plain v :: values, st, e)
  | optional fresh v :: values =>
      '(v, st, e) ← get_value_optional i fresh v st e;
      '(values, st, e) ← fetch_impl (i + 1) values st e;
      Returns (optional fresh v :: values, st, e)
  end.

(** [bool fetch(Values&... values)]. *)
Definition fetch (values : list variable) (st : t) (e : E)
    : outcome (bool * list variable * t * E) :=
  '(st, e) ← start st e;
  match row st with
  | None => Returns (false, values, st, e)
  | Some _ =>
      '(values, st, e) ← fetch_impl 0 values st e;
      Returns (true, values, st, e)
  end.




(** The move constructor: the new object and what is left of [r].  The
    new object takes [row] and [started] from their default member
    initialisers; those of [r] are left as they are. *)
Definition move_construct (r : t) : outcome (t * t) :=
  c ← read (my_conn r);
  rs ← read (res r);
  Returns ({| my_conn := initialised c; res := initialised rs;
              error_no := error_no r; error_msg := error_msg r;
              row := None; started := false |},
           {| my_conn := initialised None; res := initialised None;
              error_no := 0; error_msg := "";
              row := row r; started := started r |}).

(** The move assignment [target = std::move(r)], for two distinct
    objects. *)
Definition move_assign (target r : t) (e : E) : outcome (t * t * E) :=
  old ← read (res target);
  let e := match old with
           | None => e
           | Some _ => text.mysql_free_result api old e
           end in
  c ← read (my_conn r);
  rs ← read (res r);
  Returns ({| my_conn := initialised c; res := initialised rs;
              error_no := error_no r; error_msg := error_msg r;
              row := row r; started := started r |},
           {| my_conn := initialised None; res := initialised None;
              error_no := 0; error_msg := ""; row := None; started := false |},
           e).

(** What the call of [get_value] for variable [k] of a parameter pack
    does, on a row that is positioned. *)
Definition assigned (k : Z) (var var' : variable) (st : t) (e : E) : Prop :=
  match var with
  | plain v =>
      ∃ ok v', get_value k v st e = Returns (ok, v', st, e) ∧
               var' = plain v'
  | optional fresh v =>
      ∃ v', get_value_optional k fresh v st e = Returns (v', st, e) ∧
            var' = optional fresh v'
  end.

End with_engine.

End results.

(** ** [connection] *)

Record connect_options : Type := {
  server : string;
  username : string;
  password : string;
  dbname : string;
  timeout : Z;
  autoreconnect : bool;
  init_command : string;
  charset : string;
  port : Z
}.

(** [std::string::empty]. *)
Definition empty (s : string) : bool :=
  match s with
  | EmptyString => true
  | String _ _ => false
  end.

(** The member functions of [connection]; its mutex is not modelled. *)
Module conn.

Section with_engine.

Context {E : Type} (api : text.api E).

Definition close (c : connection) (e : E) : connection * E :=
  match my_conn c with
  | Some _ => ({| my_conn := None |}, text.mysql_close api (my_conn c) e)
  | None => (c, e)
  end.

Definition is_open (c : connection) (e : E) : bool * E :=
  match my_conn c with
  | None => (false, e)
  | Some _ =>
      let '(rc, e) := text.mysql_ping api (my_conn c) e in
      (bool_decide (rc = 0%Z), e)
  end.

Definition open (options : connect_options) (c : connection) (e : E)
    : bool * connection * E :=
  let '(alive, e) := is_open c e in
  let '(c, e) := if alive : bool then close c e else (c, e) in
  let '(h, e) := text.mysql_init api e in
  match h with
  | None => (false, {| my_conn := None |}, e)
  | Some _ =>
      let e :=
        if autoreconnect options
        then text.mysql_options api h (MYSQL_OPT_RECONNECT (autoreconnect options)) e
        else e in
      let e :=
        if negb (empty (charset options))
        then text.mysql_options api h (MYSQL_SET_CHARSET_NAME (charset options)) e
        else e in
      let e :=
        if negb (empty (init_command options))
        then text.mysql_options api h (MYSQL_INIT_COMMAND (init_command options)) e
        else e in
      let e :=
        if bool_decide (0 < timeout options)%Z
        then text.mysql_options api h (MYSQL_OPT_CONNECT_TIMEOUT (timeout options)) e
        else e in
      let '(connected, e) :=
        text.mysql_real_connect api h (server options) (username options)
          (password options) (dbname options) (port options) e in
      match connected with
      | None => (false, {| my_conn := None |}, text.mysql_close api h e)
      | Some _ => (true, {| my_conn := h |}, e)
      end
  end.

Definition error_code (c : connection) (e : E) : nat :=
  text.mysql_errno api (my_conn c) e.

Definition error_message (c : connection) (e : E) : string :=
  text.mysql_error api (my_conn c) e.

Definition query (query_str : string) (c : connection) (e : E) : results.t * E :=
  let '(ret, e) :=
    text.mysql_real_query api (my_conn c) query_str (String.length query_str) e in
  if bool_decide (ret ≠ 0%Z) then
    let error_no := text.mysql_errno api (my_conn c) e in
    let error_msg := text.mysql_error api (my_conn c) e in
    (results.of_error error_no error_msg, e)
  else
    let '(r, e) := text.mysql_store_result api (my_conn c) e in
    (results.of_result (my_conn c) r, e).

Definition exec (query_str : string) (c : connection) (e : E) : bool * E :=
  let '(ret, e) :=
    text.mysql_real_query api (my_conn c) query_str (String.length query_str) e in
  (bool_decide (ret = 0%Z), e).

End with_engine.

End conn.

(** ** The row iterator

    [row_index] is an [unsigned long long] and wraps; [res] names the
    [results] object the iterator points at, whose state the functions that
    use it take and return. *)

Definition ULLONG_WRAP : Z := 2 ^ 64.

Module result_iterator.

Record t : Type := {
  res : option nat;
  data : option (list results.variable);
  row_index : Z
}.

(** The default constructor, and the one from a pointer and an index. *)
Definition default : t := {| res := None; data := None; row_index := 0 |}.

Definition result_iterator (_res : option nat) (_row_index : Z) : t :=
  {| res := _res; data := None; row_index := _row_index |}.

Definition set_index (i : Z) (it : t) : t :=
  {| res := res it; data := None; row_index := i |}.

(** [++it], [--it], [it += n], [it -= n]; an [int n] is converted to
    [unsigned long long] by the addition. *)
Definition pre_increment (it : t) : t :=
  set_index ((row_index it + 1) mod ULLONG_WRAP) it.

Definition pre_decrement (it : t) : t :=
  set_index ((row_index it - 1) mod ULLONG_WRAP) it.

Definition add_assign (n : Z) (it : t) : t :=
  set_index ((row_index it + n) mod ULLONG_WRAP) it.

Definition sub_assign (n : Z) (it : t) : t :=
  set_index ((row_index it - n) mod ULLONG_WRAP) it.

(** [it++], [it--]: the copy that is returned, and the iterator after. *)
Definition post_increment (it : t) : t * t := (it, pre_increment it).

Definition post_decrement (it : t) : t * t := (it, pre_decrement it).

(** [it + n], [it - n]. *)
Definition plus (n : Z) (it : t) : t :=
  result_iterator (res it) ((row_index it + n) mod ULLONG_WRAP).

Definition minus (n : Z) (it : t) : t :=
  result_iterator (res it) ((row_index it - n) mod ULLONG_WRAP).

Definition operator_eq (a b : t) : bool := bool_decide (row_index a = row_index b).
Definition operator_ne (a b : t) : bool := bool_decide (row_index a ≠ row_index b).
Definition operator_gt (a b : t) : bool := bool_decide (row_index a > row_index b)%Z.
Definition operator_lt (a b : t) : bool := bool_decide (row_index a < row_index b)%Z.
Definition operator_ge (a b : t) : bool := bool_decide (row_index a >= row_index b)%Z.
Definition operator_le (a b : t) : bool := bool_decide (row_index a <= row_index b)%Z.

Section with_engine.

Context {E : Type} (api : text.api E) (std : std_conversions).

(** [get_value] of the pointed-at [results] on element [k] of the tuple
    [data] points at. *)
Definition get_element (k : nat) (tuple : list results.variable)
    (st : results.t) (e : E) : outcome (list results.variable * results.t * E) :=
  match tuple !! k with
  | None => Undefined
  | Some (results.plain v) =>
      '(_, v, st, e) ← results.get_value api std (Z.of_nat k) v st e;
      Returns (<[k := results.plain v]> tuple, st, e)
  | Some (results.optional fresh v) =>
      '(v, st, e) ← results.get_value_optional api std (Z.of_nat k) fresh v st e;
      Returns (<[k := results.optional fresh v]> tuple, st, e)
  end.

(** [fetch_impl<k>]: element [k] first, then down to element 0. *)
Fixpoint fetch_impl (k : nat) (tuple : list results.variable)
    (st : results.t) (e : E) : outcome (list results.variable * results.t * E) :=
  '(tuple, st, e) ← get_element k tuple st e;
  match k with
  | 0 => Returns (tuple, st, e)
  | S k => fetch_impl k tuple st e
  end.

(** [fetch()]; [fresh] is the value-initialised tuple of
    [make_shared<tuple<Values...>>()], which has at least one element. *)
Definition fetch (fresh : list results.variable) (it : t) (st : results.t) (e : E)
    : outcome (t * results.t * E) :=
  match res it with
  | None => Undefined
  | Some _ =>
      '(_, st, e) ← results.seek api (row_index it) st e;
      '(tuple, st, e) ← fetch_impl (length fresh - 1) fresh st e;
      Returns ({| res := res it; data := Some tuple; row_index := row_index it |},
               st, e)
  end.

(** The dereference operator: [fetch()] when [data] is null, then the
    tuple [data] points at. *)
Definition dereference (fresh : list results.variable) (it : t) (st : results.t)
    (e : E) : outcome (list results.variable * t * results.t * E) :=
  match data it with
  | Some tuple => Returns (tuple, it, st, e)
  | None =>
      '(it, st, e) ← fetch fresh it st e;
      match data it with
      | Some tuple => Returns (tuple, it, st, e)
      | None => Undefined
      end
  end.

End with_engine.

End result_iterator.

(** [result_containter]: [begin()] and [end()] of the container made of
    the [results] object named [res]. *)
Module result_containter.

Definition begin (res : option nat) : result_iterator.t :=
  result_iterator.result_iterator res 0.

Definition end_ {E : Type} (api : text.api E) (res : option nat)
    (st : results.t) (e : E) : outcome result_iterator.t :=
  n ← results.count api st e;
  Returns (result_iterator.result_iterator res n).

End result_containter.

(** ** Concrete inputs for the text protocol *)

(** An engine that serves one stored table: [mysql_data_seek] sets the
    cursor, [mysql_fetch_row] returns the row under it and moves on.
    Connecting and querying fail when [failing] is set. *)
Module table.

Record t : Type := {
  rows : list (list (option (list byte)));
  cursor : nat;
  failing : bool;
  errno : nat;
  error : string
}.

Definition set_cursor (n : nat) (e : t) : t :=
  {| rows := rows e; cursor := n; failing := failing e; errno := errno e;
     error := error e |}.

Definition api : text.api t :=
  {| text.mysql_init := λ e, (Some 1, e);
     text.mysql_options := λ _ _ e, e;
     text.mysql_real_connect := λ h _ _ _ _ _ e,
       (if failing e then None else h, e);
     text.mysql_close := λ _ e, e;
     text.mysql_ping := λ _ e, (0%Z, e);
     text.mysql_real_query := λ _ _ _ e, (if failing e then 1%Z else 0%Z, e);
     text.mysql_store_result := λ _ e, (Some 5, set_cursor 0 e);
     text.mysql_errno := λ _ e, errno e;
     text.mysql_error := λ _ e, error e;
     text.mysql_num_rows := λ _ e, Z.of_nat (length (rows e));
     text.mysql_num_fields := λ _ e, length (default [] (head (rows e)));
     text.mysql_data_seek := λ _ n e, set_cursor (Z.to_nat n) e;
     text.mysql_fetch_row := λ _ e, (rows e !! cursor e, set_cursor (S (cursor e)) e);
     text.mysql_free_result := λ _ e, e |}.

End table.

(** A stand-in for the conversions: unsigned decimal numerals only. *)
Definition digit (b : byte) : option Z :=
  let n := Z.of_N (Byte.to_N b) in
  if bool_decide (48 ≤ n ≤ 57)%Z then Some (n - 48)%Z else None.

Fixpoint digits (acc : Z) (s : list byte) : option Z :=
  match s with
  | [] => Some acc
  | b :: s => d ← digit b; digits (acc * 10 + d)%Z s
  end.

Definition parse_decimal (s : list byte) : option Z :=
  match s with
  | [] => None
  | _ :: _ => digits 0 s
  end.

Definition decimal_std : std_conversions :=
  {| stoi := parse_decimal; stol := parse_decimal; stoll := parse_decimal;
     stoul := parse_decimal; stoull := parse_decimal |}.

(** Two rows of a number and a name; the name of the second row is NULL
    and its number is not a numeral. *)
Definition demo_table : table.t :=
  {| table.rows := [[Some ["4"; "2"]; Some ["a"; "b"]];
                    [Some ["x"]; None]]%byte;
     table.cursor := 0;
     table.failing := false;
     table.errno := 0;
     table.error := "" |}.

Definition failing_table : table.t :=
  {| table.rows := [];
     table.cursor := 0;
     table.failing := true;
     table.errno := 1064;
     table.error := "You have an error in your SQL syntax" |}.

Definition demo_results : results.t := results.of_result (Some 1) (Some 5).

Definition default_options : connect_options :=
  {| server := ""; username := ""; password := ""; dbname := ""; timeout := 0;
     autoreconnect := false; init_command := ""; charset := ""; port := 0 |}.

(** ** What [fetch] needs of the result set and of the engine *)









(** ** The connection's mutex

    The constructor, [execute], [fetch] and the destructor of
    [prepared_stmt] each declare
    [std::unique_lock<std::mutex> lck(con.mutex)] first.  They are given
    here once more with their events recorded: [acquire] where [lck] is
    constructed, [release] where it is destroyed, [engine c] for a call
    of the client library. *)

Inductive engine_call : Type :=
  | stmt_init_call
  | stmt_prepare_call
  | stmt_error_call
  | stmt_param_count_call
  | stmt_result_metadata_call
  | num_fields_call
  | free_result_call
  | stmt_close_call
  | stmt_bind_param_call
  | stmt_execute_call
  | stmt_bind_result_call
  | stmt_fetch_call
  | stmt_fetch_column_call.

Inductive event : Type :=
  | acquire
  | release
  | engine (c : engine_call).

Definition log {E : Type} (ev : event) (st : E * list event) : E * list event :=
  (st.1, st.2 ++ [ev]).

(** An engine that records every call that changes its state, beside what
    the call does.  The three calls that only read are recorded where the
    operations make them. *)
Definition traced {E : Type} (api : mysql_api E) : mysql_api (E * list event) :=
  {| mysql_stmt_init := λ c st,
       let '(h, e) := mysql_stmt_init api c st.1 in
       (h, log (engine stmt_init_call) (e, st.2));
     mysql_stmt_prepare := λ h query len st,
       let '(rc, e) := mysql_stmt_prepare api h query len st.1 in
       (rc, log (engine stmt_prepare_call) (e, st.2));
     mysql_stmt_error := λ h st, mysql_stmt_error api h st.1;
     mysql_stmt_param_count := λ h st, mysql_stmt_param_count api h st.1;
     mysql_stmt_result_metadata := λ h st,
       let '(meta, e) := mysql_stmt_result_metadata api h st.1 in
       (meta, log (engine stmt_result_metadata_call) (e, st.2));
     mysql_num_fields := λ r st, mysql_num_fields api r st.1;
     mysql_free_result := λ r st,
       log (engine free_result_call) (mysql_free_result api r st.1, st.2);
     mysql_stmt_close := λ h st,
       log (engine stmt_close_call) (mysql_stmt_close api h st.1, st.2);
     mysql_stmt_bind_param := λ h bs m st,
       let '(failed, e) := mysql_stmt_bind_param api h bs m st.1 in
       (failed, log (engine stmt_bind_param_call) (e, st.2));
     mysql_stmt_execute := λ h bs m st,
       let '(rc, e) := mysql_stmt_execute api h bs m st.1 in
       (rc, log (engine stmt_execute_call) (e, st.2));
     mysql_stmt_bind_result := λ h bs m st,
       let '(failed, e) := mysql_stmt_bind_result api h bs m st.1 in
       (failed, log (engine stmt_bind_result_call) (e, st.2));
     mysql_stmt_fetch := λ h bs m st,
       let '(rc, bs, m, e) := mysql_stmt_fetch api h bs m st.1 in
       (rc, bs, m, log (engine stmt_fetch_call) (e, st.2));
     mysql_stmt_fetch_column := λ h i column offset bs m st,
       let '(rc, bs, m, e) := mysql_stmt_fetch_column api h i column offset bs m st.1 in
       (rc, bs, m, log (engine stmt_fetch_column_call) (e, st.2)) |}.

Module locked.

Section with_engine.

Context {E : Type} (api : mysql_api E).

(** The constructor.  [lck] is a local of the constructor's body and
    [stmt] a member that is already constructed when the body runs.  When
    the body throws, the unwinding destroys the locals of the body first,
    [lck] among them, and the members after that: the deleter of [stmt]
    calls [mysql_stmt_close] when [stmt] is not null.  When the body ends
    normally, [meta] is destroyed before [lck]. *)
Definition prepared_stmt (pcon : connection) (query : string)
    (st : E * list event) : outcome prepared_stmt.t * (E * list event) :=
  let st := log acquire st in
  let '(stmt, st) := mysql_stmt_init (traced api) (my_conn pcon) st in
  match stmt with
  | None => (Throws bad_alloc, log release st)
  | Some _ =>
      let '(rc, st) :=
        mysql_stmt_prepare (traced api) stmt query (String.length query) st in
      if bool_decide (rc ≠ 0%Z) then
        let what :=
          ("Failed to prepare stmt: " ++ mysql_stmt_error (traced api) stmt st)%string in
        let st := log (engine stmt_error_call) st in
        let st := log release st in
        (Throws (runtime_error what), mysql_stmt_close (traced api) stmt st)
      else
        let param_count := mysql_stmt_param_count (traced api) stmt st in
        let st := log (engine stmt_param_count_call) st in
        let param_binds := mysql_bind_set.mysql_bind_set param_count in
        let '(meta, st) := mysql_stmt_result_metadata (traced api) stmt st in
        match meta with
        | Some _ =>
            let result_count := mysql_num_fields (traced api) meta st in
            let st := log (engine num_fields_call) st in
            let result_binds := mysql_bind_set.mysql_bind_set result_count in
            (Returns {| prepared_stmt.con := pcon; prepared_stmt.stmt := stmt;
                        prepared_stmt.param_binds := param_binds;
                        prepared_stmt.result_binds := result_binds |},
             log release (mysql_free_result (traced api) meta st))
        | None =>
            (Returns {| prepared_stmt.con := pcon; prepared_stmt.stmt := stmt;
                        prepared_stmt.param_binds := param_binds;
                        prepared_stmt.result_binds := mysql_bind_set.mysql_bind_set 0 |},
             log release st)
        end
  end.

(** [execute] and [fetch]: [lck] is destroyed when the body returns. *)
Definition execute (s : prepared_stmt.t) (m : memory) (st : E * list event)
    : outcome (bool * prepared_stmt.t * memory * (E * list event)) :=
  '(b, s, m, st) ← prepared_stmt.execute (traced api) s m (log acquire st);
  Returns (b, s, m, log release st).

Definition fetch (s : prepared_stmt.t) (m : memory) (st : E * list event)
    : outcome (bool * prepared_stmt.t * memory * (E * list event)) :=
  '(b, s, m, st) ← prepared_stmt.fetch (traced api) s m (log acquire st);
  Returns (b, s, m, log release st).

(** The destructor: [stmt.reset()] under the lock; the member [stmt] is
    null when it is destroyed after the body. *)
Definition destroy (s : prepared_stmt.t) (st : E * list event)
    : prepared_stmt.t * (E * list event) :=
  let st := log acquire st in
  let st :=
    match prepared_stmt.stmt s with
    | Some _ => mysql_stmt_close (traced api) (prepared_stmt.stmt s) st
    | None => st
    end in
  ({| prepared_stmt.con := prepared_stmt.con s; prepared_stmt.stmt := None;
      prepared_stmt.param_binds := prepared_stmt.param_binds s;
      prepared_stmt.result_binds := prepared_stmt.result_binds s |},
   log release st).

End with_engine.

End locked.

(** The discipline the operations are meant to follow: the mutex is
    acquired first, released last, and every engine call lies between. *)
Definition bracketed (tr : list event) : Prop :=
  ∃ calls, tr = acquire :: map engine calls ++ [release].

(** Two threads on one mutex: each event carries the thread that makes
    it.  The mutex admits an [acquire] only when it is free and a
    [release] only by its owner; a run is exclusive when every engine call
    is made by the thread that holds the mutex. *)
Fixpoint mutex_admits (owner : option bool) (tr : list (bool * event)) : bool :=
  match tr with
  | [] => true
  | (t, acquire) :: tr => bool_decide (owner = None) && mutex_admits (Some t) tr
  | (t, release) :: tr => bool_decide (owner = Some t) && mutex_admits None tr
  | (_, engine _) :: tr => mutex_admits owner tr
  end.

Fixpoint exclusive (owner : option bool) (tr : list (bool * event)) : bool :=
  match tr with
  | [] => true
  | (t, acquire) :: tr => exclusive (Some t) tr
  | (_, release) :: tr => exclusive None tr
  | (t, engine _) :: tr => bool_decide (owner = Some t) && exclusive owner tr
  end.

(** The events of one thread in a run. *)
Definition events_of (t : bool) (tr : list (bool * event)) : list event :=
  (filter (λ x, x.1 = t) tr).*2.

(** * Properties *)

(** ** Outcomes *)

Lemma bind_Returns {A B} (a : A) (k : A → outcome B) : Returns a ≫= k = k a.
Proof. reflexivity. Qed.

Lemma bind_eq_Returns {A B} (c : outcome A) (k : A → outcome B) r :
  c ≫= k = Returns r → ∃ a, c = Returns a ∧ k a = Returns r.
Proof. destruct c as [a| |]; [|done..]. intros H. by exists a. Qed.

(** ** Memory and descriptors *)

Lemma mem_optional_number_store p v m :
  mem_optional_number (store_optional_number p v m) p = v.
Proof. unfold store_optional_number; simpl. apply fn_lookup_insert. Qed.

Lemma mem_string_store p v m : mem_string (store_string p v m) p = v.
Proof. unfold store_string; simpl. apply fn_lookup_insert. Qed.

Lemma mem_optional_string_store p v m :
  mem_optional_string (store_optional_string p v m) p = v.
Proof. unfold store_optional_string; simpl. apply fn_lookup_insert. Qed.

Lemma mem_string_store_ne p q v m :
  p ≠ q → mem_string (store_string p v m) q = mem_string m q.
Proof. intros. unfold store_string; simpl. by apply fn_lookup_insert_ne. Qed.

Lemma length_string_resize n s : length (string_resize n s) = n.
Proof. apply length_resize. Qed.

(** After unfolding a hook, reads of the cell just stored are resolved. *)
Ltac mem_simpl :=
  simpl; rewrite ?fn_lookup_insert, ?length_string_resize.

(** Resizing to one byte keeps the first byte, or yields a NUL. *)
Lemma string_resize_1 s : string_resize 1 s = [hd x00 s].
Proof.
  unfold string_resize. destruct s as [|c s]; [done|].
  simpl. by rewrite resize_0.
Qed.

(** ** The typed binders *)

(** C1, as the code has it: on an [optional<int32_t>] holding 42,
    [my_optional_number_bind::pre_execute] stages 42 and leaves the null
    flag of the descriptor set; on an empty optional it leaves the flag
    clear.  The flag is the opposite of what the parameter calls for. *)
Lemma optional_number_pre_execute_null_flag :
  (my_optional_number_bind.pre_execute int32_t 0 0 memory_with_42).2 = 42%Z ∧
  is_null_value (my_optional_number_bind.pre_execute int32_t 0 0 memory_with_42).1 = true ∧
  is_null_value (my_optional_number_bind.pre_execute int32_t 0 0 empty_memory).1 = false.
Proof. by vm_compute. Qed.

(** The null flag [my_optional_number_bind::pre_execute] leaves is
    [has_value()], for every number type and every memory. *)
Lemma optional_number_pre_execute_flag_is_has_value T p pdata m :
  is_null_value (my_optional_number_bind.pre_execute T p pdata m).1
  = bool_decide (is_Some (mem_optional_number m p)).
Proof. reflexivity. Qed.

(** The nullable string binder sets the flag the other way round: clear
    when the optional holds a value, set when it is empty. *)
Lemma optional_string_pre_execute_flag p m :
  is_null_value (my_bind_optional_string.pre_execute p m)
  = bool_decide (mem_optional_string m p = None).
Proof.
  unfold my_bind_optional_string.pre_execute.
  by destruct (mem_optional_string m p).
Qed.

(** C2, as stated, fails: a reported length of one byte fits the one-byte
    provisional buffer, and [post_fetch] still signals a refetch. *)
Lemma string_post_fetch_refetches_fitting_value :
  length_value one_byte_report ≤ buffer_length one_byte_report ∧
  (my_bind_string.post_fetch 0 one_byte_report memory_after_pre_fetch).1.1 = true.
Proof. by vm_compute. Qed.

(** C2, amended: [post_fetch] of a string slot signals a refetch exactly
    when the reported length is positive, whatever the buffer length; it
    then resizes the bound string to that length and points the descriptor
    at it with that buffer length.  When the reported length is zero it
    clears the string and signals false.  A nullable string slot whose null
    flag is clear does the same provided the bound optional holds a value,
    as the slot's own [pre_fetch] leaves it; when the flag is clear and the
    optional is empty, [post_fetch] signals nothing: it throws
    [bad_optional_access]. *)
Theorem string_post_fetch_refetch_iff_positive_length :
  (∀ p b m,
     let '(r, b', m') := my_bind_string.post_fetch p b m in
     r = bool_decide (0 < length_value b) ∧
     (0 < length_value b →
        mem_string m' p = string_resize (length_value b) (mem_string m p) ∧
        length (mem_string m' p) = length_value b ∧
        buffer b' = string_buffer p ∧
        buffer_length b' = length_value b) ∧
     (length_value b = 0 → mem_string m' p = [] ∧ b' = b)) ∧
  (∀ p b m s,
     is_null_value b = false →
     mem_optional_string m p = Some s →
     ∃ b' m',
       my_bind_optional_string.post_fetch p b m
       = Returns (bool_decide (0 < length_value b), b', m') ∧
       (0 < length_value b →
          mem_optional_string m' p = Some (string_resize (length_value b) s) ∧
          buffer b' = optional_string_buffer p ∧
          buffer_length b' = length_value b) ∧
       (length_value b = 0 → mem_optional_string m' p = Some [] ∧ b' = b)) ∧
  (∀ p b m,
     is_null_value b = false →
     mem_optional_string m p = None →
     my_bind_optional_string.post_fetch p b m = Throws bad_optional_access) ∧
  (∀ p m,
     mem_optional_string (my_bind_optional_string.pre_fetch p m).2 p
     = Some [x00]).
Proof.
  split; [|split; [|split]].
  - intros p b m. unfold my_bind_string.post_fetch.
    case_bool_decide as Hlen; mem_simpl; repeat split; auto; lia.
  - intros p b m s Hnull Hs. unfold my_bind_optional_string.post_fetch.
    rewrite Hnull, Hs.
    case_bool_decide as Hlen; eexists _, _; (split; [reflexivity|]);
      mem_simpl; repeat split; auto; lia.
  - intros p b m Hnull Hs. unfold my_bind_optional_string.post_fetch.
    by rewrite Hnull, Hs.
  - intros p m. unfold my_bind_optional_string.pre_fetch. by mem_simpl.
Qed.

Lemma string_post_fetch_refetch_iff_positive_length_witness :
  mem_string (my_bind_string.post_fetch 0 one_byte_report memory_after_pre_fetch).2 0
  = [x00] ∧
  (∃ b' m',
     my_bind_optional_string.post_fetch 0 one_byte_report
       (store_optional_string 0 (Some [x00]) empty_memory)
     = Returns (true, b', m') ∧
     mem_optional_string m' 0 = Some [x00]) ∧
  my_bind_optional_string.post_fetch 0 one_byte_report empty_memory
  = Throws bad_optional_access.
Proof.
  split; [|split].
  - pose proof (proj1 string_post_fetch_refetch_iff_positive_length 0
                  one_byte_report memory_after_pre_fetch) as H.
    destruct (my_bind_string.post_fetch 0 one_byte_report memory_after_pre_fetch)
      as [[r b'] m'].
    destruct H as (_ & Hpos & _).
    exact (proj1 (Hpos ltac:(vm_compute; lia))).
  - destruct (proj1 (proj2 string_post_fetch_refetch_iff_positive_length)
                0 one_byte_report
                (store_optional_string 0 (Some [x00]) empty_memory) [x00]
                eq_refl eq_refl) as (b' & m' & Hrun & Hpos & _).
    exists b', m'. split; [exact Hrun|].
    exact (proj1 (Hpos ltac:(vm_compute; lia))).
  - exact (proj1 (proj2 (proj2 string_post_fetch_refetch_iff_positive_length))
             0 one_byte_report empty_memory eq_refl eq_refl).
Defined.

(** C6: [post_fetch] of a nullable slot whose null flag is set empties the
    bound optional and signals false.  With the flag clear, a nullable
    number slot stores the staged scalar in the optional (and signals
    false), and a nullable string slot goes on as a string slot does: a
    refetch at the reported length when that is positive, the empty string
    otherwise. *)
Theorem nullable_post_fetch :
  (∀ p pdata b m,
     let '(r, m') := my_optional_number_bind.post_fetch p pdata b m in
     r = false ∧
     mem_optional_number m' p = if is_null_value b then None else Some pdata) ∧
  (∀ p b m,
     is_null_value b = true →
     ∃ m', my_bind_optional_string.post_fetch p b m = Returns (false, b, m') ∧
           mem_optional_string m' p = None) ∧
  (∀ p b m s,
     is_null_value b = false →
     mem_optional_string m p = Some s →
     ∃ b' m',
       my_bind_optional_string.post_fetch p b m
       = Returns ((my_bind_string.post_fetch p b (store_string p s m)).1.1, b', m') ∧
       mem_optional_string m' p
       = Some (mem_string (my_bind_string.post_fetch p b (store_string p s m)).2 p) ∧
       buffer_length b'
       = buffer_length (my_bind_string.post_fetch p b (store_string p s m)).1.2).
Proof.
  split; [|split].
  - intros p pdata b m. unfold my_optional_number_bind.post_fetch.
    destruct (is_null_value b); by mem_simpl.
  - intros p b m Hnull. unfold my_bind_optional_string.post_fetch.
    rewrite Hnull. eexists; split; [reflexivity|].
    apply mem_optional_string_store.
  - intros p b m s Hnull Hs.
    unfold my_bind_optional_string.post_fetch, my_bind_string.post_fetch.
    rewrite Hnull, Hs, mem_string_store.
    case_bool_decide; eexists _, _; (split; [reflexivity|]); by mem_simpl.
Qed.

Lemma nullable_post_fetch_witness :
  (∃ m',
     my_bind_optional_string.post_fetch 0 (set_is_null_value true zero_bind)
       (store_optional_string 0 (Some [x00]) empty_memory)
     = Returns (false, set_is_null_value true zero_bind, m') ∧
     mem_optional_string m' 0 = None) ∧
  (∃ b' m',
     my_bind_optional_string.post_fetch 0 one_byte_report
       (store_optional_string 0 (Some [x00]) empty_memory)
     = Returns (true, b', m') ∧
     mem_optional_string m' 0 = Some [x00]).
Proof.
  split.
  - exact (proj1 (proj2 nullable_post_fetch) 0 (set_is_null_value true zero_bind)
             (store_optional_string 0 (Some [x00]) empty_memory) eq_refl).
  - destruct (proj2 (proj2 nullable_post_fetch) 0 one_byte_report
                (store_optional_string 0 (Some [x00]) empty_memory) [x00]
                eq_refl eq_refl) as (b' & m' & Hrun & Hmem & _).
    exists b', m'. split; [exact Hrun | exact Hmem].
Defined.

(** C9: [pre_fetch] of a string slot leaves the bound string with exactly
    one byte, its former first byte (a NUL if it was empty), and a
    descriptor of buffer length 1 pointing at it, whatever the string was
    before.  [pre_fetch] of a nullable string slot leaves the bound
    optional holding a one-byte string, whatever it held before. *)
Theorem string_pre_fetch_one_byte :
  (∀ p m,
     let '(b, m') := my_bind_string.pre_fetch p m in
     mem_string m' p = [hd x00 (mem_string m p)] ∧
     length (mem_string m' p) = 1 ∧
     buffer b = string_buffer p ∧
     buffer_length b = 1) ∧
  (∀ p m,
     let '(b, m') := my_bind_optional_string.pre_fetch p m in
     mem_optional_string m' p = Some [x00] ∧
     buffer b = optional_string_buffer p ∧
     buffer_length b = 1).
Proof.
  split; intros p m; mem_simpl.
  - by rewrite string_resize_1.
  - done.
Qed.

(** ** The bind set *)

Section bind_set_lemmas.

Import mysql_bind_set.

Lemma hook_total_pre_execute : hook_total virtual.pre_execute.
Proof. intros [] b m; simpl; eauto. Qed.

Lemma hook_total_pre_fetch : hook_total virtual.pre_fetch.
Proof. intros [] b m; simpl; eauto. Qed.

Lemma hook_total_post_execute : hook_total virtual.post_execute.
Proof. intros w b m. unfold virtual.post_execute. eauto. Qed.

Lemma hook_total_post_refetch : hook_total virtual.post_refetch.
Proof. intros w b m. unfold virtual.post_refetch. eauto. Qed.

Lemma hook_keeps_bind_pre_execute : hook_keeps_bind virtual.pre_execute.
Proof. intros [] b m r w' b' m' H; simpl in H; by simplify_eq. Qed.

Lemma hook_keeps_bind_pre_fetch : hook_keeps_bind virtual.pre_fetch.
Proof. intros [] b m r w' b' m' H; simpl in H; by simplify_eq. Qed.

Lemma hook_keeps_bind_post_fetch : hook_keeps_bind virtual.post_fetch.
Proof.
  intros [] b m r w' b' m' H; simpl in H; try by simplify_eq.
  - unfold my_optional_number_bind.post_fetch in H.
    destruct (is_null_value b); by simplify_eq.
  - unfold my_bind_string.post_fetch in H. case_bool_decide; by simplify_eq.
  - apply bind_eq_Returns in H as ([[? ?] ?] & _ & H). by simplify_eq.
Qed.

Lemma hook_keeps_bind_post_execute : hook_keeps_bind virtual.post_execute.
Proof. intros w b m r w' b' m' H. unfold virtual.post_execute in H. by simplify_eq. Qed.

Lemma hook_keeps_bind_post_refetch : hook_keeps_bind virtual.post_refetch.
Proof. intros w b m r w' b' m' H. unfold virtual.post_refetch in H. by simplify_eq. Qed.

Section call.

Context {R : Type}
  (hook : my_bind_base → MYSQL_BIND → memory →
          outcome (R * my_bind_base * MYSQL_BIND * memory)).

(** What a call through slot [i] that returns has done. *)
Lemma call_Returns i bs m r bs' m' :
  call hook i bs m = Returns (r, bs', m') →
  ∃ w b w' b',
    _wrappers bs !! i = Some (Some w) ∧
    _binds_mysql bs !! bind w = Some b ∧
    hook w b m = Returns (r, w', b', m') ∧
    bs' = {| _binds_mysql := <[bind w := b']> (_binds_mysql bs);
             _wrappers := <[i := Some w']> (_wrappers bs) |}.
Proof.
  unfold call. intros H.
  destruct (_wrappers bs !! i) as [[w|]|] eqn:Hw; try done.
  destruct (_binds_mysql bs !! bind w) as [b|] eqn:Hb; try done.
  destruct (hook w b m) as [[[[r0 w'] b'] m0]| |] eqn:Hh; try done.
  simpl in H. simplify_eq. by exists w, b, w', b'.
Qed.

(** A call through a null slot, or past the end, is undefined. *)
Lemma call_unbound i bs m : unbound i bs → call hook i bs m = Undefined.
Proof. unfold unbound, call. by intros ->. Qed.

Lemma call_size i bs m r bs' m' :
  call hook i bs m = Returns (r, bs', m') → size bs' = size bs.
Proof.
  intros (w & b & w' & b' & _ & _ & _ & ->)%call_Returns.
  unfold size; simpl. apply length_insert.
Qed.

Lemma call_unbound_kept i j bs m r bs' m' :
  call hook j bs m = Returns (r, bs', m') → unbound i bs → unbound i bs'.
Proof.
  intros (w & b & w' & b' & Hw & _ & _ & ->)%call_Returns Hi.
  unfold unbound in *; simpl.
  rewrite list_lookup_insert_ne; [done|]. intros ->. congruence.
Qed.

Lemma call_all_bound i bs m r bs' m' :
  call hook i bs m = Returns (r, bs', m') → all_bound bs → all_bound bs'.
Proof.
  intros (w & b & w' & b' & _ & _ & _ & ->)%call_Returns Hall.
  unfold all_bound in *; simpl. by apply Forall_insert.
Qed.

Lemma call_wf i bs m r bs' m' :
  hook_keeps_bind hook →
  call hook i bs m = Returns (r, bs', m') → bind_set_wf bs → bind_set_wf bs'.
Proof.
  intros Hkeep (w & b & w' & b' & Hw & _ & Hh & ->)%call_Returns [Hlen Hbind].
  split; unfold size in *; simpl.
  - by rewrite !length_insert.
  - intros j v [(-> & ? & _)|[_ Hj]]%list_lookup_insert_Some.
    + simplify_eq. rewrite (Hkeep _ _ _ _ _ _ _ Hh). by apply Hbind.
    + by apply Hbind.
Qed.

(** On a well-formed set, a total hook called through a bound slot
    returns. *)
Lemma call_total i bs m :
  hook_total hook → bind_set_wf bs → all_bound bs → i < size bs →
  ∃ r bs' m', call hook i bs m = Returns (r, bs', m').
Proof.
  intros Htot [Hlen Hbind] Hall Hi. unfold call.
  destruct (lookup_lt_is_Some_2 (_wrappers bs) i Hi) as [o Ho].
  destruct (Forall_lookup_1 _ _ _ _ Hall Ho) as [w ->].
  rewrite Ho. rewrite (Hbind _ _ Ho).
  destruct (lookup_lt_is_Some_2 (_binds_mysql bs) i) as [b ->]; [lia|].
  destruct (Htot w b m) as (r & w' & b' & m' & ->). simpl. eauto.
Qed.

End call.

Section for_each.

Context
  (hook : my_bind_base → MYSQL_BIND → memory →
          outcome (unit * my_bind_base * MYSQL_BIND * memory)).

Lemma for_each_cons i items bs m :
  for_each hook (i :: items) bs m
  = call hook i bs m ≫= λ '(_, bs, m), for_each hook items bs m.
Proof. reflexivity. Qed.

(** A loop that meets a null slot does not return. *)
Lemma for_each_unbound items i bs m r :
  i ∈ items → unbound i bs → for_each hook items bs m ≠ Returns r.
Proof.
  revert bs m. induction items as [|j items IH]; intros bs m Hin Hi.
  - by apply elem_of_nil in Hin.
  - rewrite for_each_cons.
    destruct (call hook j bs m) as [[[[] bs'] m']| |] eqn:Hc; try done.
    simpl. apply elem_of_cons in Hin as [->|Hin].
    + by rewrite call_unbound in Hc.
    + apply IH; [done|]. eapply call_unbound_kept; eauto.
Qed.

(** A loop of a total hook never throws. *)
Lemma call_no_throw i bs m e :
  hook_total hook → call hook i bs m ≠ Throws e.
Proof.
  intros Htot. unfold call.
  destruct (_wrappers bs !! i) as [[w|]|]; try done.
  destruct (_binds_mysql bs !! bind w) as [b|]; try done.
  by destruct (Htot w b m) as (r & w' & b' & m' & ->).
Qed.

Lemma for_each_no_throw items bs m e :
  hook_total hook → for_each hook items bs m ≠ Throws e.
Proof.
  intros Htot. revert bs m. induction items as [|j items IH]; intros bs m; [done|].
  rewrite for_each_cons.
  destruct (call hook j bs m) as [[[[] bs'] m']|e'|] eqn:Hc; simpl.
  - apply IH.
  - by apply call_no_throw in Hc.
  - done.
Qed.

Lemma for_each_unbound_Undefined items i bs m :
  hook_total hook → i ∈ items → unbound i bs →
  for_each hook items bs m = Undefined.
Proof.
  intros Htot Hin Hi.
  destruct (for_each hook items bs m) as [r|e|] eqn:Hrun; [| |done].
  - by eapply for_each_unbound in Hrun.
  - by eapply for_each_no_throw in Hrun.
Qed.

(** On a well-formed, fully bound set a loop of a total hook over valid
    indices returns, and the set stays well-formed and fully bound. *)
Lemma for_each_returns items bs m :
  hook_total hook → hook_keeps_bind hook →
  bind_set_wf bs → all_bound bs → Forall (λ i, i < size bs) items →
  ∃ bs' m', for_each hook items bs m = Returns (bs', m') ∧
            bind_set_wf bs' ∧ all_bound bs' ∧ size bs' = size bs.
Proof.
  intros Htot Hkeep. revert bs m.
  induction items as [|j items IH]; intros bs m Hwf Hall Hidx.
  - by exists bs, m.
  - apply Forall_cons_1 in Hidx as [Hj Hidx]. rewrite for_each_cons.
    destruct (call_total hook j bs m Htot Hwf Hall Hj) as ([] & bs1 & m1 & Hc).
    rewrite Hc; simpl.
    pose proof (call_size _ _ _ _ _ _ _ Hc) as Hsize.
    destruct (IH bs1 m1) as (bs' & m' & Hrun & ? & ? & Hsize').
    + eapply call_wf; eauto.
    + eapply call_all_bound; eauto.
    + by rewrite Hsize.
    + exists bs', m'. do 3 (split; [done|]). congruence.
Qed.

End for_each.

(** A hook that changes nothing leaves the whole set as it was. *)
Lemma for_each_identity hook items bs m :
  (∀ w b m, hook w b m = Returns ((), w, b, m)) →
  bind_set_wf bs → all_bound bs → Forall (λ i, i < size bs) items →
  for_each hook items bs m = Returns (bs, m).
Proof.
  intros Hid [Hlen Hbind] Hall Hidx.
  induction items as [|j items IH]; [done|].
  apply Forall_cons_1 in Hidx as [Hj Hidx]. rewrite for_each_cons.
  destruct (lookup_lt_is_Some_2 (_wrappers bs) j Hj) as [o Ho].
  destruct (Forall_lookup_1 _ _ _ _ Hall Ho) as [w ->].
  destruct (lookup_lt_is_Some_2 (_binds_mysql bs) j) as [b Hb]; [lia|].
  unfold call. rewrite Ho, (Hbind _ _ Ho), Hb, Hid; simpl.
  rewrite !list_insert_id by done. destruct bs; simpl. by apply IH.
Qed.

Lemma seq_in_range n : Forall (λ i, i < n) (seq 0 n).
Proof. apply Forall_seq. intros; lia. Qed.

End bind_set_lemmas.

Section bind_set_theorems.

Import mysql_bind_set.

Lemma size_mysql_bind_set n : size (mysql_bind_set n) = n.
Proof. unfold size; simpl. apply length_replicate. Qed.

Lemma wf_mysql_bind_set n : bind_set_wf (mysql_bind_set n).
Proof.
  split.
  - unfold size; simpl. by rewrite !length_replicate.
  - simpl. by intros i w [? _]%lookup_replicate.
Qed.

Lemma bind_make_wrap idx arg : bind (make_wrap idx arg) = idx.
Proof. by destruct arg. Qed.

Lemma set_variable_wf idx arg bs :
  bind_set_wf bs → bind_set_wf (set_variable idx arg bs).2.
Proof.
  intros [Hlen Hbind]. unfold set_variable.
  repeat case_bool_decide; try done.
  split; unfold size in *; simpl.
  - by rewrite length_insert.
  - intros j v [(-> & ? & _)|[_ Hj]]%list_lookup_insert_Some.
    + simplify_eq. apply bind_make_wrap.
    + by apply Hbind.
Qed.

(** Whatever [bind_variables] does, it leaves the set well-formed. *)
Lemma bind_variables_wf args bs :
  bind_set_wf bs → bind_set_wf (bind_variables args bs).2.
Proof.
  unfold bind_variables. generalize 0 as idx. revert bs.
  induction args as [|arg args IH]; intros bs idx Hwf; [done|].
  simpl. pose proof (set_variable_wf idx arg bs Hwf) as Hset.
  destruct (set_variable idx arg bs) as [[[]| |] bs']; try done.
  destruct args as [|arg' args]; [done|]. by apply IH.
Qed.

Lemma post_fetch_loop_cons i items res bs m :
  post_fetch_loop (i :: items) res bs m
  = call virtual.post_fetch i bs m ≫= λ '(r, bs, m),
      post_fetch_loop items (if r : bool then res ++ [i] else res) bs m.
Proof. reflexivity. Qed.

(** The only exception a [post_fetch] hook throws. *)
Lemma virtual_post_fetch_throws w b m e :
  virtual.post_fetch w b m = Throws e → e = bad_optional_access.
Proof.
  destruct w; simpl; try done.
  - by destruct (my_optional_number_bind.post_fetch _ _ _ _).
  - by destruct (my_bind_string.post_fetch _ _ _) as [[? ?] ?].
  - unfold my_bind_optional_string.post_fetch.
    destruct (is_null_value b); [done|].
    destruct (mem_optional_string m data0); [|by intros [= <-]].
    by case_bool_decide.
Qed.

Lemma call_post_fetch_throws i bs m e :
  call virtual.post_fetch i bs m = Throws e → e = bad_optional_access.
Proof.
  unfold call.
  destruct (_wrappers bs !! i) as [[w|]|]; try done.
  destruct (_binds_mysql bs !! bind w) as [b|]; try done.
  destruct (virtual.post_fetch w b m) as [[[[? ?] ?] ?]|e'|] eqn:Hh; try done.
  simpl. intros [= <-]. by eapply virtual_post_fetch_throws.
Qed.

(** The loop of [post_fetch] over a null slot ends undefined, unless a
    nullable string slot before it has thrown. *)
Lemma post_fetch_loop_unbound items i res bs m :
  i ∈ items → unbound i bs →
  post_fetch_loop items res bs m = Undefined ∨
  post_fetch_loop items res bs m = Throws bad_optional_access.
Proof.
  revert res bs m. induction items as [|j items IH]; intros res bs m Hin Hi.
  - by apply elem_of_nil in Hin.
  - rewrite post_fetch_loop_cons.
    destruct (call virtual.post_fetch j bs m) as [[[r bs'] m']|e|] eqn:Hc; simpl.
    + apply elem_of_cons in Hin as [->|Hin].
      * by rewrite call_unbound in Hc.
      * apply IH; [done|]. eapply call_unbound_kept; eauto.
    + right. by rewrite (call_post_fetch_throws _ _ _ _ Hc).
    + by left.
Qed.



(** C5: [set_variable] at an index that is not below the slot count throws
    [out_of_range] and leaves both vectors of the bind set as they were.
    At an index below the slot count it returns, leaves the descriptors
    alone, puts a freshly made binder for the reference in that slot, and
    leaves every other slot as it was. *)
Theorem set_variable_index_check :
  (∀ bs idx arg,
     size bs ≤ idx →
     set_variable idx arg bs
     = (Throws (out_of_range "Invalid binding index"), bs)) ∧
  (∀ bs idx arg,
     length (_binds_mysql bs) = size bs →
     idx < size bs →
     ∃ bs',
       set_variable idx arg bs = (Returns (), bs') ∧
       _binds_mysql bs' = _binds_mysql bs ∧
       size bs' = size bs ∧
       _wrappers bs' !! idx = Some (Some (make_wrap idx arg)) ∧
       ∀ j, j ≠ idx → _wrappers bs' !! j = _wrappers bs !! j).
Proof.
  split.
  - intros bs idx arg Hidx. unfold set_variable.
    by rewrite bool_decide_eq_true_2.
  - intros bs idx arg Hlen Hidx. unfold set_variable.
    rewrite !bool_decide_eq_false_2 by lia.
    eexists. split; [reflexivity|]. unfold size in *; simpl.
    split; [done|]. split; [apply length_insert|].
    split; [by apply list_lookup_insert_eq|].
    intros j Hj. by apply list_lookup_insert_ne.
Qed.

(** C8: every slot of a new bind set is null.  [pre_execute] and
    [pre_fetch] of a set with a null slot are undefined, and [post_fetch]
    is undefined or has thrown from a nullable string slot before the null
    one: none of the three returns.  On a well-formed set whose slots are
    all bound, [pre_execute] and [pre_fetch] return. *)
Theorem phase_hooks_need_bound_slots :
  (∀ n i, i < n → unbound i (mysql_bind_set n)) ∧
  (∀ bs m i,
     unbound i bs →
     pre_execute bs m = Undefined ∧
     pre_fetch bs m = Undefined ∧
     (post_fetch bs m = Undefined ∨
      post_fetch bs m = Throws bad_optional_access)) ∧
  (∀ bs m,
     bind_set_wf bs → all_bound bs →
     (∃ r, pre_execute bs m = Returns r) ∧ (∃ r, pre_fetch bs m = Returns r)).
Proof.
  split; [|split].
  - intros n i Hi. unfold unbound; simpl. by apply lookup_replicate_2.
  - intros bs m i Hi.
    assert (i ∈ seq 0 (size bs)) as Hin.
    { apply elem_of_seq. apply lookup_lt_Some in Hi. unfold size. lia. }
    split; [|split].
    + apply (for_each_unbound_Undefined _ _ i); auto using hook_total_pre_execute.
    + apply (for_each_unbound_Undefined _ _ i); auto using hook_total_pre_fetch.
    + by apply (post_fetch_loop_unbound _ i).
  - intros bs m Hwf Hall. unfold pre_execute, pre_fetch. split.
    + destruct (for_each_returns virtual.pre_execute (seq 0 (size bs)) bs m)
        as (bs' & m' & -> & _);
        eauto using hook_total_pre_execute, hook_keeps_bind_pre_execute, seq_in_range.
    + destruct (for_each_returns virtual.pre_fetch (seq 0 (size bs)) bs m)
        as (bs' & m' & -> & _);
        eauto using hook_total_pre_fetch, hook_keeps_bind_pre_fetch, seq_in_range.
Qed.

End bind_set_theorems.

(** ** The prepared statement *)

Section statement_theorems.

Import mysql_bind_set prepared_stmt.

Context {E : Type} (api : mysql_api E).


(** C4: on a statement whose parameter slots are all bound, [execute]
    throws nothing and is not undefined.  It runs [pre_execute] on the
    parameter set, then returns false if the engine refuses the parameter
    array, false if the engine fails to execute, and true otherwise, after
    a [post_execute] that changes nothing.  In every case the statement it
    leaves has the same handle and result set, and a parameter set of the
    same size that is again well-formed and fully bound, so that [execute]
    can be called on it again. *)
Theorem execute_returns_bool s m e :
  bind_set_wf (param_binds s) → all_bound (param_binds s) →
  ∃ pb m1,
    pre_execute (param_binds s) m = Returns (pb, m1) ∧
    bind_set_wf pb ∧ all_bound pb ∧ size pb = size (param_binds s) ∧
    stmt (set_param_binds pb s) = stmt s ∧
    result_binds (set_param_binds pb s) = result_binds s ∧
    let '(failed, e1) := mysql_stmt_bind_param api (stmt s) pb m1 e in
    let '(rc, e2) := mysql_stmt_execute api (stmt s) pb m1 e1 in
    (failed = true →
       execute api s m e = Returns (false, set_param_binds pb s, m1, e1)) ∧
    (failed = false → rc ≠ 0%Z →
       execute api s m e = Returns (false, set_param_binds pb s, m1, e2)) ∧
    (failed = false → rc = 0%Z →
       execute api s m e = Returns (true, set_param_binds pb s, m1, e2)).
Proof.
  intros Hwf Hall.
  destruct (for_each_returns virtual.pre_execute (seq 0 (size (param_binds s)))
              (param_binds s) m)
    as (pb & m1 & Hpre & Hwf1 & Hall1 & Hsize);
    eauto using hook_total_pre_execute, hook_keeps_bind_pre_execute, seq_in_range.
  exists pb, m1. do 6 (split; [done|]).
  unfold execute, pre_execute. rewrite Hpre; simpl.
  destruct (mysql_stmt_bind_param api (stmt s) pb m1 e) as [failed e1].
  destruct (mysql_stmt_execute api (stmt s) pb m1 e1) as [rc e2].
  split; [by intros ->|]. split.
  - intros -> Hrc. by rewrite bool_decide_eq_true_2.
  - intros -> ->. simpl. unfold post_execute.
    rewrite for_each_identity; eauto using seq_in_range.
Qed.

(** C7: when the engine has allocated the handle and then rejects the
    statement text, the constructor throws [runtime_error] with the
    engine's message after a fixed prefix, and yields no statement.  When
    the engine accepts the text, the constructor returns a statement whose
    parameter set has as many slots as the engine reports parameters, and
    whose result set has as many slots as the metadata has fields, or none
    when the statement has no metadata (it produces no rows); every slot of
    both sets is unbound. *)
Theorem constructor_outcomes pcon query e :
  let '(h, e1) := mysql_stmt_init api (my_conn pcon) e in
  let '(rc, e2) := mysql_stmt_prepare api h query (String.length query) e1 in
  let '(meta, e3) := mysql_stmt_result_metadata api h e2 in
  (is_Some h → rc ≠ 0%Z →
     (prepared_stmt api pcon query e).1
     = Throws (runtime_error
                 ("Failed to prepare stmt: " ++ mysql_stmt_error api h e2))) ∧
  (is_Some h → rc = 0%Z →
     ∃ s,
       (prepared_stmt api pcon query e).1 = Returns s ∧
       stmt s = h ∧
       param_binds s = mysql_bind_set (mysql_stmt_param_count api h e2) ∧
       size (param_binds s) = mysql_stmt_param_count api h e2 ∧
       (meta = None → size (result_binds s) = 0) ∧
       (is_Some meta → size (result_binds s) = mysql_num_fields api meta e3)).
Proof.
  unfold prepared_stmt.
  destruct (mysql_stmt_init api (my_conn pcon) e) as [h e1].
  destruct (mysql_stmt_prepare api h query (String.length query) e1) as [rc e2].
  destruct (mysql_stmt_result_metadata api h e2) as [meta e3] eqn:Hmeta.
  split.
  - intros [x ->] Hrc. by rewrite bool_decide_eq_true_2.
  - intros [x ->] ->. rewrite bool_decide_eq_false_2 by (by intros ?).
    destruct meta as [r|]; eexists; (split; [reflexivity|]); simpl;
      rewrite ?size_mysql_bind_set; repeat split; try done.
Qed.

End statement_theorems.

(** ** The theorems at concrete inputs *)

(** Well-formedness and full binding of a concrete bind set. *)
Ltac concrete_wf :=
  split; [reflexivity|];
  let i := fresh "i" in let w := fresh "w" in let H := fresh "H" in
  intros i w H;
  do 4 (try destruct i as [|i]);
  vm_compute in H; simplify_eq; reflexivity.

Ltac concrete_all_bound :=
  repeat (constructor; [by eexists|]); constructor.

Lemma set_variable_index_check_witness :
  mysql_bind_set.set_variable 2 (string_ref 0) (mysql_bind_set.mysql_bind_set 2)
  = (Throws (out_of_range "Invalid binding index"), mysql_bind_set.mysql_bind_set 2) ∧
  ∃ bs',
    mysql_bind_set.set_variable 1 (string_ref 0) (mysql_bind_set.mysql_bind_set 2)
    = (Returns (), bs') ∧
    mysql_bind_set._wrappers bs' !! 1 = Some (Some (StringBind 1 0)) ∧
    mysql_bind_set._wrappers bs' !! 0 = Some None.
Proof.
  split.
  - apply (proj1 set_variable_index_check). vm_compute. lia.
  - destruct (proj2 set_variable_index_check (mysql_bind_set.mysql_bind_set 2)
                1 (string_ref 0)) as (bs' & Hset & _ & _ & Hnew & Hold).
    + reflexivity.
    + vm_compute. lia.
    + exists bs'. split; [exact Hset|]. split; [exact Hnew|].
      rewrite (Hold 0) by lia. reflexivity.
Defined.

Lemma phase_hooks_need_bound_slots_witness :
  mysql_bind_set.pre_execute (mysql_bind_set.mysql_bind_set 2) empty_memory = Undefined ∧
  mysql_bind_set.pre_fetch (mysql_bind_set.mysql_bind_set 2) empty_memory = Undefined ∧
  (∃ r, mysql_bind_set.pre_fetch (prepared_stmt.result_binds demo_stmt) empty_memory
        = Returns r).
Proof.
  destruct phase_hooks_need_bound_slots as (Hnew & Hnull & Hbound).
  destruct (Hnull (mysql_bind_set.mysql_bind_set 2) empty_memory 1) as (H1 & H2 & _).
  - apply Hnew. lia.
  - split; [exact H1|]. split; [exact H2|].
    apply Hbound; [concrete_wf | concrete_all_bound].
Defined.

Lemma execute_returns_bool_witness :
  ∃ s m e,
    prepared_stmt.execute script.api demo_stmt memory_with_42 demo_engine
    = Returns (true, s, m, e) ∧
    bind_set_wf (prepared_stmt.param_binds s) ∧
    all_bound (prepared_stmt.param_binds s).
Proof.
  destruct (execute_returns_bool script.api demo_stmt memory_with_42 demo_engine)
    as (pb & m1 & _ & Hwf & Hall & _ & _ & _ & _ & _ & Htrue).
  - concrete_wf.
  - concrete_all_bound.
  - eexists _, _, _. split; [apply Htrue; reflexivity|]. split; assumption.
Defined.

Lemma constructor_outcomes_witness :
  (prepared_stmt.prepared_stmt script.api demo_connection "SELEC" rejecting_script).1
  = Throws (runtime_error "Failed to prepare stmt: You have an error in your SQL syntax") ∧
  ∃ s,
    (prepared_stmt.prepared_stmt script.api demo_connection "SELECT" demo_script).1
    = Returns s ∧
    mysql_bind_set.size (prepared_stmt.param_binds s) = 1 ∧
    mysql_bind_set.size (prepared_stmt.result_binds s) = 2.
Proof.
  split.
  - apply (proj1 (constructor_outcomes script.api demo_connection "SELEC" rejecting_script)).
    + vm_compute. eexists. reflexivity.
    + vm_compute. discriminate.
  - destruct (proj2 (constructor_outcomes script.api demo_connection "SELECT" demo_script))
      as (s & Hs & _ & _ & Hparams & _ & Hresults).
    + vm_compute. eexists. reflexivity.
    + reflexivity.
    + exists s. split; [exact Hs|]. split; [exact Hparams|].
      apply Hresults. vm_compute. eexists. reflexivity.
Defined.

(** Past the last row [fetch] returns false, and does so again when it is
    called once more. *)
Example fetch_after_last_row :
  ∃ s m e,
    prepared_stmt.fetch script.api demo_stmt empty_memory end_of_rows_script
    = Returns (false, s, m, e) ∧
    ∃ s' m' e',
      prepared_stmt.fetch script.api s m
        {| script.codes := [0; MYSQL_NO_DATA]%Z; script.message := script.message e;
           script.params := script.params e; script.columns := script.columns e;
           script.lengths := script.lengths e |}
      = Returns (false, s', m', e').
Proof.
  eexists _, _, _. split; [vm_compute; reflexivity|].
  eexists _, _, _. vm_compute. reflexivity.
Qed.

(** The scenario of a nullable parameter and a two-column row: [execute]
    returns true, and the [fetch] after it returns true with the string
    column resized to the five bytes the engine reported. *)
Example execute_then_fetch :
  ∃ s m e s' m' e',
    prepared_stmt.execute script.api demo_stmt memory_with_42 demo_engine
    = Returns (true, s, m, e) ∧
    prepared_stmt.fetch script.api s m e = Returns (true, s', m', e') ∧
    length (mem_string m' 0) = 5.
Proof.
  eexists _, _, _, _, _, _. split; [vm_compute; reflexivity|].
  split; vm_compute; reflexivity.
Qed.

(** * Further properties of the bind set *)

Section bind_set_frames.

Import mysql_bind_set.

(** A call through slot [i] of a well-formed set touches slot [i] only. *)
Lemma call_frame {R} (hook : my_bind_base → MYSQL_BIND → memory →
                       outcome (R * my_bind_base * MYSQL_BIND * memory))
    i bs m r bs' m' j :
  bind_set_wf bs → call hook i bs m = Returns (r, bs', m') → j ≠ i →
  _wrappers bs' !! j = _wrappers bs !! j ∧
  _binds_mysql bs' !! j = _binds_mysql bs !! j.
Proof.
  intros [_ Hbind] (w & b & w' & b' & Hw & _ & _ & ->)%call_Returns Hj; simpl.
  rewrite (Hbind _ _ Hw). by rewrite !list_lookup_insert_ne.
Qed.

Lemma call_effect {R} (hook : my_bind_base → MYSQL_BIND → memory →
                        outcome (R * my_bind_base * MYSQL_BIND * memory))
    i bs m r bs' m' :
  bind_set_wf bs → call hook i bs m = Returns (r, bs', m') →
  ∃ w b w' b',
    _wrappers bs !! i = Some (Some w) ∧ _binds_mysql bs !! i = Some b ∧
    hook w b m = Returns (r, w', b', m') ∧
    _wrappers bs' !! i = Some (Some w') ∧ _binds_mysql bs' !! i = Some b'.
Proof.
  intros [Hlen Hbind] (w & b & w' & b' & Hw & Hb & Hh & ->)%call_Returns; simpl.
  rewrite (Hbind _ _ Hw) in *. exists w, b, w', b'.
  pose proof (lookup_lt_Some _ _ _ Hw). pose proof (lookup_lt_Some _ _ _ Hb).
  by rewrite !list_lookup_insert_eq.
Qed.

Section for_each_seq.

Context
  (hook : my_bind_base → MYSQL_BIND → memory →
          outcome (unit * my_bind_base * MYSQL_BIND * memory))
  (Hkeep : hook_keeps_bind hook).

(** A property of the memory that every hook call keeps is kept by the
    loop. *)
Lemma for_each_memory_inv (P : memory → Prop) items bs m bs' m' :
  (∀ w b m r w' b' m', P m → hook w b m = Returns (r, w', b', m') → P m') →
  P m → for_each hook items bs m = Returns (bs', m') → P m'.
Proof using Type.
  intros Hstep. revert bs m.
  induction items as [|i items IH]; intros bs m HP Hrun.
  - simpl in Hrun. by simplify_eq.
  - rewrite for_each_cons in Hrun.
    apply bind_eq_Returns in Hrun as ([[[] bs1] m1] & Hc & Hrun).
    apply call_Returns in Hc as (w & b & w' & b' & _ & _ & Hh & _).
    eapply IH; [|done]. eauto.
Qed.

Lemma for_each_wf items bs m bs' m' :
  bind_set_wf bs → for_each hook items bs m = Returns (bs', m') →
  bind_set_wf bs' ∧ size bs' = size bs.
Proof using Hkeep.
  revert bs m. induction items as [|i items IH]; intros bs m Hwf Hrun.
  - simpl in Hrun. by simplify_eq.
  - rewrite for_each_cons in Hrun.
    apply bind_eq_Returns in Hrun as ([[[] bs1] m1] & Hc & Hrun).
    apply IH in Hrun as [? Hsize]; [|by eapply call_wf].
    split; [done|]. by rewrite Hsize, (call_size _ _ _ _ _ _ _ Hc).
Qed.

(** The loop over the slots [k], ..., [k + len - 1] leaves the other slots
    alone, and leaves in each of its slots what the hook returned for the
    binder and the descriptor the slot held at entry, in a memory that
    satisfies every property the hook calls keep. *)
Lemma for_each_seq_effect (P : memory → Prop) k len bs m bs' m' :
  (∀ w b m r w' b' m', P m → hook w b m = Returns (r, w', b', m') → P m') →
  bind_set_wf bs → P m →
  for_each hook (seq k len) bs m = Returns (bs', m') →
  (∀ j, j < k ∨ k + len ≤ j →
     _wrappers bs' !! j = _wrappers bs !! j ∧
     _binds_mysql bs' !! j = _binds_mysql bs !! j) ∧
  (∀ j, k ≤ j < k + len →
     ∃ w b w' b' mj mj',
       _wrappers bs !! j = Some (Some w) ∧ _binds_mysql bs !! j = Some b ∧
       P mj ∧ hook w b mj = Returns ((), w', b', mj') ∧
       _wrappers bs' !! j = Some (Some w') ∧ _binds_mysql bs' !! j = Some b').
Proof using Hkeep.
  intros Hstep. revert k bs m.
  induction len as [|len IH]; intros k bs m Hwf HP Hrun.
  - simpl in Hrun. simplify_eq. split; [done|]. intros j ?. lia.
  - simpl seq in Hrun. rewrite for_each_cons in Hrun.
    apply bind_eq_Returns in Hrun as ([[[] bs1] m1] & Hc & Hrun).
    pose proof (call_wf _ _ _ _ _ _ _ Hkeep Hc Hwf) as Hwf1.
    destruct (call_effect _ _ _ _ _ _ _ Hwf Hc)
      as (w & b & w' & b' & Hw & Hb & Hh & Hw' & Hb').
    destruct (IH (S k) bs1 m1 Hwf1 (Hstep _ _ _ _ _ _ _ HP Hh) Hrun)
      as [Hframe Heffect].
    split.
    + intros j Hj.
      destruct (Hframe j) as [-> ->]; [lia|].
      apply (call_frame _ _ _ _ _ _ _ _ Hwf Hc). lia.
    + intros j Hj. destruct (decide (j = k)) as [->|Hne].
      * exists w, b, w', b', m, m1.
        destruct (Hframe k) as [-> ->]; [lia|]. done.
      * destruct (Heffect j) as (v & c & v' & c' & mj & mj' & Hv & Hc' & ?);
          [lia|].
        destruct (call_frame _ _ _ _ _ _ _ j Hwf Hc Hne) as [Hwj Hbj].
        rewrite Hwj in Hv. rewrite Hbj in Hc'.
        by exists v, c, v', c', mj, mj'.
Qed.

End for_each_seq.

End bind_set_frames.

Section marshalling.

Import mysql_bind_set.

Lemma virtual_pre_execute_memory w b m r w' b' m' :
  virtual.pre_execute w b m = Returns (r, w', b', m') → m' = m.
Proof.
  destruct w; simpl; intros; by simplify_eq.
Qed.

(** The descriptor a [pre_execute] hook leaves does not depend on the one
    it found, and running the hook again changes nothing more. *)
Lemma virtual_pre_execute_again w b m w' b' b2 :
  virtual.pre_execute w b m = Returns ((), w', b', m) →
  virtual.pre_execute w' b2 m = Returns ((), w', b', m).
Proof.
  destruct w as [| T i p pdata | |]; simpl; intros H; simplify_eq; try done.
  simpl. unfold my_optional_number_bind.pre_execute.
  by destruct (mem_optional_number m p).
Qed.

Lemma pre_execute_Returns_wf bs m bs' m' :
  bind_set_wf bs → pre_execute bs m = Returns (bs', m') →
  bind_set_wf bs' ∧ size bs' = size bs.
Proof. apply for_each_wf, hook_keeps_bind_pre_execute. Qed.

Lemma pre_execute_memory bs m bs' m' :
  pre_execute bs m = Returns (bs', m') → m' = m.
Proof.
  intros Hrun.
  eapply (for_each_memory_inv virtual.pre_execute (λ x, x = m)); [|done|exact Hrun].
  intros w b m0 r w' b' m1 -> H. by eapply virtual_pre_execute_memory.
Qed.

(** What [pre_execute] leaves in each slot. *)
Lemma pre_execute_slots bs m bs' :
  bind_set_wf bs →
  pre_execute bs m = Returns (bs', m) →
  ∀ i, i < size bs →
    ∃ w b w' b',
      _wrappers bs !! i = Some (Some w) ∧ _binds_mysql bs !! i = Some b ∧
      virtual.pre_execute w b m = Returns ((), w', b', m) ∧
      _wrappers bs' !! i = Some (Some w') ∧ _binds_mysql bs' !! i = Some b'.
Proof.
  intros Hwf Hrun i Hi.
  destruct (for_each_seq_effect virtual.pre_execute hook_keeps_bind_pre_execute
              (λ x, x = m) 0 (size bs) bs m bs' m) as [_ Heffect]; try done.
  { intros w b m0 r w' b' m1 -> H. by eapply virtual_pre_execute_memory. }
  destruct (Heffect i) as (w & b & w' & b' & mj & mj' & Hw & Hb & -> & Hh & Hw' & Hb');
    [lia|].
  pose proof (virtual_pre_execute_memory _ _ _ _ _ _ _ Hh) as ->.
  by exists w, b, w', b'.
Qed.

(** X1: [pre_execute] of a bind set never writes the application memory,
    and it leaves in every slot what that slot's own hook makes of the
    binder and the memory at entry, so the order of the slots does not
    matter. *)
Theorem pre_execute_slotwise bs m bs' m' :
  bind_set_wf bs →
  pre_execute bs m = Returns (bs', m') →
  m' = m ∧
  size bs' = size bs ∧
  ∀ i, i < size bs →
    ∃ w b w' b',
      _wrappers bs !! i = Some (Some w) ∧ _binds_mysql bs !! i = Some b ∧
      virtual.pre_execute w b m = Returns ((), w', b', m) ∧
      _wrappers bs' !! i = Some (Some w') ∧ _binds_mysql bs' !! i = Some b'.
Proof.
  intros Hwf Hrun.
  pose proof (pre_execute_memory _ _ _ _ Hrun) as ->.
  split; [done|]. split; [by eapply pre_execute_Returns_wf|].
  by apply pre_execute_slots.
Qed.

Lemma pre_execute_slotwise_witness :
  ∃ bs' b',
    pre_execute (prepared_stmt.param_binds demo_stmt) memory_with_42
    = Returns (bs', memory_with_42) ∧
    _binds_mysql bs' !! 0 = Some b' ∧ buffer b' = pdata_buffer.
Proof.
  destruct (pre_execute (prepared_stmt.param_binds demo_stmt) memory_with_42)
    as [[bs' m']| |] eqn:Hrun; try (vm_compute in Hrun; discriminate).
  assert (bind_set_wf (prepared_stmt.param_binds demo_stmt)) as Hwf by concrete_wf.
  destruct (pre_execute_slotwise _ _ _ _ Hwf Hrun) as (-> & _ & Hslots).
  destruct (Hslots 0 ltac:(vm_compute; lia))
    as (w & b & w' & b' & Hw & Hb & Hh & _ & Hb').
  exists bs', b'. split; [done|]. split; [done|].
  vm_compute in Hw, Hb. simplify_eq. simpl in Hh. by simplify_eq.
Defined.

(** X2: [pre_execute] can be run again: on the bind set and memory a first
    run has left, a second run returns the very same bind set and memory. *)
Theorem pre_execute_idempotent bs m bs1 m1 :
  bind_set_wf bs →
  pre_execute bs m = Returns (bs1, m1) →
  pre_execute bs1 m1 = Returns (bs1, m1).
Proof.
  intros Hwf Hrun.
  pose proof (pre_execute_memory _ _ _ _ Hrun) as ->.
  pose proof (pre_execute_slots _ _ _ Hwf Hrun) as Hslots.
  destruct (pre_execute_Returns_wf _ _ _ _ Hwf Hrun) as [Hwf1 Hsize].
  assert (all_bound bs1) as Hall.
  { apply Forall_lookup_2. intros i o Ho.
    destruct (Hslots i) as (_ & _ & w' & _ & _ & _ & _ & Hw' & _).
    - apply lookup_lt_Some in Ho. unfold size in *. lia.
    - rewrite Hw' in Ho. simplify_eq. by eexists. }
  destruct (for_each_returns virtual.pre_execute (seq 0 (size bs1)) bs1 m)
    as (bs2 & m2 & Hrun2 & Hwf2 & _ & Hsize2);
    auto using hook_total_pre_execute, hook_keeps_bind_pre_execute, seq_in_range.
  fold (pre_execute bs1 m) in Hrun2. rewrite Hrun2.
  pose proof (pre_execute_memory _ _ _ _ Hrun2) as ->.
  pose proof (pre_execute_slots _ _ _ Hwf1 Hrun2) as Hslots2.
  do 2 f_equal.
  assert (∀ i, _wrappers bs2 !! i = _wrappers bs1 !! i ∧
               _binds_mysql bs2 !! i = _binds_mysql bs1 !! i) as Hsame.
  { intros i. destruct (decide (i < size bs)) as [Hi|Hi].
    - destruct (Hslots i Hi) as (w & b & w' & b' & _ & _ & Hh & Hw' & Hb').
      destruct (Hslots2 i) as (v & c & v' & c' & Hv & Hc & Hh2 & -> & ->); [lia|].
      rewrite Hw' in Hv. rewrite Hb' in Hc. simplify_eq.
      rewrite (virtual_pre_execute_again _ _ _ _ _ c Hh) in Hh2. by simplify_eq.
    - destruct Hwf1 as [Hlen1 _], Hwf2 as [Hlen2 _]. unfold size in *.
      rewrite !lookup_ge_None_2; [done|lia..]. }
  destruct bs1, bs2; simpl in *.
  f_equal; apply list_eq; intros i; by destruct (Hsame i).
Qed.

Lemma pre_execute_idempotent_witness :
  ∃ bs1,
    pre_execute (prepared_stmt.param_binds demo_stmt) memory_with_42
    = Returns (bs1, memory_with_42) ∧
    pre_execute bs1 memory_with_42 = Returns (bs1, memory_with_42).
Proof.
  destruct (pre_execute (prepared_stmt.param_binds demo_stmt) memory_with_42)
    as [[bs1 m1]| |] eqn:Hrun; try (vm_compute in Hrun; discriminate).
  assert (bind_set_wf (prepared_stmt.param_binds demo_stmt)) as Hwf by concrete_wf.
  pose proof (pre_execute_idempotent _ _ _ _ Hwf Hrun) as Hagain.
  pose proof (pre_execute_memory _ _ _ _ Hrun) as ->.
  by exists bs1.
Defined.

End marshalling.

Section provisional_buffers.

Import mysql_bind_set.

(** What the loop establishes for each of its slots, when later hook calls
    cannot undo it. *)
Lemma for_each_seq_post hook (Post : my_bind_base → MYSQL_BIND → memory → Prop)
    k len bs m bs' m' :
  hook_keeps_bind hook →
  (∀ w b m r w' b' m', hook w b m = Returns (r, w', b', m') → Post w' b' m') →
  (∀ w0 b0 w b m r w' b' m',
     Post w0 b0 m → hook w b m = Returns (r, w', b', m') → Post w0 b0 m') →
  bind_set_wf bs →
  for_each hook (seq k len) bs m = Returns (bs', m') →
  ∀ j w b, k ≤ j < k + len →
    _wrappers bs' !! j = Some (Some w) → _binds_mysql bs' !! j = Some b →
    Post w b m'.
Proof.
  intros Hkeep Hest Hstable. revert k bs m.
  induction len as [|len IH]; intros k bs m Hwf Hrun j v c Hj Hv Hc; [lia|].
  simpl seq in Hrun. rewrite for_each_cons in Hrun.
  apply bind_eq_Returns in Hrun as ([[[] bs1] m1] & Hcall & Hrun).
  pose proof (call_wf _ _ _ _ _ _ _ Hkeep Hcall Hwf) as Hwf1.
  destruct (decide (j = k)) as [->|Hne].
  - destruct (call_effect _ _ _ _ _ _ _ Hwf Hcall)
      as (w & b & w' & b' & _ & _ & Hh & Hw' & Hb').
    destruct (for_each_seq_effect hook Hkeep (λ _, True) (S k) len bs1 m1 bs' m')
      as [Hframe _]; try done.
    destruct (Hframe k) as [Hwk Hbk]; [lia|].
    rewrite Hwk, Hw' in Hv. rewrite Hbk, Hb' in Hc. simplify_eq.
    eapply (for_each_memory_inv hook (Post v c)); [|by eapply Hest|exact Hrun].
    intros; by eapply Hstable.
  - eapply (IH (S k) bs1 m1); eauto. lia.
Qed.

Lemma virtual_pre_fetch_binder w b m r w' b' m' :
  virtual.pre_fetch w b m = Returns (r, w', b', m') → w' = w.
Proof. destruct w; simpl; intros; by simplify_eq. Qed.

Lemma virtual_pre_fetch_numbers w b m r w' b' m' :
  virtual.pre_fetch w b m = Returns (r, w', b', m') →
  mem_number m' = mem_number m ∧ mem_optional_number m' = mem_optional_number m.
Proof. destruct w; simpl; intros; by simplify_eq. Qed.

Lemma virtual_pre_fetch_provisional w b m r w' b' m' :
  virtual.pre_fetch w b m = Returns (r, w', b', m') → provisional w' b' m'.
Proof.
  destruct w; simpl; intros; simplify_eq; split; simpl;
    rewrite ?fn_lookup_insert, ?length_string_resize; eauto.
Qed.

(** A later [pre_fetch] hook, also one on the same variable, leaves a slot
    provisional: it resizes to one byte again. *)
Lemma virtual_pre_fetch_stable w0 b0 w b m r w' b' m' :
  provisional w0 b0 m →
  virtual.pre_fetch w b m = Returns (r, w', b', m') → provisional w0 b0 m'.
Proof.
  intros [Hfit Hlen] Hh. split; [|done].
  destruct w as [| | i p | i p]; simpl in Hh; simplify_eq; try done.
  - destruct w0 as [| | i0 p0 | i0 p0]; simpl in *; try done.
    destruct (decide (p = p0)) as [->|Hne].
    + rewrite fn_lookup_insert, length_string_resize. by destruct Hfit.
    + by rewrite fn_lookup_insert_ne.
  - destruct w0 as [| | i0 p0 | i0 p0]; simpl in *; try done.
    destruct Hfit as (? & s & Hs & Hls). split; [done|].
    destruct (decide (p = p0)) as [->|Hne].
    + rewrite fn_lookup_insert. eexists. split; [done|]. simpl. congruence.
    + rewrite fn_lookup_insert_ne by done. eauto.
Qed.

(** X3: after [pre_fetch] of a well-formed bind set the engine can fetch
    safely: every slot's descriptor points at the storage of its bound
    variable, and every string and nullable string slot offers a buffer of
    one byte that is exactly the size of the bound string, also when one
    variable is bound to several slots.  The binders are as before, and no
    bound number or nullable number has been written. *)
Theorem pre_fetch_provisional bs m bs' m' :
  bind_set_wf bs →
  pre_fetch bs m = Returns (bs', m') →
  _wrappers bs' = _wrappers bs ∧
  mem_number m' = mem_number m ∧
  mem_optional_number m' = mem_optional_number m ∧
  ∀ i w b,
    _wrappers bs' !! i = Some (Some w) → _binds_mysql bs' !! i = Some b →
    provisional w b m'.
Proof.
  intros Hwf Hrun.
  destruct (for_each_wf virtual.pre_fetch hook_keeps_bind_pre_fetch _ _ _ _ _ Hwf Hrun)
    as [[Hlen' _] Hsize].
  destruct (for_each_seq_effect virtual.pre_fetch hook_keeps_bind_pre_fetch
              (λ _, True) 0 (size bs) bs m bs' m') as [_ Heffect]; try done.
  split; [|split; [|split]].
  - apply list_eq. intros i. destruct (decide (i < size bs)) as [Hi|Hi].
    + destruct (Heffect i) as (w & b & w' & b' & mj & mj' & Hw & _ & _ & Hh & Hw' & _);
        [lia|].
      apply virtual_pre_fetch_binder in Hh as ->. congruence.
    + unfold size in *. rewrite !lookup_ge_None_2; [done|lia..].
  - eapply (for_each_memory_inv virtual.pre_fetch
              (λ x, mem_number x = mem_number m)); [|done|exact Hrun].
    intros w b m0 r w' b' m1 <- H. by apply virtual_pre_fetch_numbers in H as [-> _].
  - eapply (for_each_memory_inv virtual.pre_fetch
              (λ x, mem_optional_number x = mem_optional_number m)); [|done|exact Hrun].
    intros w b m0 r w' b' m1 <- H. by apply virtual_pre_fetch_numbers in H as [_ ->].
  - intros i w b Hw Hb.
    eapply (for_each_seq_post virtual.pre_fetch provisional 0 (size bs));
      eauto using hook_keeps_bind_pre_fetch, virtual_pre_fetch_provisional,
        virtual_pre_fetch_stable.
    apply lookup_lt_Some in Hw. unfold size in *. lia.
Qed.

Lemma pre_fetch_provisional_witness :
  ∃ bs' m' b,
    pre_fetch (prepared_stmt.result_binds demo_stmt) empty_memory = Returns (bs', m') ∧
    _binds_mysql bs' !! 0 = Some b ∧
    buffer_length b = 1 ∧ length (mem_string m' 0) = 1.
Proof.
  assert (bind_set_wf (prepared_stmt.result_binds demo_stmt)) as Hwf by concrete_wf.
  destruct (pre_fetch (prepared_stmt.result_binds demo_stmt) empty_memory)
    as [[bs' m']| |] eqn:Hrun; try (vm_compute in Hrun; discriminate).
  destruct (pre_fetch_provisional _ _ _ _ Hwf Hrun) as (Hws & _ & _ & Hslots).
  destruct (lookup_lt_is_Some_2 (_binds_mysql bs') 0) as [b Hb].
  { destruct (for_each_wf virtual.pre_fetch hook_keeps_bind_pre_fetch _ _ _ _ _ Hwf Hrun)
      as [[-> _] ->]. vm_compute. lia. }
  destruct (Hslots 0 (StringBind 0 0) b) as [[_ Hfit] Hone]; [by rewrite Hws|done|].
  exists bs', m', b. simpl in *. split; [done|]. split; [done|]. split; congruence.
Defined.

End provisional_buffers.

Section refetch_set.

Import mysql_bind_set.

Lemma filter_seq_agree (P Q : nat → Prop) `{!∀ x, Decision (P x), !∀ x, Decision (Q x)}
    k len :
  (∀ j, k ≤ j < k + len → P j ↔ Q j) →
  filter P (seq k len) = filter Q (seq k len).
Proof.
  revert k. induction len as [|len IH]; intros k Hagree; [done|].
  simpl seq. rewrite !filter_cons.
  rewrite (IH (S k)) by (intros j ?; apply Hagree; lia).
  destruct (decide (P k)) as [HP|HP], (decide (Q k)) as [HQ|HQ]; try done.
  - destruct HQ. apply Hagree; [lia|done].
  - destruct HP. apply Hagree; [lia|done].
Qed.

(** The elements a filter keeps of [seq k len] come in increasing order. *)
Lemma filter_seq_increasing (P : nat → Prop) `{!∀ x, Decision (P x)} k len a b x y :
  a < b →
  filter P (seq k len) !! a = Some x → filter P (seq k len) !! b = Some y →
  x < y.
Proof.
  revert k a b. induction len as [|len IH]; intros k a b Hab Hx Hy; [done|].
  simpl seq in *. rewrite filter_cons in Hx, Hy.
  destruct (decide (P k)); [|by eapply (IH (S k))].
  destruct b as [|b]; [lia|]. simpl in Hy.
  destruct a as [|a]; simpl in Hx.
  - simplify_eq.
    apply list_elem_of_lookup_2, list_elem_of_filter in Hy as [_ Hy].
    apply elem_of_seq in Hy. lia.
  - eapply (IH (S k) a b); [lia|done..].
Qed.

Lemma virtual_post_fetch_answer w b m r w' b' m' :
  virtual.post_fetch w b m = Returns (r, w', b', m') →
  r = reports_data w b ∧ w' = w ∧ length_value b' = length_value b.
Proof.
  destruct w as [| T i p pdata | i p | i p]; simpl; intros H.
  - by simplify_eq.
  - unfold my_optional_number_bind.post_fetch in H.
    destruct (is_null_value b); by simplify_eq.
  - unfold my_bind_string.post_fetch in H. case_bool_decide; by simplify_eq.
  - apply bind_eq_Returns in H as ([[r0 b0] m0] & H & ?). simplify_eq.
    unfold my_bind_optional_string.post_fetch in H.
    destruct (is_null_value b); [by simplify_eq|].
    destruct (mem_optional_string m p); [|done].
    case_bool_decide; by simplify_eq.
Qed.

Lemma call_post_fetch_wrappers i bs m r bs' m' :
  call virtual.post_fetch i bs m = Returns (r, bs', m') →
  _wrappers bs' = _wrappers bs.
Proof.
  intros (w & b & w' & b' & Hw & _ & Hh & ->)%call_Returns; simpl.
  apply virtual_post_fetch_answer in Hh as (_ & -> & _).
  by apply list_insert_id.
Qed.

Lemma post_fetch_loop_wf items res bs m refetch bs' m' :
  bind_set_wf bs →
  post_fetch_loop items res bs m = Returns (refetch, bs', m') →
  bind_set_wf bs' ∧ _wrappers bs' = _wrappers bs.
Proof.
  revert res bs m. induction items as [|i items IH]; intros res bs m Hwf Hrun.
  - simpl in Hrun. by simplify_eq.
  - rewrite post_fetch_loop_cons in Hrun.
    apply bind_eq_Returns in Hrun as ([[r bs1] m1] & Hc & Hrun).
    apply IH in Hrun as [? ->];
      [|by eapply call_wf; eauto using hook_keeps_bind_post_fetch].
    split; [done|]. by eapply call_post_fetch_wrappers.
Qed.

(** The loop of [post_fetch] over the slots [k], ..., [k + len - 1] adds to
    the indices it was given those of its slots that asked for a refetch
    at entry, in order, and leaves the other slots alone. *)
Lemma post_fetch_loop_seq k len res bs m refetch bs' m' :
  bind_set_wf bs →
  post_fetch_loop (seq k len) res bs m = Returns (refetch, bs', m') →
  refetch = res ++ filter (λ i, flagged bs i) (seq k len) ∧
  ∀ j, j < k ∨ k + len ≤ j →
    _wrappers bs' !! j = _wrappers bs !! j ∧
    _binds_mysql bs' !! j = _binds_mysql bs !! j.
Proof.
  revert k res bs m. induction len as [|len IH]; intros k res bs m Hwf Hrun.
  - simpl in Hrun. simplify_eq. by rewrite app_nil_r.
  - simpl seq in Hrun. rewrite post_fetch_loop_cons in Hrun.
    apply bind_eq_Returns in Hrun as ([[r bs1] m1] & Hc & Hrun).
    pose proof (call_wf _ _ _ _ _ _ _ hook_keeps_bind_post_fetch Hc Hwf) as Hwf1.
    destruct (call_effect _ _ _ _ _ _ _ Hwf Hc)
      as (w & b & w' & b' & Hw & Hb & Hh & _).
    apply virtual_post_fetch_answer in Hh as (Hr & _).
    apply IH in Hrun as [-> Hframe]; [|done].
    assert (∀ j, j ≠ k → flagged bs1 j = flagged bs j) as Hflag.
    { intros j Hj. unfold flagged.
      by destruct (call_frame _ _ _ _ _ _ _ j Hwf Hc Hj) as [-> ->]. }
    split.
    + simpl seq. rewrite filter_cons.
      rewrite (filter_seq_agree (λ i, flagged bs1 i) (λ i, flagged bs i) (S k) len)
        by (intros j ?; rewrite Hflag; [done|lia]).
      assert (flagged bs k = r) as Hk by (unfold flagged; by rewrite Hw, Hb).
      destruct (decide (flagged bs k)) as [Hyes|Hno]; rewrite Hk in *.
      * destruct r; [|done]. by rewrite <- (assoc_L (++)).
      * by destruct r.
    + intros j Hj. destruct (Hframe j) as [-> ->]; [lia|].
      apply (call_frame _ _ _ _ _ _ _ j Hwf Hc). lia.
Qed.

(** X4: the indices [post_fetch] of a well-formed bind set returns are
    exactly the slots that asked for a refetch at entry: the string slots,
    and the nullable string slots that are not null, whose descriptor holds
    a positive reported length.  They come in increasing order, so each
    column is refetched at most once, and no number slot is among them. *)
Theorem post_fetch_refetch_set bs m refetch bs' m' :
  bind_set_wf bs →
  post_fetch bs m = Returns (refetch, bs', m') →
  refetch = filter (λ i, flagged bs i) (seq 0 (size bs)) ∧
  (∀ a b x y, a < b → refetch !! a = Some x → refetch !! b = Some y → x < y) ∧
  (∀ i, i ∈ refetch →
     i < size bs ∧
     ∃ p, _wrappers bs !! i = Some (Some (StringBind i p)) ∨
          _wrappers bs !! i = Some (Some (OptionalStringBind i p))).
Proof.
  intros Hwf Hrun.
  apply post_fetch_loop_seq in Hrun as [-> _]; [|done]. simpl.
  split; [done|]. split.
  - intros a b x y. apply filter_seq_increasing.
  - intros i [Hflag Hi]%list_elem_of_filter. apply elem_of_seq in Hi.
    split; [lia|]. unfold flagged in Hflag. destruct Hwf as [_ Hbind].
    destruct (_wrappers bs !! i) as [[w|]|] eqn:Hw; try done.
    destruct (_binds_mysql bs !! i) as [b|]; [|done].
    pose proof (Hbind _ _ Hw) as Hbw.
    destruct w as [| | j p | j p]; simpl in *; try done; subst; eauto.
Qed.

Lemma post_fetch_refetch_set_witness :
  ∃ bs' m', post_fetch aliased_set empty_memory = Returns ([0; 1], bs', m').
Proof.
  assert (bind_set_wf aliased_set) as Hwf by concrete_wf.
  destruct (post_fetch aliased_set empty_memory) as [[[refetch bs'] m']| |] eqn:Hrun;
    try (vm_compute in Hrun; discriminate).
  destruct (post_fetch_refetch_set _ _ _ _ _ Hwf Hrun) as (-> & _).
  by exists bs', m'.
Defined.

End refetch_set.

Section refetch_buffers.

Import mysql_bind_set.

(** A slot that asks for a refetch leaves [post_fetch] with a buffer of
    exactly the reported length, which is the size of the bound string. *)
Lemma virtual_post_fetch_fits w b m w' b' m' :
  virtual.post_fetch w b m = Returns (true, w', b', m') →
  buffer_fits w' b' m' ∧ buffer_length b' = length_value b'.
Proof.
  destruct w as [| T i p pdata | i p | i p]; simpl; intros H.
  - by simplify_eq.
  - unfold my_optional_number_bind.post_fetch in H.
    destruct (is_null_value b); by simplify_eq.
  - unfold my_bind_string.post_fetch in H. case_bool_decide; simplify_eq.
    simpl. rewrite !fn_lookup_insert, length_string_resize. done.
  - apply bind_eq_Returns in H as ([[r0 b0] m0] & H & ?). simplify_eq.
    unfold my_bind_optional_string.post_fetch in H.
    destruct (is_null_value b); [by simplify_eq|].
    destruct (mem_optional_string m p); [|done].
    case_bool_decide; simplify_eq.
    simpl. rewrite !fn_lookup_insert, length_string_resize.
    split; [|done]. split; [done|]. eexists. split; [done|].
    by rewrite length_string_resize.
Qed.

(** A [post_fetch] hook of a binder with other storage does not change
    whether a buffer fits. *)
Lemma virtual_post_fetch_fits_stable w0 b0 w b m r w' b' m' :
  ¬ same_storage w0 w →
  buffer_fits w0 b0 m →
  virtual.post_fetch w b m = Returns (r, w', b', m') →
  buffer_fits w0 b0 m'.
Proof.
  intros Hother Hfit H.
  destruct w as [| T i p pdata | i p | i p]; simpl in H.
  - by simplify_eq.
  - unfold my_optional_number_bind.post_fetch in H.
    destruct (is_null_value b); simplify_eq; by destruct w0.
  - unfold my_bind_string.post_fetch in H.
    destruct w0 as [| | i0 p0 | i0 p0]; simpl in *;
      case_bool_decide; simplify_eq; simpl; try done;
      by rewrite fn_lookup_insert_ne by congruence.
  - apply bind_eq_Returns in H as ([[r0 b1] m0] & H & ?). simplify_eq.
    unfold my_bind_optional_string.post_fetch in H.
    destruct w0 as [| | i0 p0 | i0 p0]; simpl in *;
      destruct (is_null_value b); simplify_eq; simpl; try done;
      try (destruct (mem_optional_string m p); [|done];
           case_bool_decide; simplify_eq; simpl; try done);
      by rewrite fn_lookup_insert_ne by congruence.
Qed.

(** A property of the memory that the hooks of the looped slots keep is
    kept by the loop of [post_fetch]. *)
Lemma post_fetch_loop_memory_inv (P : memory → Prop) items res bs m refetch bs' m' :
  (∀ i w b m r w' b' m',
     i ∈ items → _wrappers bs !! i = Some (Some w) →
     P m → virtual.post_fetch w b m = Returns (r, w', b', m') → P m') →
  P m →
  post_fetch_loop items res bs m = Returns (refetch, bs', m') →
  P m'.
Proof.
  revert res bs m. induction items as [|i items IH]; intros res bs m Hstep HP Hrun.
  - simpl in Hrun. by simplify_eq.
  - rewrite post_fetch_loop_cons in Hrun.
    apply bind_eq_Returns in Hrun as ([[r bs1] m1] & Hc & Hrun).
    pose proof (call_post_fetch_wrappers _ _ _ _ _ _ Hc) as Hws.
    apply call_Returns in Hc as (w & b & w' & b' & Hw & _ & Hh & _).
    eapply IH; [| |exact Hrun].
    + intros j v c m0 r0 v' c' m0' Hj Hv. rewrite Hws in Hv.
      eapply Hstep; [|done]. apply elem_of_cons. by right.
    + eapply Hstep; [|done..]. apply elem_of_cons. by left.
Qed.

Lemma post_fetch_loop_fits k len res bs m refetch bs' m' :
  bind_set_wf bs → unaliased bs →
  post_fetch_loop (seq k len) res bs m = Returns (refetch, bs', m') →
  ∀ j w b, k ≤ j < k + len → flagged bs j →
    _wrappers bs' !! j = Some (Some w) → _binds_mysql bs' !! j = Some b →
    buffer_fits w b m' ∧ buffer_length b = length_value b.
Proof.
  revert k res bs m. induction len as [|len IH];
    intros k res bs m Hwf Hun Hrun j v c Hj Hflag Hv Hc; [lia|].
  simpl seq in Hrun. rewrite post_fetch_loop_cons in Hrun.
  apply bind_eq_Returns in Hrun as ([[r bs1] m1] & Hcall & Hrun).
  pose proof (call_wf _ _ _ _ _ _ _ hook_keeps_bind_post_fetch Hcall Hwf) as Hwf1.
  pose proof (call_post_fetch_wrappers _ _ _ _ _ _ Hcall) as Hws.
  assert (unaliased bs1) as Hun1 by (unfold unaliased; by rewrite Hws).
  destruct (decide (j = k)) as [->|Hne].
  - destruct (call_effect _ _ _ _ _ _ _ Hwf Hcall)
      as (w & b & w' & b' & Hw & Hb & Hh & Hw' & Hb').
    pose proof (virtual_post_fetch_answer _ _ _ _ _ _ _ Hh) as (Hr & -> & _).
    assert (r = true) as ->.
    { unfold flagged in Hflag. rewrite Hw, Hb in Hflag. rewrite Hr.
      by destruct (reports_data w b). }
    destruct (post_fetch_loop_seq _ _ _ _ _ _ _ _ Hwf1 Hrun) as [_ Hframe].
    destruct (Hframe k) as [Hwk Hbk]; [lia|].
    rewrite Hwk, Hw' in Hv. rewrite Hbk, Hb' in Hc. simplify_eq.
    destruct (virtual_post_fetch_fits _ _ _ _ _ _ Hh) as [Hfit Hlen].
    split; [|done].
    eapply (post_fetch_loop_memory_inv (buffer_fits v c)); [|exact Hfit|exact Hrun].
    intros i w b0 m0 r0 w' b0' m0' Hi Hwi Hfit0 Hh0.
    eapply virtual_post_fetch_fits_stable; [|done..].
    apply elem_of_seq in Hi. apply (Hun1 k i); [lia|by rewrite Hws|done].
  - eapply (IH (S k) _ bs1 m1); eauto; [lia|].
    unfold flagged in *.
    by destruct (call_frame _ _ _ _ _ _ _ j Hwf Hcall Hne) as [-> ->].
Qed.

(** X5: when no string variable is bound to two slots, every slot
    [post_fetch] flags for a refetch has, in the memory [post_fetch]
    leaves, a descriptor whose buffer is the bound string and whose buffer
    length is both the length the engine reported and the size of that
    string: the column refetch cannot write past the string. *)
Theorem post_fetch_refetch_buffers_fit bs m refetch bs' m' :
  bind_set_wf bs → unaliased bs →
  post_fetch bs m = Returns (refetch, bs', m') →
  ∀ i w b,
    i ∈ refetch →
    _wrappers bs' !! i = Some (Some w) → _binds_mysql bs' !! i = Some b →
    buffer_fits w b m' ∧ buffer_length b = length_value b.
Proof.
  intros Hwf Hun Hrun i w b Hi Hw Hb.
  destruct (post_fetch_loop_seq _ _ _ _ _ _ _ _ Hwf Hrun) as [-> _]. simpl in Hi.
  apply list_elem_of_filter in Hi as [Hflag Hi]. apply elem_of_seq in Hi.
  eapply (post_fetch_loop_fits 0 (size bs)); eauto.
Qed.

Lemma post_fetch_refetch_buffers_fit_witness :
  ∃ bs' m' b,
    post_fetch reported_set demo_after_pre_fetch.2 = Returns ([0], bs', m') ∧
    _binds_mysql bs' !! 0 = Some b ∧
    buffer_length b = 5 ∧ length (mem_string m' 0) = 5.
Proof.
  assert (bind_set_wf reported_set) as Hwf by concrete_wf.
  assert (unaliased reported_set) as Hun.
  { intros i j wi wj Hne Hi Hj.
    do 3 (try destruct i as [|i]); do 3 (try destruct j as [|j]);
      vm_compute in Hi, Hj; simplify_eq; simpl; tauto. }
  destruct (post_fetch reported_set demo_after_pre_fetch.2)
    as [[[refetch bs'] m']| |] eqn:Hrun; try (vm_compute in Hrun; discriminate).
  pose proof (post_fetch_refetch_buffers_fit _ _ _ _ _ Hwf Hun Hrun) as Hfits.
  assert (refetch = [0]) as -> by (vm_compute in Hrun; by simplify_eq).
  destruct (post_fetch_loop_wf _ _ _ _ _ _ _ Hwf Hrun) as [[Hlen _] Hws].
  destruct (lookup_lt_is_Some_2 (_binds_mysql bs') 0) as [b Hb].
  { rewrite Hlen. unfold size. rewrite Hws. vm_compute. lia. }
  destruct (Hfits 0 (StringBind 0 0) b) as [[_ Hfit] Hlv].
  - apply list_elem_of_singleton. reflexivity.
  - rewrite Hws. reflexivity.
  - exact Hb.
  - exists bs', m', b. split; [done|]. split; [done|].
    assert (length_value b = 5) as H5.
    { vm_compute in Hrun. simplify_eq. vm_compute in Hb. by simplify_eq. }
    simpl in Hfit. split; congruence.
Defined.

(** Without that condition the conclusion fails: with one string bound to
    both columns, the first column's descriptor announces five bytes while
    the string has been resized to the two bytes of the second. *)
Example post_fetch_aliased_buffer_too_long :
  ∃ bs' m' b,
    post_fetch aliased_set empty_memory = Returns ([0; 1], bs', m') ∧
    _binds_mysql bs' !! 0 = Some b ∧
    buffer b = string_buffer 0 ∧ buffer_length b = 5 ∧
    length (mem_string m' 0) = 2.
Proof. eexists _, _, _. split; [vm_compute; reflexivity|]. by vm_compute. Qed.

End refetch_buffers.

Section binding.

Import mysql_bind_set.

Lemma set_variable_in_range idx arg bs :
  length (_binds_mysql bs) = size bs → idx < size bs →
  set_variable idx arg bs
  = (Returns (),
     {| _binds_mysql := _binds_mysql bs;
        _wrappers := <[idx := Some (make_wrap idx arg)]> (_wrappers bs) |}).
Proof.
  intros Hlen Hidx. unfold set_variable.
  by rewrite !bool_decide_eq_false_2 by lia.
Qed.

Lemma bind_variables_impl_cons idx arg args bs :
  bind_variables_impl idx (arg :: args) bs
  = match set_variable idx arg bs with
    | (Returns _, bs) =>
        match args with
        | [] => (Returns (), bs)
        | _ :: _ => bind_variables_impl (idx + 1) args bs
        end
    | failed => failed
    end.
Proof. reflexivity. Qed.

Lemma bind_variables_impl_fits idx args bs :
  length (_binds_mysql bs) = size bs → idx + length args ≤ size bs →
  ∃ bs',
    bind_variables_impl idx args bs = (Returns (), bs') ∧
    _binds_mysql bs' = _binds_mysql bs ∧
    size bs' = size bs ∧
    (∀ j arg, args !! j = Some arg →
       _wrappers bs' !! (idx + j) = Some (Some (make_wrap (idx + j) arg))) ∧
    (∀ i, i < idx ∨ idx + length args ≤ i →
       _wrappers bs' !! i = _wrappers bs !! i).
Proof.
  revert idx bs. induction args as [|arg args IH]; intros idx bs Hlen Hfit.
  - exists bs. by repeat split.
  - simpl in Hfit. rewrite bind_variables_impl_cons.
    rewrite set_variable_in_range by (done || lia).
    set (bs1 := {| _binds_mysql := _binds_mysql bs;
                   _wrappers := <[idx:=Some (make_wrap idx arg)]> (_wrappers bs) |}).
    assert (size bs1 = size bs) as Hsize1 by apply length_insert.
    assert (_wrappers bs1 !! idx = Some (Some (make_wrap idx arg))) as Hidx.
    { apply list_lookup_insert_eq. unfold size in *. lia. }
    destruct args as [|arg' args].
    + exists bs1. split; [done|]. split; [done|]. split; [done|]. split.
      * intros [|j] a Ha; simplify_eq/=. by rewrite Nat.add_0_r.
      * intros i Hi. simpl. apply list_lookup_insert_ne. simpl in Hi. lia.
    + destruct (IH (idx + 1) bs1) as (bs' & Hrun & Hbinds & Hsize & Hnew & Hold).
      * by rewrite Hsize1.
      * rewrite Hsize1. simpl in *. lia.
      * exists bs'. split; [done|]. split; [by rewrite Hbinds|].
        split; [by rewrite Hsize|]. split.
        -- intros [|j] a Ha; simplify_eq/=.
           ++ rewrite Nat.add_0_r, Hold by lia. done.
           ++ replace (idx + S j) with (idx + 1 + j) by lia. by apply Hnew.
        -- intros i Hi. rewrite Hold by (simpl in *; lia).
           simpl. apply list_lookup_insert_ne. simpl in Hi. lia.
Qed.

Lemma bind_variables_impl_overflow idx args bs :
  length (_binds_mysql bs) = size bs →
  idx ≤ size bs → size bs < idx + length args →
  ∃ bs',
    bind_variables_impl idx args bs
    = (Throws (out_of_range "Invalid binding index"), bs') ∧
    _binds_mysql bs' = _binds_mysql bs ∧
    size bs' = size bs ∧
    (∀ j arg, idx + j < size bs → args !! j = Some arg →
       _wrappers bs' !! (idx + j) = Some (Some (make_wrap (idx + j) arg))) ∧
    (∀ i, i < idx → _wrappers bs' !! i = _wrappers bs !! i).
Proof.
  revert idx bs. induction args as [|arg args IH]; intros idx bs Hlen Hle Hover.
  - simpl in Hover. lia.
  - rewrite bind_variables_impl_cons.
    destruct (decide (idx = size bs)) as [->|Hne].
    + unfold set_variable. rewrite bool_decide_eq_true_2 by lia.
      exists bs. do 3 (split; [done|]). split; [|done]. intros; lia.
    + rewrite set_variable_in_range by (done || lia).
      set (bs1 := {| _binds_mysql := _binds_mysql bs;
                     _wrappers := <[idx:=Some (make_wrap idx arg)]> (_wrappers bs) |}).
      assert (size bs1 = size bs) as Hsize1 by apply length_insert.
      destruct args as [|arg' args]; [simpl in Hover; lia|].
      destruct (IH (idx + 1) bs1) as (bs' & Hrun & Hbinds & Hsize & Hnew & Hold).
      * by rewrite Hsize1.
      * rewrite Hsize1. lia.
      * rewrite Hsize1. simpl in *. lia.
      * exists bs'. split; [done|]. split; [by rewrite Hbinds|].
        split; [by rewrite Hsize|]. split.
        -- intros [|j] a Hj Ha; simplify_eq/=.
           ++ rewrite Nat.add_0_r, Hold by lia.
              apply list_lookup_insert_eq. unfold size in *. lia.
           ++ replace (idx + S j) with (idx + 1 + j) by lia.
              apply Hnew; [rewrite Hsize1; lia|done].
        -- intros i Hi. rewrite Hold by lia.
           simpl. apply list_lookup_insert_ne. lia.
Qed.

(** X6: [bind_variables] with no more references than the set has slots
    returns, binds the references to the slots from the first on, in the
    order given, each slot getting a new binder for its reference, and
    leaves the remaining slots and every descriptor as they were. *)
Theorem bind_variables_positional args bs :
  length (_binds_mysql bs) = size bs →
  length args ≤ size bs →
  ∃ bs',
    bind_variables args bs = (Returns (), bs') ∧
    _binds_mysql bs' = _binds_mysql bs ∧
    size bs' = size bs ∧
    (∀ j arg, args !! j = Some arg →
       _wrappers bs' !! j = Some (Some (make_wrap j arg))) ∧
    (∀ i, length args ≤ i → _wrappers bs' !! i = _wrappers bs !! i).
Proof.
  intros Hlen Hfit.
  destruct (bind_variables_impl_fits 0 args bs Hlen) as (bs' & ? & ? & ? & Hnew & Hold);
    [done|].
  exists bs'. do 3 (split; [done|]). split.
  - intros j arg. apply (Hnew j arg).
  - intros i Hi. apply Hold. lia.
Qed.

Lemma bind_variables_positional_witness :
  ∃ bs',
    bind_variables [string_ref 7; number_ref uint64_t 3] (mysql_bind_set 3)
    = (Returns (), bs') ∧
    _wrappers bs' !! 1 = Some (Some (NumberBind uint64_t 1 3)) ∧
    _wrappers bs' !! 2 = Some None.
Proof.
  destruct (bind_variables_positional [string_ref 7; number_ref uint64_t 3]
              (mysql_bind_set 3)) as (bs' & Hrun & _ & _ & Hnew & Hold).
  - reflexivity.
  - vm_compute. lia.
  - exists bs'. split; [done|]. split.
    + exact (Hnew 1 _ eq_refl).
    + rewrite (Hold 2) by (simpl; lia). reflexivity.
Defined.

(** X7: [bind_variables] with more references than the set has slots
    throws [out_of_range], but only after it has bound every slot of the
    set to the reference of its position: the failed call leaves the set
    fully bound, with its descriptors as they were. *)
Theorem bind_variables_too_many args bs :
  length (_binds_mysql bs) = size bs →
  size bs < length args →
  ∃ bs',
    bind_variables args bs
    = (Throws (out_of_range "Invalid binding index"), bs') ∧
    _binds_mysql bs' = _binds_mysql bs ∧
    size bs' = size bs ∧
    all_bound bs' ∧
    ∀ j arg, j < size bs → args !! j = Some arg →
      _wrappers bs' !! j = Some (Some (make_wrap j arg)).
Proof.
  intros Hlen Hover.
  destruct (bind_variables_impl_overflow 0 args bs Hlen)
    as (bs' & ? & ? & Hsize & Hnew & _); [lia..|].
  exists bs'. do 3 (split; [done|]).
  assert (∀ j arg, j < size bs → args !! j = Some arg →
            _wrappers bs' !! j = Some (Some (make_wrap j arg))) as Hslots.
  { intros j arg Hj Ha. by apply (Hnew j arg). }
  split; [|done].
  apply Forall_lookup_2. intros j o Ho.
  pose proof (lookup_lt_Some _ _ _ Ho) as Hj. fold (size bs') in Hj.
  destruct (lookup_lt_is_Some_2 args j) as [arg Ha]; [lia|].
  rewrite (Hslots j arg) in Ho by (done || lia). simplify_eq. by eexists.
Qed.

Lemma bind_variables_too_many_witness :
  ∃ bs',
    bind_variables [string_ref 7; number_ref uint64_t 3] (mysql_bind_set 1)
    = (Throws (out_of_range "Invalid binding index"), bs') ∧
    _wrappers bs' = [Some (StringBind 0 7)].
Proof.
  destruct (bind_variables_too_many [string_ref 7; number_ref uint64_t 3]
              (mysql_bind_set 1)) as (bs' & Hrun & _ & Hsize & _ & Hnew).
  - reflexivity.
  - vm_compute. lia.
  - exists bs'. split; [done|].
    pose proof (Hnew 0 _ ltac:(vm_compute; lia) eq_refl) as H0.
    unfold size in Hsize. simpl in Hsize.
    destruct (_wrappers bs') as [|o [|o' l]]; simplify_eq/=. done.
Defined.

End binding.

Section statement_extras.

Import mysql_bind_set prepared_stmt.

Context {E : Type} (api : mysql_api E).

Lemma for_each_memory_unchanged hook items bs m bs' m' :
  (∀ w b m r w' b' m', hook w b m = Returns (r, w', b', m') → m' = m) →
  for_each hook items bs m = Returns (bs', m') → m' = m.
Proof.
  intros Hpure Hrun.
  eapply (for_each_memory_inv hook (λ x, x = m)); [|done|exact Hrun].
  intros w b m0 r w' b' m1 -> H. by eapply Hpure.
Qed.

(** X8: [execute] never writes the application memory, and neither
    [execute] nor [fetch] ever changes the statement handle, the
    connection or the bind set of the other direction. *)
Theorem execute_fetch_frame s m e b s' m' e' :
  (execute api s m e = Returns (b, s', m', e') →
     m' = m ∧ stmt s' = stmt s ∧ con s' = con s ∧
     result_binds s' = result_binds s) ∧
  (fetch api s m e = Returns (b, s', m', e') →
     stmt s' = stmt s ∧ con s' = con s ∧ param_binds s' = param_binds s).
Proof.
  split.
  - unfold execute. intros Hrun.
    apply bind_eq_Returns in Hrun as ([pb m1] & Hpre & Hrun).
    apply for_each_memory_unchanged in Hpre as ->;
      [|intros; by eapply virtual_pre_execute_memory].
    simpl in Hrun.
    destruct (mysql_stmt_bind_param api (stmt s) pb m e) as [failed e1].
    destruct failed; [by simplify_eq|].
    destruct (mysql_stmt_execute api (stmt s) pb m e1) as [rc e2].
    case_bool_decide; [by simplify_eq|].
    apply bind_eq_Returns in Hrun as ([pb2 m2] & Hpost & Hrun).
    apply for_each_memory_unchanged in Hpost as ->;
      [|unfold virtual.post_execute; intros; by simplify_eq].
    by simplify_eq.
  - unfold fetch. intros Hrun.
    apply bind_eq_Returns in Hrun as ([rb m1] & _ & Hrun). simpl in Hrun.
    destruct (mysql_stmt_bind_result api (stmt s) rb m1 e) as [failed e1].
    destruct failed; [by simplify_eq|].
    destruct (mysql_stmt_fetch api (stmt s) rb m1 e1) as [[[rc rb2] m2] e2].
    simpl in Hrun.
    destruct (bool_decide (rc = MYSQL_DATA_TRUNCATED) || bool_decide (rc = 0%Z));
      [|by simplify_eq].
    apply bind_eq_Returns in Hrun as ([[refetch rb3] m3] & _ & Hrun). simpl in Hrun.
    destruct (fetch_columns api (stmt s) refetch rb3 m3 e2) as [[[ok rb4] m4] e4].
    destruct ok; [|by simplify_eq].
    apply bind_eq_Returns in Hrun as ([rb5 m5] & _ & Hrun). by simplify_eq.
Qed.

(** Every exit of the constructor. *)
Lemma constructor_cases pcon query e :
  (∃ e', prepared_stmt api pcon query e = (Throws bad_alloc, e')) ∨
  (∃ msg e', prepared_stmt api pcon query e
             = (Throws (runtime_error ("Failed to prepare stmt: " ++ msg)), e')) ∨
  (∃ h n k e',
     prepared_stmt api pcon query e
     = (Returns {| con := pcon; stmt := Some h;
                   param_binds := mysql_bind_set n;
                   result_binds := mysql_bind_set k |}, e')).
Proof.
  unfold prepared_stmt.
  destruct (mysql_stmt_init api (my_conn pcon) e) as [[h|] e1]; [|by eauto].
  destruct (mysql_stmt_prepare api (Some h) query (String.length query) e1) as [rc e2].
  case_bool_decide; [right; left; by eauto|].
  destruct (mysql_stmt_result_metadata api (Some h) e2) as [[r|] e3];
    right; right; by eauto.
Qed.

(** X9: the constructor is never undefined and throws nothing but
    [bad_alloc] and the [runtime_error] of a rejected text.  A statement it
    returns has a handle that is not null, keeps the connection it was
    given, and has two well-formed bind sets in which every slot is still
    unbound. *)
Theorem constructor_postcondition pcon query e :
  (prepared_stmt api pcon query e).1 ≠ Undefined ∧
  (∀ ex, (prepared_stmt api pcon query e).1 = Throws ex →
     ex = bad_alloc ∨
     ∃ msg, ex = runtime_error ("Failed to prepare stmt: " ++ msg)) ∧
  (∀ s, (prepared_stmt api pcon query e).1 = Returns s →
     is_Some (stmt s) ∧ con s = pcon ∧
     bind_set_wf (param_binds s) ∧ bind_set_wf (result_binds s) ∧
     (∀ i, i < size (param_binds s) → unbound i (param_binds s)) ∧
     (∀ i, i < size (result_binds s) → unbound i (result_binds s))).
Proof.
  destruct (constructor_cases pcon query e)
    as [(e' & ->)|[(msg & e' & ->)|(h & n & k & e' & ->)]]; simpl.
  - split; [done|]. split; [|done]. intros ex [= <-]. by left.
  - split; [done|]. split; [|done]. intros ex [= <-]. right. by eexists.
  - split; [done|]. split; [done|]. intros s [= <-]. simpl.
    split; [by eexists|]. split; [done|].
    split; [apply wf_mysql_bind_set|]. split; [apply wf_mysql_bind_set|].
    rewrite !size_mysql_bind_set.
    split; intros i Hi; unfold unbound; simpl; by apply lookup_replicate_2.
Qed.


(** On a well-formed statement whose parameter slots are all bound,
    [execute] returns a boolean. *)
Lemma execute_defined s m e :
  bind_set_wf (param_binds s) → all_bound (param_binds s) →
  ∃ b s' e', execute api s m e = Returns (b, s', m, e').
Proof.
  intros Hwf Hall.
  destruct (for_each_returns virtual.pre_execute (seq 0 (size (param_binds s)))
              (param_binds s) m)
    as (pb & m1 & Hpre & Hwf1 & Hall1 & Hsize);
    eauto using hook_total_pre_execute, hook_keeps_bind_pre_execute, seq_in_range.
  pose proof Hpre as Hmem.
  apply for_each_memory_unchanged in Hmem as ->;
    [|intros; by eapply virtual_pre_execute_memory].
  unfold execute, pre_execute. rewrite Hpre; simpl.
  destruct (mysql_stmt_bind_param api (stmt s) pb m e) as [failed e1].
  destruct failed; [by eauto|].
  destruct (mysql_stmt_execute api (stmt s) pb m e1) as [rc e2].
  case_bool_decide; [by eauto|].
  unfold post_execute. rewrite for_each_identity; eauto using seq_in_range.
Qed.

(** X10: a statement the constructor has returned, once [bind_param] has
    been given as many references as the statement has parameters, can be
    executed: [bind_param] returns, and [execute] on the outcome returns a
    boolean, whatever the engine answers and whatever the memory holds.  A
    statement without parameters needs no binding at all. *)
Theorem prepared_bound_executes pcon query e s e1 args m e2 :
  prepared_stmt api pcon query e = (Returns s, e1) →
  length args = size (param_binds s) →
  ∃ s1,
    bind_param args s = (Returns (), s1) ∧
    ∃ b s2 e3, execute api s1 m e2 = Returns (b, s2, m, e3).
Proof.
  intros Hctor Hargs.
  assert (bind_set_wf (param_binds s)) as Hwf.
  { destruct (constructor_cases pcon query e)
      as [(e' & H)|[(msg & e' & H)|(h & n & k & e' & H)]];
      rewrite H in Hctor; simplify_eq. apply wf_mysql_bind_set. }
  unfold bind_param, bind_variables.
  destruct (bind_variables_impl_fits 0 args (param_binds s))
    as (bs' & Hrun & _ & Hsize & Hnew & _); [apply Hwf|simpl; lia|].
  pose proof (bind_variables_wf args _ Hwf) as Hwf'.
  unfold bind_variables in Hwf'. rewrite Hrun in *. simpl in Hwf'.
  eexists. split; [done|].
  apply execute_defined; simpl; [done|].
  apply Forall_lookup_2. intros j o Ho.
  pose proof (lookup_lt_Some _ _ _ Ho) as Hj. fold (size bs') in Hj.
  destruct (lookup_lt_is_Some_2 args j) as [arg Ha]; [lia|].
  pose proof (Hnew j arg Ha) as Hslot. simpl in Hslot.
  rewrite Hslot in Ho. simplify_eq. by eexists.
Qed.


End statement_extras.

Lemma constructor_postcondition_witness :
  is_Some (prepared_stmt.stmt demo_stmt_unbound) ∧
  bind_set_wf (prepared_stmt.param_binds demo_stmt_unbound) ∧
  unbound 1 (prepared_stmt.result_binds demo_stmt_unbound).
Proof.
  destruct (proj2 (proj2 (constructor_postcondition script.api demo_connection
                            "SELECT" demo_script)) demo_stmt_unbound eq_refl)
    as (Hstmt & _ & Hwf & _ & _ & Hres).
  split; [exact Hstmt|]. split; [exact Hwf|].
  apply Hres. vm_compute. lia.
Defined.

Lemma execute_fetch_frame_witness :
  ∃ s' e',
    prepared_stmt.execute script.api demo_stmt memory_with_42 demo_engine
    = Returns (true, s', memory_with_42, e') ∧
    prepared_stmt.result_binds s' = prepared_stmt.result_binds demo_stmt.
Proof.
  destruct (prepared_stmt.execute script.api demo_stmt memory_with_42 demo_engine)
    as [[[[b s'] m'] e']| |] eqn:Hrun; try (vm_compute in Hrun; discriminate).
  destruct (proj1 (execute_fetch_frame script.api demo_stmt memory_with_42 demo_engine
                     b s' m' e') Hrun) as (-> & _ & _ & Hrb).
  assert (b = true) as -> by (vm_compute in Hrun; by simplify_eq).
  by exists s', e'.
Defined.

Lemma prepared_bound_executes_witness :
  ∃ s1 b s2 e3,
    prepared_stmt.bind_param [optional_number_ref int32_t 0] demo_stmt_unbound
    = (Returns (), s1) ∧
    prepared_stmt.execute script.api s1 memory_with_42 demo_engine
    = Returns (b, s2, memory_with_42, e3).
Proof.
  destruct (prepared_bound_executes script.api demo_connection "SELECT"
              demo_script demo_stmt_unbound
              demo_engine [optional_number_ref int32_t 0] memory_with_42 demo_engine)
    as (s1 & Hbind & b & s2 & e3 & Hrun).
  - reflexivity.
  - reflexivity.
  - by exists s1, b, s2, e3.
Defined.

(** * [format_string_vargs] *)

Section format_string.

Variable vsnprintf : nat → Z → Z * list byte.
Variable text : list byte.

Hypothesis vsnprintf_formats_text :
  ∀ call size, (0 < size)%Z → vsnprintf call size = c99_vsnprintf text call size.

(** X11: when every call of [vsnprintf] formats the same text, shorter
    than [INT_MAX], [format_string_vargs] returns after at most two calls.
    It returns the whole text, except when the text has exactly 256 bytes,
    the size of the first buffer: [vsnprintf] then reports 256, the test
    [needed <= size] accepts it, and the result is the text without its
    last byte. *)
Theorem format_string_vargs_result :
  (Z.of_nat (length text) < INT_MAX)%Z →
  format.format_string_vargs vsnprintf 2
  = Some (Returns (if decide (length text = 256) then take 255 text else text)).
Proof using vsnprintf_formats_text.
  intros Hshort. unfold format.format_string_vargs. simpl.
  rewrite vsnprintf_formats_text by lia. unfold c99_vsnprintf.
  change (size_to_int 256) with 256%Z.
  destruct (decide (length text ≤ 256)) as [Hle|Hgt].
  - rewrite !bool_decide_eq_true_2 by lia. simpl. do 2 f_equal.
    change (Z.to_nat 256 - 1) with 255.
    case_decide; [done|]. apply take_ge. lia.
  - rewrite (bool_decide_eq_false_2 (_ ≤ 256)%Z) by lia. simpl.
    rewrite (bool_decide_eq_true_2 (0 < _)%Z) by lia.
    rewrite (bool_decide_eq_false_2 (_ = INT_MAX)) by lia.
    rewrite vsnprintf_formats_text by lia. unfold c99_vsnprintf.
    assert (size_to_int (Z.of_nat (length text) + 1) = Z.of_nat (length text) + 1)%Z
      as ->.
    { unfold size_to_int, INT_MAX in *.
      rewrite Z.mod_small by lia. lia. }
    rewrite !bool_decide_eq_true_2 by lia. simpl. do 2 f_equal.
    rewrite decide_False by lia. apply take_ge. lia.
Qed.

End format_string.

Lemma format_string_vargs_result_witness :
  format.format_string_vargs (c99_vsnprintf (replicate 256 "a"%byte)) 2
  = Some (Returns (replicate 255 "a"%byte)) ∧
  format.format_string_vargs (c99_vsnprintf (replicate 300 "a"%byte)) 2
  = Some (Returns (replicate 300 "a"%byte)).
Proof.
  split.
  - rewrite (format_string_vargs_result (c99_vsnprintf (replicate 256 "a"%byte))
               (replicate 256 "a"%byte)).
    + vm_compute. reflexivity.
    + intros call size _. reflexivity.
    + vm_compute. reflexivity.
  - rewrite (format_string_vargs_result (c99_vsnprintf (replicate 300 "a"%byte))
               (replicate 300 "a"%byte)).
    + vm_compute. reflexivity.
    + intros call size _. reflexivity.
    + vm_compute. reflexivity.
Defined.

(** * The text protocol: [results] *)

Section results_theorems.

Import results.

Context {E : Type} (api : text.api E) (std : std_conversions).

Lemma seek_Returns n st e ok st' e' :
  seek api n st e = Returns (ok, st', e') →
  (res st = initialised None ∧ ok = false ∧ st' = st ∧ e' = e) ∨
  (∃ r, res st = initialised (Some r) ∧ started st' = true ∧ res st' = res st ∧
        ok = bool_decide (row st' ≠ None)).
Proof.
  unfold seek. destruct (res st) as [[r|]|] eqn:Hres; simpl; [| |done].
  - destruct (text.mysql_fetch_row api (Some r) _) as [fetched e1].
    intros ?; simplify_eq. right. by exists r.
  - intros ?; simplify_eq. by left.
Qed.

(** What [if (!started) reset();] leaves. *)
Lemma start_Returns st e st' e' :
  start api st e = Returns (st', e') →
  res st' = res st ∧
  ((st' = st ∧ e' = e ∧ (started st = true ∨ res st = initialised None)) ∨
   (started st = false ∧ started st' = true ∧ ∃ r, res st = initialised (Some r))).
Proof.
  unfold start. destruct (started st) eqn:Hst.
  - intros ?; simplify_eq. split; [done|]. left. auto.
  - unfold reset. intros H.
    apply bind_eq_Returns in H as ([[ok st1] e1] & Hseek & ?). simplify_eq.
    apply seek_Returns in Hseek as [(? & ? & -> & ->)|(r & Hr & ? & ? & ?)].
    + split; [done|]. left. auto.
    + split; [done|]. right. eauto.
Qed.

(** Positioning is done once: on the state it leaves it does nothing. *)
Lemma start_again st e st' e' :
  start api st e = Returns (st', e') → start api st' e' = Returns (st', e').
Proof.
  intros H. destruct (start_Returns _ _ _ _ H) as [_ [(-> & -> & _)|(_ & Hst & _)]].
  - done.
  - unfold start. by rewrite Hst.
Qed.

Lemma get_value_Returns i value st e ok v st' e' :
  get_value api std i value st e = Returns (ok, v, st', e') →
  start api st e = Returns (st', e') ∧
  match row st' with
  | None => ok = false ∧ v = value
  | Some fields =>
      (0 ≤ i)%Z ∧
      match fields !! Z.to_nat i with
      | None => False
      | Some None => ok = false ∧ v = value
      | Some (Some field) =>
          match convert std value field with
          | Some c => ok = true ∧ v = c
          | None => ok = false ∧ v = value
          end
      end
  end.
Proof.
  unfold get_value. intros H.
  apply bind_eq_Returns in H as ([st1 e1] & Hstart & H).
  destruct (row st1) as [fields|] eqn:Hrow.
  - case_bool_decide; [done|].
    destruct (fields !! Z.to_nat i) as [[field|]|] eqn:Hfield; [| |done].
    + destruct (convert std value field) as [c|] eqn:Hconv; simplify_eq;
        rewrite Hrow, Hfield, ?Hconv; (split; [done|]); (split; [lia|done]).
    + simplify_eq. rewrite Hrow, Hfield. split; [done|]. split; [lia|done].
  - simplify_eq. by rewrite Hrow.
Qed.

Lemma bind_eq_Throws {A B} (c : outcome A) (k : A → outcome B) ex :
  c ≫= k = Throws ex → c = Throws ex ∨ ∃ a, c = Returns a ∧ k a = Throws ex.
Proof.
  destruct c as [a|ex'|]; intros H; [right; by exists a| |done].
  left. cbv in H. by simplify_eq.
Qed.

Lemma start_no_throw st e ex : start api st e ≠ Throws ex.
Proof.
  unfold start, reset, seek. destruct (started st); [done|].
  destruct (res st) as [[r|]|]; simpl; [|done..].
  by destruct (text.mysql_fetch_row api (Some r) _).
Qed.

Lemma get_value_no_throw i value st e ex :
  get_value api std i value st e ≠ Throws ex.
Proof.
  unfold get_value. intros [H|([st1 e1] & _ & H)]%bind_eq_Throws.
  - by apply start_no_throw in H.
  - destruct (row st1) as [fields|]; [|done]. case_bool_decide; [done|].
    destruct (fields !! Z.to_nat i) as [[field|]|]; try done.
    by destruct (convert std value field).
Qed.

(** X12: [get_value] of a plain variable never throws: what the conversion
    throws is caught.  When it returns false the variable is as it was;
    when it returns true the current row has a field at the index that is
    not NULL and the variable holds its conversion.  The row is positioned
    by the first call only. *)
Theorem get_value_outcome i value st e :
  (∀ ex, get_value api std i value st e ≠ Throws ex) ∧
  (∀ ok v st' e',
     get_value api std i value st e = Returns (ok, v, st', e') →
     start api st e = Returns (st', e') ∧
     start api st' e' = Returns (st', e') ∧
     (ok = false → v = value) ∧
     (ok = true →
        ∃ fields field,
          row st' = Some fields ∧ fields !! Z.to_nat i = Some (Some field) ∧
          convert std value field = Some v)).
Proof.
  split; [intros ex; apply get_value_no_throw|].
  intros ok v st' e' H.
  apply get_value_Returns in H as [Hstart Hcases].
  split; [done|]. split; [by eapply start_again|].
  destruct (row st') as [fields|] eqn:Hrow; [|by destruct Hcases as [-> ->]].
  destruct Hcases as [_ Hcases].
  destruct (fields !! Z.to_nat i) as [[field|]|] eqn:Hfield; [| |done].
  - destruct (convert std value field) as [c|] eqn:Hconv;
      destruct Hcases as [-> ->]; split; try done.
    intros _. by exists fields, field.
  - by destruct Hcases as [-> ->].
Qed.

(** X13: [get_value] of an [optional] never resets it: when there is no
    current row, when the field is NULL and when the conversion throws, the
    optional keeps the value it had, also a value of an earlier row; it is
    assigned only when the conversion succeeds. *)
Theorem get_value_optional_keeps i fresh value st e v' st' e' :
  get_value_optional api std i fresh value st e = Returns (v', st', e') →
  (row st' = None → v' = value) ∧
  (∀ fields, row st' = Some fields →
     fields !! Z.to_nat i = Some None → v' = value) ∧
  (∀ fields field, row st' = Some fields →
     fields !! Z.to_nat i = Some (Some field) →
     v' = match convert std fresh field with
          | Some c => Some c
          | None => value
          end).
Proof.
  unfold get_value_optional. intros H.
  apply bind_eq_Returns in H as ([[[ok v] st1] e1] & Hget & ?). simplify_eq.
  apply get_value_Returns in Hget as [_ Hcases].
  destruct (row st') as [fields|].
  - destruct Hcases as [_ Hcases]. split; [done|]. split.
    + intros ? [= <-] Hf. rewrite Hf in Hcases. by destruct Hcases as [-> _].
    + intros ? field [= <-] Hf. rewrite Hf in Hcases.
      by destruct (convert std fresh field); destruct Hcases as [-> ->].
  - destruct Hcases as [-> _]. by repeat split.
Qed.

Lemma get_value_optional_Returns i fresh value st e v st' e' :
  get_value_optional api std i fresh value st e = Returns (v, st', e') →
  start api st e = Returns (st', e').
Proof.
  unfold get_value_optional. intros H.
  apply bind_eq_Returns in H as ([[[ok v1] st1] e1] & Hget & ?). simplify_eq.
  by apply get_value_Returns in Hget as [? _].
Qed.

Lemma get_value_optional_no_throw i fresh value st e ex :
  get_value_optional api std i fresh value st e ≠ Throws ex.
Proof.
  unfold get_value_optional.
  intros [H|([[[ok v1] st1] e1] & _ & H)]%bind_eq_Throws; [|done].
  by apply get_value_no_throw in H.
Qed.

Lemma fetch_impl_Returns values : ∀ i st e values' st' e',
  start api st e = Returns (st, e) →
  fetch_impl api std i values st e = Returns (values', st', e') →
  st' = st ∧ e' = e ∧ length values' = length values ∧
  ∀ k var, values !! k = Some var →
    ∃ var', values' !! k = Some var' ∧ assigned api std (i + Z.of_nat k) var var' st e.
Proof.
  induction values as [|var values IH]; intros i st e values' st' e' Hpos H.
  - simpl in H. simplify_eq. by repeat split.
  - destruct var as [v|fresh v]; simpl in H.
    + apply bind_eq_Returns in H as ([[[ok v1] st1] e1] & Hget & H).
      pose proof Hget as [Hs _]%get_value_Returns.
      rewrite Hpos in Hs. simplify_eq.
      apply bind_eq_Returns in H as ([[rest st2] e2] & Hrest & H). simplify_eq.
      apply IH in Hrest as (-> & -> & Hlen & Hrest); [|done].
      do 2 (split; [done|]). split; [simpl; by rewrite Hlen|].
      intros [|k] var Hvar; simpl in Hvar; simplify_eq.
      * exists (plain v1). split; [done|]. simpl.
        exists ok, v1. by rewrite Z.add_0_r.
      * destruct (Hrest k var Hvar) as (var' & Hk & Ha).
        exists var'. split; [done|].
        by replace (i + Z.of_nat (S k))%Z with (i + 1 + Z.of_nat k)%Z by lia.
    + apply bind_eq_Returns in H as ([[v1 st1] e1] & Hget & H).
      pose proof Hget as Hs%get_value_optional_Returns.
      rewrite Hpos in Hs. simplify_eq.
      apply bind_eq_Returns in H as ([[rest st2] e2] & Hrest & H). simplify_eq.
      apply IH in Hrest as (-> & -> & Hlen & Hrest); [|done].
      do 2 (split; [done|]). split; [simpl; by rewrite Hlen|].
      intros [|k] var Hvar; simpl in Hvar; simplify_eq.
      * exists (optional fresh v1). split; [done|]. simpl.
        exists v1. by rewrite Z.add_0_r.
      * destruct (Hrest k var Hvar) as (var' & Hk & Ha).
        exists var'. split; [done|].
        by replace (i + Z.of_nat (S k))%Z with (i + 1 + Z.of_nat k)%Z by lia.
Qed.

Lemma fetch_impl_no_throw values : ∀ i st e ex,
  fetch_impl api std i values st e ≠ Throws ex.
Proof.
  induction values as [|[v|fresh v] values IH]; intros i st e ex; simpl; [done|..].
  - intros [H|([[[ok v1] st1] e1] & _ & H)]%bind_eq_Throws.
    + by apply get_value_no_throw in H.
    + apply bind_eq_Throws in H as [H|([[rest st2] e2] & _ & H)]; [|done].
      by apply IH in H.
  - intros [H|([[v1 st1] e1] & _ & H)]%bind_eq_Throws.
    + by apply get_value_optional_no_throw in H.
    + apply bind_eq_Throws in H as [H|([[rest st2] e2] & _ & H)]; [|done].
      by apply IH in H.
Qed.

(** X14: [fetch] never throws.  It positions the row as the first
    [get_value] would, returns whether there is a current row, and leaves
    the variables as they were when there is none; when there is one,
    variable [k] is assigned by [get_value] from field [k], and the row
    and the engine are not touched again. *)
Theorem results_fetch_outcome values st e :
  (∀ ex, fetch api std values st e ≠ Throws ex) ∧
  (∀ ok values' st' e',
     fetch api std values st e = Returns (ok, values', st', e') →
     start api st e = Returns (st', e') ∧
     ok = bool_decide (row st' ≠ None) ∧
     length values' = length values ∧
     (ok = false → values' = values) ∧
     (ok = true →
        ∀ k var, values !! k = Some var →
          ∃ var', values' !! k = Some var' ∧
                  assigned api std (Z.of_nat k) var var' st' e')).
Proof.
  split.
  - intros ex. unfold fetch.
    intros [H|([st1 e1] & _ & H)]%bind_eq_Throws; [by apply start_no_throw in H|].
    destruct (row st1); [|done].
    apply bind_eq_Throws in H as [H|([[rest st2] e2] & _ & H)]; [|done].
    by apply fetch_impl_no_throw in H.
  - intros ok values' st' e'. unfold fetch. intros H.
    apply bind_eq_Returns in H as ([st1 e1] & Hstart & H).
    destruct (row st1) as [fields|] eqn:Hrow.
    + apply bind_eq_Returns in H as ([[rest st2] e2] & Hrest & H). simplify_eq.
      apply fetch_impl_Returns in Hrest as (-> & -> & Hlen & Hrest);
        [|by eapply start_again].
      rewrite Hrow. do 3 (split; [done|]). split; [done|].
      intros _ k var Hvar. destruct (Hrest k var Hvar) as (var' & ? & ?).
      by exists var'.
    + simplify_eq. rewrite Hrow. by repeat split.
Qed.

(** X15: a [results] without a result set, such as [query] returns for
    a statement that produces none, behaves as an empty one: no rows, no
    fields, at the end, nothing to seek to or fetch, variables untouched;
    and none of these calls reaches the engine. *)
Theorem results_without_result_set st e :
  res st = initialised None → row st = None → started st = false →
  count api st e = Returns 0%Z ∧
  fields api st e = Returns 0 ∧
  is_empty api st e = Returns true ∧
  eof api st e = Returns (true, st, e) ∧
  (∀ n, seek api n st e = Returns (false, st, e)) ∧
  (∀ i value, get_value api std i value st e = Returns (false, value, st, e)) ∧
  (∀ values, fetch api std values st e = Returns (false, values, st, e)) ∧
  destroy api st e = Returns e.
Proof.
  intros Hres Hrow Hst.
  assert (∀ n, seek api n st e = Returns (false, st, e)) as Hseek.
  { intros n. unfold seek. by rewrite Hres. }
  assert (start api st e = Returns (st, e)) as Hstart.
  { unfold start, reset. by rewrite Hst, Hseek. }
  unfold count, fields, is_empty, count, eof, get_value, fetch, destroy.
  rewrite Hres, Hstart. simpl. rewrite Hrow. by repeat split.
Qed.

(** X16: after [seek], [eof] is the negation of what [seek] returned,
    and it answers from the row [seek] fetched: the object and the engine
    stay as [seek] left them. *)
Theorem results_eof_after_seek n st e ok st' e' :
  seek api n st e = Returns (ok, st', e') →
  eof api st' e' = Returns (negb ok, st', e').
Proof.
  intros H. pose proof H as Hcases%seek_Returns.
  destruct Hcases as [(Hres & -> & -> & ->)|(r & Hres & Hst & Hres' & ->)].
  - unfold eof. by rewrite Hres.
  - unfold eof, start. rewrite Hres', Hres, Hst. simpl.
    do 3 f_equal. destruct (row st'); by rewrite ?bool_decide_eq_true_2,
      ?bool_decide_eq_false_2 by naive_solver.
Qed.

End results_theorems.

Lemma get_value_outcome_witness :
  ∃ st' e',
    results.get_value table.api decimal_std 0 (results.var_int 7)
      demo_results demo_table
    = Returns (true, results.var_int 42, st', e') ∧
    results.start table.api st' e' = Returns (st', e').
Proof.
  destruct (results.get_value table.api decimal_std 0 (results.var_int 7)
              demo_results demo_table)
    as [[[[ok v] st'] e']| |] eqn:Hrun; try (vm_compute in Hrun; discriminate).
  destruct (proj2 (get_value_outcome table.api decimal_std 0 (results.var_int 7)
                     demo_results demo_table) ok v st' e' Hrun)
    as (_ & Hagain & _ & _).
  assert (ok = true ∧ v = results.var_int 42) as [-> ->]
    by (vm_compute in Hrun; by simplify_eq).
  by exists st', e'.
Defined.

Lemma get_value_optional_keeps_witness :
  ∃ st' e',
    results.get_value_optional table.api decimal_std 1 (results.var_string [])
      (Some (results.var_string ["a"; "b"]%byte))
      (results.set_cursor (Some [Some ["x"%byte]; None]) true demo_results)
      (table.set_cursor 2 demo_table)
    = Returns (Some (results.var_string ["a"; "b"]%byte), st', e').
Proof.
  destruct (results.get_value_optional table.api decimal_std 1
              (results.var_string [])
              (Some (results.var_string ["a"; "b"]%byte))
              (results.set_cursor (Some [Some ["x"%byte]; None]) true demo_results)
              (table.set_cursor 2 demo_table))
    as [[[v' st'] e']| |] eqn:Hrun; try (vm_compute in Hrun; discriminate).
  destruct (get_value_optional_keeps table.api decimal_std _ _ _ _ _ _ _ _ Hrun)
    as (_ & Hnull & _).
  assert (results.row st' = Some [Some ["x"%byte]; None]) as Hrow
    by (vm_compute in Hrun; by simplify_eq).
  rewrite (Hnull _ Hrow eq_refl). by exists st', e'.
Defined.

Lemma results_fetch_outcome_witness :
  ∃ values' st' e',
    results.fetch table.api decimal_std
      [results.plain (results.var_int 0);
       results.optional (results.var_string []) None] demo_results demo_table
    = Returns (true, values', st', e') ∧
    length values' = 2.
Proof.
  destruct (results.fetch table.api decimal_std
              [results.plain (results.var_int 0);
               results.optional (results.var_string []) None]
              demo_results demo_table)
    as [[[[ok values'] st'] e']| |] eqn:Hrun; try (vm_compute in Hrun; discriminate).
  destruct (proj2 (results_fetch_outcome table.api decimal_std _ _ _)
              ok values' st' e' Hrun) as (_ & _ & Hlen & _).
  assert (ok = true) as -> by (vm_compute in Hrun; by simplify_eq).
  by exists values', st', e'.
Defined.

Lemma results_without_result_set_witness :
  results.fetch table.api decimal_std [results.plain (results.var_int 7)]
    (results.of_result (Some 1) None) demo_table
  = Returns (false, [results.plain (results.var_int 7)],
             results.of_result (Some 1) None, demo_table).
Proof.
  destruct (results_without_result_set table.api decimal_std
              (results.of_result (Some 1) None) demo_table
              eq_refl eq_refl eq_refl)
    as (_ & _ & _ & _ & _ & _ & Hfetch & _).
  apply Hfetch.
Defined.

Lemma results_eof_after_seek_witness :
  ∃ st' e',
    results.seek table.api 2 demo_results demo_table = Returns (false, st', e') ∧
    results.eof table.api st' e' = Returns (true, st', e').
Proof.
  destruct (results.seek table.api 2 demo_results demo_table)
    as [[[ok st'] e']| |] eqn:Hrun; try (vm_compute in Hrun; discriminate).
  pose proof (results_eof_after_seek table.api _ _ _ _ _ _ Hrun) as Heof.
  assert (ok = false) as -> by (vm_compute in Hrun; by simplify_eq).
  by exists st', e'.
Defined.

(** * The text protocol: [connection] *)

Section connection_theorems.

Context {E : Type} (api : text.api E).

(** X17: when the engine rejects the statement, [query] returns an
    object that carries the engine's error number and message, and whose
    connection handle and result pointer were never initialised: the
    conversion to bool, [count], [eof], [seek], [fetch] and the destructor
    all read an uninitialised member.  [exec] returns false on the same
    statement and leaves the engine in the same state. *)
Theorem query_failure (std : std_conversions) query_str c e st e' :
  conn.query api query_str c e = (st, e') →
  (text.mysql_real_query api (my_conn c) query_str (String.length query_str) e).1
    ≠ 0%Z →
  conn.exec api query_str c e = (false, e') ∧
  results.error_code st = text.mysql_errno api (my_conn c) e' ∧
  results.error_message st = text.mysql_error api (my_conn c) e' ∧
  results.operator_bool st = Undefined ∧
  results.count api st e' = Undefined ∧
  results.eof api st e' = Undefined ∧
  (∀ n, results.seek api n st e' = Undefined) ∧
  (∀ values, results.fetch api std values st e' = Undefined) ∧
  results.destroy api st e' = Undefined.
Proof.
  unfold conn.query, conn.exec.
  destruct (text.mysql_real_query api _ _ _ _) as [ret e1]; simpl.
  intros H Hret. rewrite bool_decide_eq_true_2 in H by done.
  rewrite bool_decide_eq_false_2 by done. by simplify_eq.
Qed.

(** X18: [close] leaves a connection without handle, on which a second
    [close] and [is_open] do not reach the engine; a connection that has
    no handle is left as it is. *)
Theorem close_closes_once c e c' e' :
  conn.close api c e = (c', e') →
  my_conn c' = None ∧
  conn.close api c' e' = (c', e') ∧
  conn.is_open api c' e' = (false, e') ∧
  (my_conn c = None → c' = c ∧ e' = e).
Proof.
  unfold conn.close, conn.is_open.
  destruct c as [[h|]]; simpl; intros ?; by simplify_eq.
Qed.

(** X19: [open] returns true exactly when the connection holds a handle
    afterwards; after a failed [open] the handle is null, so [is_open]
    answers false without a ping and [close] does nothing. *)
Theorem open_outcome options c e ok c' e' :
  conn.open api options c e = (ok, c', e') →
  ok = bool_decide (my_conn c' ≠ None) ∧
  (ok = false →
     conn.is_open api c' e' = (false, e') ∧ conn.close api c' e' = (c', e')).
Proof.
  unfold conn.open.
  destruct (conn.is_open api c e) as [alive e1].
  destruct (if alive then conn.close api c e1 else (c, e1)) as [c1 e2].
  destruct (text.mysql_init api e2) as [[h|] e3]; [|intros ?; by simplify_eq].
  destruct (text.mysql_real_connect api _ _ _ _ _ _ _) as [[connected|] e4];
    intros ?; by simplify_eq.
Qed.

(** X20: what [open] does with the connection it had.  One that
    answers the ping is closed first; the handle of one that does not
    answer is overwritten without [mysql_close]. *)
Theorem open_previous_connection options c e :
  conn.open api options c e
  = let '(alive, e1) := conn.is_open api c e in
    conn.open api options {| my_conn := None |}
      (if alive then text.mysql_close api (my_conn c) e1 else e1).
Proof.
  unfold conn.open at 1. unfold conn.open at 1.
  destruct c as [[h|]]; unfold conn.is_open, conn.close; simpl; [|done].
  destruct (text.mysql_ping api (Some h) e) as [rc e1].
  by case_bool_decide.
Qed.

End connection_theorems.

Lemma query_failure_witness :
  ∃ st,
    conn.query table.api "SELEC" demo_connection failing_table
    = (st, failing_table) ∧
    results.error_code st = 1064 ∧
    results.operator_bool st = Undefined.
Proof.
  destruct (conn.query table.api "SELEC" demo_connection failing_table)
    as [st e'] eqn:Hrun.
  destruct (query_failure table.api decimal_std "SELEC" demo_connection
              failing_table st e' Hrun)
    as (_ & Hno & _ & Hbool & _); [vm_compute; discriminate|].
  assert (e' = failing_table) as -> by (vm_compute in Hrun; by simplify_eq).
  exists st. do 2 (split; [done|]). exact Hbool.
Defined.

Lemma close_closes_once_witness :
  ∃ c' e',
    conn.close table.api demo_connection demo_table = (c', e') ∧
    conn.close table.api c' e' = (c', e').
Proof.
  destruct (conn.close table.api demo_connection demo_table) as [c' e'] eqn:Hrun.
  destruct (close_closes_once table.api _ _ _ _ Hrun) as (_ & Hagain & _).
  by exists c', e'.
Defined.

Lemma open_outcome_witness :
  ∃ c' e',
    conn.open table.api default_options demo_connection failing_table
    = (false, c', e') ∧
    conn.is_open table.api c' e' = (false, e').
Proof.
  destruct (conn.open table.api default_options demo_connection failing_table)
    as [[ok c'] e'] eqn:Hrun.
  destruct (open_outcome table.api _ _ _ _ _ _ Hrun) as (_ & Hfalse).
  assert (ok = false) as -> by (vm_compute in Hrun; by simplify_eq).
  destruct (Hfalse eq_refl) as [Hopen _].
  by exists c', e'.
Defined.

(** * The row iterator and the container *)

Section iterator_theorems.

Import result_iterator.

Context {E : Type} (api : text.api E) (std : std_conversions).

Lemma row_index_increments (r : option nat) (k : nat) :
  (Z.of_nat k < ULLONG_WRAP)%Z →
  row_index (Nat.iter k pre_increment (result_containter.begin r)) = Z.of_nat k.
Proof.
  induction k as [|k IH]; intros Hk; [done|].
  change (Nat.iter (S k) pre_increment (result_containter.begin r))
    with (pre_increment (Nat.iter k pre_increment (result_containter.begin r))).
  unfold pre_increment at 1. simpl row_index. rewrite Nat2Z.inj_succ in *.
  rewrite IH by lia. apply Z.mod_small. lia.
Qed.

(** X21: a loop from [begin()] that increments until the iterator no
    longer differs from [end()] stops after exactly [count()] increments,
    and before that the iterator stands at the row indices 0, 1, 2, ... in
    turn. *)
Theorem range_for_visits_each_row (r : option nat) st e (n : Z) (k : nat) :
  results.count api st e = Returns n →
  (0 ≤ n < ULLONG_WRAP)%Z →
  (Z.of_nat k ≤ n)%Z →
  ∃ last,
    result_containter.end_ api r st e = Returns last ∧
    row_index (Nat.iter k pre_increment (result_containter.begin r)) = Z.of_nat k ∧
    operator_ne (Nat.iter k pre_increment (result_containter.begin r)) last
    = bool_decide (Z.of_nat k ≠ n).
Proof.
  intros Hcount Hn Hk. unfold result_containter.end_. rewrite Hcount. simpl.
  eexists. split; [done|].
  assert (row_index (Nat.iter k pre_increment (result_containter.begin r))
          = Z.of_nat k) as Hidx by (apply row_index_increments; lia).
  split; [done|]. unfold operator_ne. by rewrite Hidx.
Qed.

(** X22: stepping forward and back by the same amount gives the row
    index the iterator had, also when the step in between wraps around
    the 64 bits of the index; the tuple the iterator had fetched is
    dropped. *)
Theorem iterator_steps_back (n : Z) it :
  (0 ≤ row_index it < ULLONG_WRAP)%Z →
  sub_assign n (add_assign n it) = set_index (row_index it) it ∧
  add_assign n (sub_assign n it) = set_index (row_index it) it ∧
  pre_decrement (pre_increment it) = set_index (row_index it) it ∧
  pre_increment (pre_decrement it) = set_index (row_index it) it ∧
  minus n (plus n it) = result_iterator (res it) (row_index it).
Proof.
  intros Hidx.
  assert (∀ a, ((row_index it + a) mod ULLONG_WRAP - a) mod ULLONG_WRAP
               = row_index it)%Z as Hfwd.
  { intros a. rewrite Zminus_mod_idemp_l.
    replace (row_index it + a - a)%Z with (row_index it) by lia.
    by apply Z.mod_small. }
  assert (∀ a, ((row_index it - a) mod ULLONG_WRAP + a) mod ULLONG_WRAP
               = row_index it)%Z as Hback.
  { intros a. rewrite Zplus_mod_idemp_l.
    replace (row_index it - a + a)%Z with (row_index it) by lia.
    by apply Z.mod_small. }
  unfold sub_assign, add_assign, pre_decrement, pre_increment, minus, plus,
    set_index, result_iterator; simpl.
  by rewrite !Hfwd, !Hback.
Qed.

(** X23: the dereference operator fetches once.  The iterator it leaves
    holds the tuple, and dereferencing it again returns that tuple without
    looking at the [results] object or the engine, whatever has happened
    to them in between. *)
Theorem dereference_caches fresh it st e tuple it' st' e' :
  dereference api std fresh it st e = Returns (tuple, it', st', e') →
  data it' = Some tuple ∧ res it' = res it ∧ row_index it' = row_index it ∧
  ∀ fresh' st'' e'',
    dereference api std fresh' it' st'' e'' = Returns (tuple, it', st'', e'').
Proof.
  unfold dereference. destruct (data it) as [cached|] eqn:Hdata.
  - intros ?; simplify_eq. do 3 (split; [done|]). intros. by rewrite Hdata.
  - intros H. apply bind_eq_Returns in H as ([[it1 st1] e1] & Hfetch & H).
    destruct (data it1) as [cached|] eqn:Hdata1; [|done]. simplify_eq.
    split; [done|].
    unfold fetch in Hfetch. destruct (res it) as [r|] eqn:Hres; [|done].
    apply bind_eq_Returns in Hfetch as ([[ok st2] e2] & _ & Hfetch).
    apply bind_eq_Returns in Hfetch as ([[tuple' st3] e3] & _ & Hfetch).
    simplify_eq. simpl in *. simplify_eq. by repeat split.
Qed.

End iterator_theorems.

Lemma range_for_visits_each_row_witness :
  ∃ last,
    result_containter.end_ table.api (Some 0) demo_results demo_table
    = Returns last ∧
    result_iterator.operator_ne
      (Nat.iter 2 result_iterator.pre_increment (result_containter.begin (Some 0)))
      last
    = false.
Proof.
  destruct (range_for_visits_each_row table.api (Some 0) demo_results demo_table
              2 2 eq_refl) as (last & Hend & _ & Hne).
  - vm_compute. split; [discriminate|reflexivity].
  - lia.
  - by exists last.
Defined.

Lemma iterator_steps_back_witness :
  result_iterator.sub_assign 1
    (result_iterator.add_assign 1
       (result_iterator.result_iterator (Some 0) (ULLONG_WRAP - 1)))
  = result_iterator.result_iterator (Some 0) (ULLONG_WRAP - 1).
Proof.
  apply (iterator_steps_back 1
           (result_iterator.result_iterator (Some 0) (ULLONG_WRAP - 1))).
  vm_compute. split; [discriminate|reflexivity].
Defined.

Lemma dereference_caches_witness :
  ∃ tuple it' st' e',
    result_iterator.dereference table.api decimal_std
      [results.plain (results.var_int 0)]
      (result_containter.begin (Some 0)) demo_results demo_table
    = Returns (tuple, it', st', e') ∧
    result_iterator.dereference table.api decimal_std [] it'
      (results.of_error 0 "") failing_table
    = Returns (tuple, it', results.of_error 0 "", failing_table).
Proof.
  destruct (result_iterator.dereference table.api decimal_std
              [results.plain (results.var_int 0)]
              (result_containter.begin (Some 0)) demo_results demo_table)
    as [[[[tuple it'] st'] e']| |] eqn:Hrun; try (vm_compute in Hrun; discriminate).
  destruct (dereference_caches table.api decimal_std _ _ _ _ _ _ _ _ Hrun)
    as (_ & _ & _ & Hagain).
  exists tuple, it', st', e'. split; [done|]. apply Hagain.
Defined.

(** ** The tuple of an iterator and [fetch] *)

Section iterator_fetch.

Context {E : Type} (api : text.api E) (std : std_conversions).

Lemma seek_positions n st e ok st' e' :
  results.seek api n st e = Returns (ok, st', e') →
  results.start api st' e' = Returns (st', e').
Proof.
  intros H. pose proof H as Hcases%seek_Returns.
  destruct Hcases as [(Hres & -> & -> & ->)|(r & _ & Hst & _)].
  - unfold results.start, results.reset, results.seek. rewrite Hres.
    by destruct (results.started st).
  - unfold results.start. by rewrite Hst.
Qed.

(** On a positioned row the calls of [get_value] neither move the row nor
    reach the engine. *)
Lemma fetch_impl_pure values i st e :
  results.start api st e = Returns (st, e) →
  results.fetch_impl api std i values st e = Undefined ∨
  ∃ values', results.fetch_impl api std i values st e = Returns (values', st, e) ∧
             length values' = length values.
Proof.
  intros Hpos.
  destruct (results.fetch_impl api std i values st e)
    as [[[values' st'] e']|ex|] eqn:H; [| |by left].
  - apply fetch_impl_Returns in H as (-> & -> & Hlen & _); [|done].
    right. by exists values'.
  - by apply fetch_impl_no_throw in H.
Qed.

Lemma fetch_impl_no_row values : ∀ i st e,
  results.start api st e = Returns (st, e) → results.row st = None →
  results.fetch_impl api std i values st e = Returns (values, st, e).
Proof.
  induction values as [|[v|fresh v] values IH]; intros i st e Hpos Hrow; [done|..];
    simpl; unfold results.get_value_optional, results.get_value;
    rewrite Hpos; simpl; rewrite Hrow; simpl; by rewrite IH.
Qed.

Lemma results_fetch_impl_app a : ∀ b i st e,
  results.fetch_impl api std i (a ++ b) st e
  = '(va, st1, e1) ← results.fetch_impl api std i a st e;
    '(vb, st2, e2) ← results.fetch_impl api std (i + Z.of_nat (length a)) b st1 e1;
    Returns (va ++ vb, st2, e2).
Proof.
  induction a as [|x a IH]; intros b i st e.
  - simpl. rewrite Z.add_0_r.
    by destruct (results.fetch_impl api std i b st e) as [[[vb st2] e2]| |].
  - replace (i + Z.of_nat (length (x :: a)))%Z
      with (i + 1 + Z.of_nat (length a))%Z by (simpl; lia).
    destruct x as [v|fresh v]; simpl.
    + destruct (results.get_value api std i v st e) as [[[[ok v1] st1] e1]| |];
        simpl; [|done..]. rewrite IH.
      destruct (results.fetch_impl api std (i + 1) a st1 e1)
        as [[[va st2] e2]| |]; simpl; [|done..].
      by destruct (results.fetch_impl api std _ b st2 e2) as [[[vb st3] e3]| |].
    + destruct (results.get_value_optional api std i fresh v st e)
        as [[[v1 st1] e1]| |]; simpl; [|done..]. rewrite IH.
      destruct (results.fetch_impl api std (i + 1) a st1 e1)
        as [[[va st2] e2]| |]; simpl; [|done..].
      by destruct (results.fetch_impl api std _ b st2 e2) as [[[vb st3] e3]| |].
Qed.

Lemma get_element_step k tuple x st e :
  tuple !! k = Some x →
  result_iterator.get_element api std k tuple st e
  = '(vb, st1, e1) ← results.fetch_impl api std (Z.of_nat k) [x] st e;
    Returns (<[k := default x (head vb)]> tuple, st1, e1).
Proof.
  intros Hx. unfold result_iterator.get_element. rewrite Hx.
  destruct x as [v|fresh v]; simpl.
  - by destruct (results.get_value api std _ v st e) as [[[[ok v1] st1] e1]| |].
  - by destruct (results.get_value_optional api std _ fresh v st e)
      as [[[v1 st1] e1]| |].
Qed.

Lemma iterator_fetch_impl_unfold k tuple st e :
  result_iterator.fetch_impl api std k tuple st e
  = '(tuple, st, e) ← result_iterator.get_element api std k tuple st e;
    match k with
    | 0 => Returns (tuple, st, e)
    | S k => result_iterator.fetch_impl api std k tuple st e
    end.
Proof. by destruct k. Qed.

(** The calls of [fetch_impl<I>] of the iterator, from the last element of
    the tuple down to the first, give what the calls of [fetch_impl] of
    [results] give from the first variable up to the last. *)
Lemma iterator_fetch_impl_prefix values : ∀ suffix st e,
  results.start api st e = Returns (st, e) → values ≠ [] →
  result_iterator.fetch_impl api std (length values - 1) (values ++ suffix) st e
  = '(vs, st1, e1) ← results.fetch_impl api std 0 values st e;
    Returns (vs ++ suffix, st1, e1).
Proof.
  induction values as [|x init IH] using rev_ind; [done|].
  intros suffix st e Hpos _.
  rewrite length_app. simpl. replace (length init + 1 - 1) with (length init) by lia.
  rewrite results_fetch_impl_app, Z.add_0_l, iterator_fetch_impl_unfold.
  rewrite (get_element_step _ _ x)
    by (rewrite <- app_assoc; by apply list_lookup_middle).
  assert (∀ x', <[length init := x']> ((init ++ [x]) ++ suffix)
                = init ++ x' :: suffix) as Hins.
  { intros x'. rewrite <- app_assoc, insert_app_r_alt by lia.
    by rewrite Nat.sub_diag. }
  destruct (fetch_impl_pure [x] (Z.of_nat (length init)) st e Hpos)
    as [Hx|(vx & Hx & Hlenx)];
    destruct (fetch_impl_pure init 0 st e Hpos) as [Hi|(vi & Hi & Hleni)];
    rewrite Hx, Hi, ?bind_Returns; cbv beta iota; rewrite ?Hx, ?bind_Returns;
    cbv beta iota; try done.
  - (* the element is assigned, an earlier one is out of the row *)
    destruct vx as [|x' [|? ?]]; try done.
    change (default x (list.head [x'])) with x'. rewrite Hins.
    destruct init as [|y init]; [done|].
    change (length (y :: init)) with (S (length init)) at 1. cbv beta iota.
    replace (length init) with (length (y :: init) - 1) at 1 by (simpl; lia).
    rewrite (IH (x' :: suffix) st e Hpos) by done. by rewrite Hi.
  - destruct vx as [|x' [|? ?]]; try done.
    change (default x (list.head [x'])) with x'. rewrite Hins.
    destruct init as [|y init].
    + simpl in Hi. by simplify_eq.
    + change (length (y :: init)) with (S (length init)) at 1. cbv beta iota.
      replace (length init) with (length (y :: init) - 1) at 1 by (simpl; lia).
      rewrite (IH (x' :: suffix) st e Hpos) by done. rewrite Hi, bind_Returns.
      cbv beta iota. by rewrite <- app_assoc.
Qed.

(** X24: the tuple the dereference operator yields is what
    [seek(row_index)] followed by [fetch] on value-initialised variables
    yields, although the iterator assigns the last element first; past
    the last row, that is the value-initialised tuple. *)
Theorem dereference_is_seek_then_fetch fresh it st e :
  result_iterator.data it = None → is_Some (result_iterator.res it) →
  fresh ≠ [] →
  result_iterator.dereference api std fresh it st e
  = '(_, st, e) ← results.seek api (result_iterator.row_index it) st e;
    '(_, tuple, st, e) ← results.fetch api std fresh st e;
    Returns (tuple,
             {| result_iterator.res := result_iterator.res it;
                result_iterator.data := Some tuple;
                result_iterator.row_index := result_iterator.row_index it |},
             st, e).
Proof.
  intros Hdata [r Hres] Hfresh.
  unfold result_iterator.dereference, result_iterator.fetch.
  rewrite Hdata, Hres.
  destruct (results.seek api (result_iterator.row_index it) st e)
    as [[[ok st1] e1]| |] eqn:Hseek; simpl; [|done..].
  pose proof (seek_positions _ _ _ _ _ _ Hseek) as Hpos.
  rewrite <- (app_nil_r fresh) at 2.
  rewrite (iterator_fetch_impl_prefix fresh [] st1 e1 Hpos Hfresh).
  unfold results.fetch. rewrite Hpos. simpl.
  destruct (results.row st1) as [fields|] eqn:Hrow.
  - destruct (fetch_impl_pure fresh 0 st1 e1 Hpos) as [Hi|(vi & Hi & _)];
      rewrite Hi; simpl; [done|]. by rewrite app_nil_r.
  - rewrite fetch_impl_no_row by done. simpl. by rewrite app_nil_r.
Qed.

End iterator_fetch.

Lemma dereference_is_seek_then_fetch_witness :
  result_iterator.dereference table.api decimal_std
    [results.plain (results.var_int 0);
     results.optional (results.var_string []) None]
    (result_containter.begin (Some 0)) demo_results demo_table
  = '(_, st, e) ← results.seek table.api 0 demo_results demo_table;
    '(_, tuple, st, e) ←
      results.fetch table.api decimal_std
        [results.plain (results.var_int 0);
         results.optional (results.var_string []) None] st e;
    Returns (tuple,
             {| result_iterator.res := Some 0;
                result_iterator.data := Some tuple;
                result_iterator.row_index := 0 |},
             st, e).
Proof.
  apply (dereference_is_seek_then_fetch table.api decimal_std
           [results.plain (results.var_int 0);
            results.optional (results.var_string []) None]
           (result_containter.begin (Some 0)) demo_results demo_table).
  - reflexivity.
  - by exists 0.
  - discriminate.
Defined.

(** ** Returning a value, and moving a [results] *)

Section results_values.

Import results.

Context {E : Type} (api : text.api E) (std : std_conversions).


(** X26: moving a [results] hands the result set over: the destructor
    of the object moved from frees nothing, and the one of the new object
    frees what the old one would have freed.  The move constructor does
    not take the current row along: the new object starts again at the
    first row; the move assignment frees the result set the target had
    and takes the current row along. *)
Theorem move_hands_over_result_set r e :
  (∀ target r',
     move_construct r = Returns (target, r') →
     destroy api r' e = Returns e ∧
     destroy api target e = destroy api r e ∧
     operator_bool target = operator_bool r ∧
     error_code target = error_code r ∧
     row target = None ∧ started target = false) ∧
  (∀ old target r' e',
     move_assign api old r e = Returns (target, r', e') →
     destroy api old e = Returns e' ∧
     destroy api r' e' = Returns e' ∧
     destroy api target e' = destroy api r e' ∧
     operator_bool target = operator_bool r ∧
     error_code target = error_code r ∧
     row target = row r ∧ started target = started r).
Proof.
  split.
  - intros target r'. unfold move_construct, destroy, operator_bool.
    destruct (my_conn r) as [c|]; [|done].
    destruct (res r) as [rs|]; [|done]. simpl. intros ?. by simplify_eq.
  - intros old target r' e'. unfold move_assign, destroy, operator_bool.
    destruct (res old) as [rs0|]; [|done].
    destruct (my_conn r) as [c|]; [|done].
    destruct (res r) as [rs|]; [|done]. simpl. intros ?. by simplify_eq.
Qed.

End results_values.


Lemma move_hands_over_result_set_witness :
  ∃ target r',
    results.move_construct
      (results.set_cursor (Some [Some ["x"%byte]; None]) true demo_results)
    = Returns (target, r') ∧
    results.destroy table.api r' demo_table = Returns demo_table ∧
    results.started target = false.
Proof.
  destruct (results.move_construct
              (results.set_cursor (Some [Some ["x"%byte]; None]) true demo_results))
    as [[target r']| |] eqn:Hrun; try (vm_compute in Hrun; discriminate).
  destruct (proj1 (move_hands_over_result_set table.api _ demo_table)
              target r' Hrun) as (Hfree & _ & _ & _ & _ & Hst).
  by exists target, r'.
Defined.

(** * The outcomes of [fetch] *)

Section fetch_outcomes.

Import mysql_bind_set prepared_stmt.



(** ** What a call that fills the buffers keeps *)






(** ** [pre_fetch] engages every bound optional string *)


(** ** [post_fetch] returns when the optional strings are engaged *)




Context {E : Type} (api : mysql_api E).


End fetch_outcomes.

(** ** [fetch] at concrete inputs *)







(** * The connection's mutex *)

Section mutex.

Context {E : Type} (api : mysql_api E).

(** ** The recording engine does what the engine does *)

Lemma execute_traced s m e tr b s' m' e' :
  prepared_stmt.execute api s m e = Returns (b, s', m', e') →
  ∃ calls,
    prepared_stmt.execute (traced api) s m (e, tr)
    = Returns (b, s', m', (e', tr ++ map engine calls)).
Proof.
  unfold prepared_stmt.execute.
  destruct (mysql_bind_set.pre_execute (prepared_stmt.param_binds s) m)
    as [[pb m1]| |]; simpl; [|done..].
  destruct (mysql_stmt_bind_param api _ _ _ e) as [failed e1].
  destruct failed.
  { intros ?; simplify_eq. by exists [stmt_bind_param_call]. }
  simpl. destruct (mysql_stmt_execute api _ _ _ e1) as [rc e2].
  case_bool_decide.
  { intros ?; simplify_eq. exists [stmt_bind_param_call; stmt_execute_call].
    unfold log; simpl. by rewrite <- app_assoc. }
  simpl. destruct (mysql_bind_set.post_execute pb m1) as [[pb2 m2]| |]; simpl;
    [|done..].
  intros ?; simplify_eq. exists [stmt_bind_param_call; stmt_execute_call].
  unfold log; simpl. by rewrite <- app_assoc.
Qed.

Lemma fetch_columns_traced h refetch : ∀ rb m e tr,
  ∃ calls,
    prepared_stmt.fetch_columns (traced api) h refetch rb m (e, tr)
    = let '(ok, rb', m', e') := prepared_stmt.fetch_columns api h refetch rb m e in
      (ok, rb', m', (e', tr ++ map engine calls)).
Proof.
  induction refetch as [|i refetch IH]; intros rb m e tr.
  - exists []. simpl. by rewrite app_nil_r.
  - simpl.
    destruct (mysql_stmt_fetch_column api h i (to_unsigned_int i) 0 rb m e)
      as [[[rc rb1] m1] e1].
    case_bool_decide.
    + by exists [stmt_fetch_column_call].
    + destruct (IH rb1 m1 e1 (tr ++ [engine stmt_fetch_column_call]))
        as [calls Hrest].
      exists (stmt_fetch_column_call :: calls). unfold log; simpl.
      rewrite Hrest.
      destruct (prepared_stmt.fetch_columns api h refetch rb1 m1 e1)
        as [[[ok rb2] m2] e2].
      by rewrite <- app_assoc.
Qed.

Lemma fetch_traced s m e tr b s' m' e' :
  prepared_stmt.fetch api s m e = Returns (b, s', m', e') →
  ∃ calls,
    prepared_stmt.fetch (traced api) s m (e, tr)
    = Returns (b, s', m', (e', tr ++ map engine calls)).
Proof.
  unfold prepared_stmt.fetch.
  destruct (mysql_bind_set.pre_fetch (prepared_stmt.result_binds s) m)
    as [[rb1 m1]| |]; simpl; [|done..].
  destruct (mysql_stmt_bind_result api _ _ _ e) as [failed e1].
  destruct failed.
  { intros ?; simplify_eq. by exists [stmt_bind_result_call]. }
  simpl. destruct (mysql_stmt_fetch api _ _ _ e1) as [[[rc rb2] m2] e2].
  simpl.
  destruct (bool_decide (rc = MYSQL_DATA_TRUNCATED) || bool_decide (rc = 0%Z)).
  - destruct (mysql_bind_set.post_fetch rb2 m2) as [[[refetch rb3] m3]| |];
      simpl; [|done..].
    destruct (fetch_columns_traced (prepared_stmt.stmt s) refetch rb3 m3 e2
                ((tr ++ [engine stmt_bind_result_call]) ++ [engine stmt_fetch_call]))
      as [calls Hcols].
    unfold log; simpl. rewrite Hcols.
    destruct (prepared_stmt.fetch_columns api (prepared_stmt.stmt s) refetch rb3 m3 e2)
      as [[[ok rb4] m4] e4].
    destruct ok.
    + simpl. destruct (mysql_bind_set.post_refetch refetch rb4 m4)
        as [[rb5 m5]| |]; simpl; [|done..].
      intros ?; simplify_eq.
      exists (stmt_bind_result_call :: stmt_fetch_call :: calls).
      by rewrite <- !app_assoc.
    + intros ?; simplify_eq.
      exists (stmt_bind_result_call :: stmt_fetch_call :: calls).
      by rewrite <- !app_assoc.
  - intros ?; simplify_eq. exists [stmt_bind_result_call; stmt_fetch_call].
    unfold log; simpl. by rewrite <- app_assoc.
Qed.

Lemma not_bracketed_after_release tr c :
  ¬ bracketed (tr ++ [release; engine c]).
Proof.
  intros [calls H]. apply (f_equal list.last) in H.
  change (tr ++ [release; engine c]) with (tr ++ [release] ++ [engine c]) in H.
  rewrite (assoc_L (++) tr [release] [engine c]), last_snoc in H.
  by rewrite app_comm_cons, last_snoc in H.
Qed.

(** C10: the lock discipline of the four operations, one operation at a
    time.  [execute] and [fetch], when they return, and the destructor
    have acquired the mutex before their first engine call and release it
    after the last one.  So does the constructor when the engine cannot
    allocate the handle and when it accepts the statement text.  When the
    engine rejects the text, the constructor releases the mutex before the
    handle is closed: [mysql_stmt_close] is called without the mutex.  In
    every case the constructor with its events recorded throws or returns
    what the constructor does, and leaves the engine as it does. *)
Theorem constructor_closes_handle_after_release :
  (∀ s m e b s' m' e',
     prepared_stmt.execute api s m e = Returns (b, s', m', e') →
     ∃ tr, locked.execute api s m (e, []) = Returns (b, s', m', (e', tr)) ∧
           bracketed tr) ∧
  (∀ s m e b s' m' e',
     prepared_stmt.fetch api s m e = Returns (b, s', m', e') →
     ∃ tr, locked.fetch api s m (e, []) = Returns (b, s', m', (e', tr)) ∧
           bracketed tr) ∧
  (∀ s e, bracketed (locked.destroy api s (e, [])).2.2) ∧
  (∀ pcon query e,
     let '(h, e1) := mysql_stmt_init api (my_conn pcon) e in
     let '(rc, e2) := mysql_stmt_prepare api h query (String.length query) e1 in
     let run := locked.prepared_stmt api pcon query (e, []) in
     run.1 = (prepared_stmt.prepared_stmt api pcon query e).1 ∧
     run.2.1 = (prepared_stmt.prepared_stmt api pcon query e).2 ∧
     (h = None ∨ rc = 0%Z → bracketed run.2.2) ∧
     (is_Some h → rc ≠ 0%Z →
        run.2.2 = [acquire; engine stmt_init_call; engine stmt_prepare_call;
                   engine stmt_error_call; release; engine stmt_close_call] ∧
        ¬ bracketed run.2.2)).
Proof.
  split; [|split; [|split]].
  - intros s m e b s' m' e' Hrun.
    destruct (execute_traced s m e [acquire] b s' m' e' Hrun) as [calls Ht].
    exists (acquire :: map engine calls ++ [release]).
    split; [|by exists calls].
    unfold locked.execute, log; simpl. by rewrite Ht.
  - intros s m e b s' m' e' Hrun.
    destruct (fetch_traced s m e [acquire] b s' m' e' Hrun) as [calls Ht].
    exists (acquire :: map engine calls ++ [release]).
    split; [|by exists calls].
    unfold locked.fetch, log; simpl. by rewrite Ht.
  - intros s e. unfold locked.destroy, log; simpl.
    destruct (prepared_stmt.stmt s); simpl.
    + by exists [stmt_close_call].
    + by exists [].
  - intros pcon query e.
    unfold locked.prepared_stmt, prepared_stmt.prepared_stmt, log; simpl.
    destruct (mysql_stmt_init api (my_conn pcon) e) as [[h|] e1]; simpl.
    + destruct (mysql_stmt_prepare api (Some h) query (String.length query) e1)
        as [rc e2]; simpl.
      case_bool_decide as Hrc; simpl.
      * do 2 (split; [done|]). split; [by intros [?| ->]|].
        intros _ _. split; [done|].
        apply (not_bracketed_after_release
                 [acquire; engine stmt_init_call; engine stmt_prepare_call;
                  engine stmt_error_call]).
      * destruct (mysql_stmt_result_metadata api (Some h) e2) as [[meta|] e3];
          simpl; (do 2 (split; [done|])); (split; [|done]); intros _.
        -- by exists [stmt_init_call; stmt_prepare_call; stmt_param_count_call;
                      stmt_result_metadata_call; num_fields_call; free_result_call].
        -- by exists [stmt_init_call; stmt_prepare_call; stmt_param_count_call;
                      stmt_result_metadata_call].
    + destruct (mysql_stmt_prepare api None query (String.length query) e1)
        as [rc e2].
      do 2 (split; [done|]). split; [|by intros [? ?]].
      intros _. by exists [stmt_init_call].
Qed.

End mutex.

Lemma constructor_closes_handle_after_release_witness :
  (locked.prepared_stmt script.api demo_connection "SELEC" (rejecting_script, [])).2.2
  = [acquire; engine stmt_init_call; engine stmt_prepare_call;
     engine stmt_error_call; release; engine stmt_close_call] ∧
  ∃ s m e tr,
    locked.execute script.api demo_stmt memory_with_42 (demo_engine, [])
    = Returns (true, s, m, (e, tr)) ∧
    bracketed tr.
Proof.
  destruct (constructor_closes_handle_after_release script.api)
    as (Hexecute & _ & _ & Hconstructor).
  split.
  - specialize (Hconstructor demo_connection "SELEC"%string rejecting_script).
    cbv beta iota zeta delta [script.api mysql_stmt_init mysql_stmt_prepare] in Hconstructor.
    vm_compute in Hconstructor.
    exact (proj1 (proj2 (proj2 (proj2 Hconstructor)) ltac:(by eexists)
                    ltac:(discriminate))).
  - destruct (prepared_stmt.execute script.api demo_stmt memory_with_42 demo_engine)
      as [[[[b s] m] e]| |] eqn:Hrun; try (vm_compute in Hrun; discriminate).
    destruct (Hexecute _ _ _ _ _ _ _ Hrun) as (tr & Hlocked & Hbr).
    assert (b = true) as -> by (vm_compute in Hrun; by simplify_eq).
    by exists s, m, e, tr.
Defined.

(** The failed constructor in one thread and [execute] in another, on one
    connection: a run the mutex admits in which [mysql_stmt_close] of the
    first falls between two engine calls of the second. *)
Example failed_constructor_races_execute :
  let run :=
    [(true, acquire); (true, engine stmt_init_call);
     (true, engine stmt_prepare_call); (true, engine stmt_error_call);
     (true, release);
     (false, acquire); (false, engine stmt_bind_param_call);
     (true, engine stmt_close_call);
     (false, engine stmt_execute_call); (false, release)] in
  events_of true run
  = (locked.prepared_stmt script.api demo_connection "SELEC" (rejecting_script, [])).2.2 ∧
  Returns (events_of false run)
  = locked.execute script.api demo_stmt memory_with_42 (demo_engine, [])
    ≫= (λ '(_, _, _, (_, tr)), Returns tr) ∧
  mutex_admits None run = true ∧
  exclusive None run = false.
Proof. vm_compute. by repeat split. Qed.
